(** * Little Navmap: map types and the route description dialog

    A shallow embedding of [src/common/maptypes.h] and
    [src/routestring/routestringdialog.cpp], together with the route
    description reader and writer that the dialog drives.

    Integers of the program ([int], [QFlags]) are [Z]; the bit operations
    of [QFlags] are [Z.lor], [Z.land] and [Z.lnot], which agree with the
    two's complement operations on every 32 bit value.  [QString] is
    [string], [QList] and [QStringList] are [list]. *)

From Stdlib Require Import ZArith Bool List Ascii String Lia.
From stdpp Require Import base option list gmap strings.

Local Open Scope string_scope.
Local Open Scope list_scope.
Local Open Scope Z_scope.

(** ** Types of the atools library

    [atools::geo::Pos], [Rect] and [LineString] and the C++ [float] belong
    to the atools library.  The program only stores them, asks a position
    whether it is valid and measures the distance between two positions, so
    they are kept abstract. *)

Class AtoolsGeo := {
  float : Type;
  Pos : Type;
  Pos_isValid : Pos -> bool;            (* atools::geo::Pos::isValid *)
  Pos_distanceMeterTo : Pos -> Pos -> Z; (* great circle distance, rounded *)
  Rect : Type;
  Rect_getCenter : Rect -> Pos;
  LineString : Type;
  LineString_isEmpty : LineString -> bool
}.

(** ** [common/maptypes.h] *)

Module MapAirport.
Section Defs.
Context `{G : AtoolsGeo}.

Record t := {
  ident : string;
  name : string;
  id : Z;                      (* database id airport.airport_id *)
  longestRunwayLength : Z;
  longestRunwayHeading : Z;
  flags : Z;                   (* MapAirportFlags *)
  magvar : float;
  towerFrequency : Z;
  atisFrequency : Z;
  awosFrequency : Z;
  asosFrequency : Z;
  unicomFrequency : Z;
  position : Pos;
  towerCoords : Pos;
  bounding : Rect;
  routeIndex : Z
}.

Definition isValid (a : t) : bool := Pos_isValid (position a).
Definition getPosition (a : t) : Pos := position a.
Definition getId (a : t) : Z := id a.
End Defs.
End MapAirport.

Module MapRunway.
Section Defs.
Context `{G : AtoolsGeo}.

Record t := {
  surface : string;
  primaryName : string;
  secondaryName : string;
  edgeLight : string;
  length : Z;
  primaryEndId : Z;
  secondaryEndId : Z;
  heading : float;
  width : Z;
  primaryOffset : Z;
  secondaryOffset : Z;
  primaryBlastPad : Z;
  secondaryBlastPad : Z;
  primaryOverrun : Z;
  secondaryOverrun : Z;
  position : Pos;
  primaryPosition : Pos;
  secondaryPosition : Pos;
  primaryClosed : bool;
  secondaryClosed : bool
}.

Definition isValid (r : t) : bool := Pos_isValid (position r).
Definition getPosition (r : t) : Pos := position r.
Definition getId (r : t) : Z := -1.
End Defs.
End MapRunway.

Module MapRunwayEnd.
Section Defs.
Context `{G : AtoolsGeo}.

Record t := {
  name : string;
  heading : float;
  position : Pos;
  secondary : bool
}.

Definition isValid (r : t) : bool := Pos_isValid (position r).
Definition getPosition (r : t) : Pos := position r.
Definition getId (r : t) : Z := -1.
End Defs.
End MapRunwayEnd.

Module MapApron.
Section Defs.
Context `{G : AtoolsGeo}.

Record t := {
  vertices : LineString;
  surface : string;
  drawSurface : bool
}.

Definition isValid (a : t) : bool := negb (LineString_isEmpty (vertices a)).
Definition getId (a : t) : Z := -1.
End Defs.
End MapApron.

Module MapTaxiPath.
Section Defs.
Context `{G : AtoolsGeo}.

Record t := {
  start : Pos;
  end_ : Pos;
  surface : string;
  name : string;
  width : Z;
  drawSurface : bool;
  closed : bool
}.

Definition isValid (p : t) : bool := Pos_isValid (start p).
Definition getId (p : t) : Z := -1.
End Defs.
End MapTaxiPath.

Module MapParking.
Section Defs.
Context `{G : AtoolsGeo}.

Record t := {
  type : string;
  name : string;
  airlineCodes : string;
  id : Z;                      (* database id parking.parking_id *)
  airportId : Z;
  position : Pos;
  number : Z;
  radius : Z;
  heading : Z;
  jetway : bool
}.

Definition isValid (p : t) : bool := Pos_isValid (position p).
Definition getPosition (p : t) : Pos := position p.
Definition getId (p : t) : Z := -1.
End Defs.
End MapParking.

Module MapStart.
Section Defs.
Context `{G : AtoolsGeo}.

Record t := {
  type : string;
  runwayName : string;
  id : Z;                      (* database id start.start_id *)
  airportId : Z;
  position : Pos;
  heading : Z;
  helipadNumber : Z
}.

Definition isValid (s : t) : bool := Pos_isValid (position s).
Definition getPosition (s : t) : Pos := position s.
Definition getId (s : t) : Z := id s.
End Defs.
End MapStart.

Module MapHelipad.
Section Defs.
Context `{G : AtoolsGeo}.

Record t := {
  surface : string;
  type : string;
  position : Pos;
  length : Z;
  width : Z;
  heading : Z;
  start : Z;
  closed : bool;
  transparent : bool
}.

Definition isValid (h : t) : bool := Pos_isValid (position h).
Definition getPosition (h : t) : Pos := position h.
Definition getId (h : t) : Z := -1.
End Defs.
End MapHelipad.

Module MapVor.
Section Defs.
Context `{G : AtoolsGeo}.

Record t := {
  ident : string;
  region : string;
  type : string;
  name : string;
  id : Z;                      (* database id vor.vor_id *)
  magvar : float;
  frequency : Z;
  range : Z;
  position : Pos;
  routeIndex : Z;
  dmeOnly : bool;
  hasDme : bool
}.

Definition isValid (v : t) : bool := Pos_isValid (position v).
Definition getPosition (v : t) : Pos := position v.
Definition getId (v : t) : Z := id v.
End Defs.
End MapVor.

Module MapNdb.
Section Defs.
Context `{G : AtoolsGeo}.

Record t := {
  ident : string;
  region : string;
  type : string;
  name : string;
  id : Z;                      (* database id ndb.ndb_id *)
  magvar : float;
  frequency : Z;
  range : Z;
  position : Pos;
  routeIndex : Z
}.

Definition isValid (n : t) : bool := Pos_isValid (position n).
Definition getPosition (n : t) : Pos := position n.
Definition getId (n : t) : Z := id n.
End Defs.
End MapNdb.

Module MapWaypoint.
Section Defs.
Context `{G : AtoolsGeo}.

Record t := {
  id : Z;                      (* database waypoint.waypoint_id *)
  magvar : float;
  ident : string;
  region : string;
  type : string;
  position : Pos;
  routeIndex : Z;
  hasVictorAirways : bool;
  hasJetAirways : bool
}.

Definition isValid (w : t) : bool := Pos_isValid (position w).
Definition getPosition (w : t) : Pos := position w.
Definition getId (w : t) : Z := id w.
End Defs.
End MapWaypoint.

Module MapUserpoint.
Section Defs.
Context `{G : AtoolsGeo}.

Record t := {
  name : string;
  id : Z;                      (* sequence number in the flight plan *)
  position : Pos;
  routeIndex : Z
}.

Definition isValid (u : t) : bool := Pos_isValid (position u).
Definition getPosition (u : t) : Pos := position u.
Definition getId (u : t) : Z := id u.
End Defs.
End MapUserpoint.

(** ** Route description options

    [rs::RouteStringOptions] is a [QFlags] over the enumeration
    [rs::RouteStringOption].  The dialog names the enumerators below; their
    numeric values and [rs::DEFAULT_OPTIONS] are declared in a header that
    is not part of the sources at hand, so they are taken as parameters. *)

Module rs.

Inductive RouteStringOption :=
| DCT | START_AND_DEST | ALT_AND_SPEED | NO_AIRWAYS | ALTERNATES
| SID_STAR | SID_STAR_GENERIC | SID_STAR_NONE
| STAR_REV_TRANSITION | SID_STAR_SPACE
| READ_ALTERNATES | READ_NO_AIRPORTS | READ_MATCH_WAYPOINTS
| REPORT.

#[global] Instance RouteStringOption_eq_dec : EqDecision RouteStringOption.
Proof. solve_decision. Defined.

Definition allOptions : list RouteStringOption :=
  [DCT; START_AND_DEST; ALT_AND_SPEED; NO_AIRWAYS; ALTERNATES;
   SID_STAR; SID_STAR_GENERIC; SID_STAR_NONE;
   STAR_REV_TRANSITION; SID_STAR_SPACE;
   READ_ALTERNATES; READ_NO_AIRPORTS; READ_MATCH_WAYPOINTS; REPORT].

Class Enumerators := {
  value : RouteStringOption -> Z;   (* static_cast<int>(rs::X) *)
  DEFAULT_OPTIONS : Z
}.

(** The value held by a [QFlags<RouteStringOption>]. *)
Definition RouteStringOptions := Z.

(** [QFlags::operator|], [operator&], [operator~] and the conversion of a
    [QFlags] to [bool]. *)
Definition or (a b : RouteStringOptions) : RouteStringOptions := Z.lor a b.
Definition and (a b : RouteStringOptions) : RouteStringOptions := Z.land a b.
Definition not (a : RouteStringOptions) : RouteStringOptions := Z.lnot a.
Definition toBool (a : RouteStringOptions) : bool := negb (a =? 0).

(** [options.testFlag(f)], written [options & rs::F] in the program. *)
Definition has `{Enumerators} (o : RouteStringOptions) (f : RouteStringOption) : bool :=
  toBool (and o (value f)).

(** A value with exactly one bit of a 32 bit [int] set. *)
Definition isSingleBit (d : Z) : bool :=
  (0 <? d) && (d <? 2 ^ 31) && (d =? 2 ^ Z.log2 d).

Fixpoint noSharedBit (values : list Z) : bool :=
  match values with
  | [] => true
  | d :: rest => forallb (fun d' => Z.land d d' =? 0) rest && noSharedBit rest
  end.

(** Modelled from the spec: the enumerators of [rs::RouteStringOption]
    (their declaration is missing) are orthogonal bits: every one is a
    single bit and no two of them share a bit. *)
Definition orthogonal (E : Enumerators) : bool :=
  forallb (fun f => isSingleBit (value f)) allOptions
  && noSharedBit (List.map value allOptions).

End rs.

(** ** Qt: checkable actions of a menu

    A [QAction] of the options menu, as far as the dialog uses it: its
    object name, its [data()] converted by [toInt()], whether it is
    checkable and checked, and whether it was added to [procActionGroup].
    A separator is an action that is not checkable and whose [data()] is
    an invalid [QVariant], which [toInt()] turns into 0. *)

Record QAction := {
  objectName : string;
  data : Z;
  checkable : bool;
  checked : bool;
  inGroup : bool
}.

Definition withChecked (a : QAction) (b : bool) : QAction :=
  {| objectName := objectName a; data := data a; checkable := checkable a;
     checked := b; inGroup := inGroup a |}.

(** [QMenu::actions()], in the order in which the actions were added. *)
Abbreviation QMenu := (list QAction) (only parsing).

(** A [QActionGroup] is exclusive unless told otherwise, and the dialog
    never calls [setExclusive]: when an action of the group becomes
    checked, the group unchecks its other actions. *)
Definition uncheckOthers (i : nat) (menu : QMenu) : QMenu :=
  imap (fun j a => if inGroup a && negb (Nat.eqb j i) then withChecked a false else a)
       menu.

(** [QAction::setChecked]: nothing happens for an action that is not
    checkable or already in the requested state. *)
Definition setChecked (menu : QMenu) (i : nat) (b : bool) : QMenu :=
  match menu !! i with
  | None => menu
  | Some a =>
      if negb (checkable a) || Bool.eqb (checked a) b then menu
      else
        let menu' := <[i := withChecked a b]> menu in
        if b && inGroup a then uncheckOthers i menu' else menu'
  end.

(** ** The options menu built by the constructor of [RouteStringDialog] *)

Section Menu.
Context `{E : rs.Enumerators}.

Definition newAction (name : string) (f : rs.RouteStringOption) (grouped : bool)
  : QAction :=
  {| objectName := name; data := rs.value f; checkable := true;
     checked := false; inGroup := grouped |}.

Definition separator : QAction :=
  {| objectName := ""; data := 0; checkable := false; checked := false;
     inGroup := false |}.

Definition buildMenu (hasSidStarInDatabase : bool) : QMenu :=
  ([ newAction "actionDepartDest" rs.START_AND_DEST false;
    newAction "actionDct" rs.DCT false;
    newAction "actionSpeedAlt" rs.ALT_AND_SPEED false;
    newAction "actionWaypoints" rs.NO_AIRWAYS false;
    newAction "actionAlternates" rs.ALTERNATES false;
    separator ]
  ++ (if hasSidStarInDatabase
      then [ newAction "actionSidStar" rs.SID_STAR true ] else [])
  ++ [ newAction "actionGenericSidStar" rs.SID_STAR_GENERIC true;
       newAction "actionNoSidStar" rs.SID_STAR_NONE true;
       separator;
       newAction "actionReversedStar" rs.STAR_REV_TRANSITION false;
       newAction "actionSpaceSidStar" rs.SID_STAR_SPACE false;
       separator;
       newAction "actionTrailingAlternates" rs.READ_ALTERNATES false;
       newAction "actionNavaid" rs.READ_NO_AIRPORTS false;
       newAction "actionMatchCoords" rs.READ_MATCH_WAYPOINTS false ])%list.
End Menu.

(** ** The loops of the dialog over the menu *)

(** One pass of the loop of [toolButtonOptionTriggered]:
    [if(act->isChecked()) options |= opts; else options &= ~opts;] *)
Definition copyAction (options : rs.RouteStringOptions) (act : QAction)
  : rs.RouteStringOptions :=
  let opts := data act in
  if checked act then rs.or options opts else rs.and options (rs.not opts).

(** "Copy menu state for options bitfield" *)
Definition copyMenuState (menu : QMenu) (options : rs.RouteStringOptions)
  : rs.RouteStringOptions :=
  fold_left copyAction menu options.

(** One pass of the loop of [updateButtonState]:
    [act->setChecked(rs::RouteStringOptions(act->data().toInt()) & options)] *)
Definition checkFromOptions (options : rs.RouteStringOptions) (menu : QMenu) (i : nat)
  : QMenu :=
  match menu !! i with
  | None => menu
  | Some act => setChecked menu i (rs.toBool (rs.and (data act) options))
  end.

(** "Copy option flags to dropdown menu items" *)
Definition copyOptionsToMenu (options : rs.RouteStringOptions) (menu : QMenu) : QMenu :=
  fold_left (checkFromOptions options) (seq 0 (length menu)) menu.

(** ** Settings

    [atools::settings::Settings] keeps [QVariant] values under string keys.
    [atools::gui::WidgetState] stores the state of widgets in the same
    settings; what it writes is of no concern to the dialog. *)

Inductive QVariant :=
| VInt (i : Z)
| VOther (bytes : string).

Definition QVariant_toInt (v : QVariant) : Z :=
  match v with VInt i => i | VOther _ => 0 end.

Class Constants := {
  ROUTE_STRING_DIALOG_OPTIONS : string;   (* lnm::ROUTE_STRING_DIALOG_OPTIONS *)
  ROUTE_STRING_DIALOG_SPLITTER : string;  (* lnm::ROUTE_STRING_DIALOG_SPLITTER *)
  (* atools::gui::WidgetState(key).save(widgets) *)
  WidgetState_save : string -> gmap string QVariant -> gmap string QVariant
}.

Section Settings.
Context `{E : rs.Enumerators} `{C : Constants}.

Definition setValue (key : string) (i : Z) (s : gmap string QVariant)
  : gmap string QVariant :=
  <[key := VInt i]> s.

Definition valueInt (key : string) (def : Z) (s : gmap string QVariant) : Z :=
  match s !! key with
  | Some v => QVariant_toInt v
  | None => def
  end.

(** [RouteStringDialog::saveState] *)
Definition saveState (options : rs.RouteStringOptions) (s : gmap string QVariant)
  : gmap string QVariant :=
  setValue ROUTE_STRING_DIALOG_OPTIONS options
           (WidgetState_save ROUTE_STRING_DIALOG_SPLITTER s).

(** [RouteStringDialog::getOptionsFromSettings] *)
Definition getOptionsFromSettings (s : gmap string QVariant) : rs.RouteStringOptions :=
  valueInt ROUTE_STRING_DIALOG_OPTIONS rs.DEFAULT_OPTIONS s.
End Settings.

(** ** Vocabulary for statements about the menu loops *)

(** The union of the flags of all actions of a menu, and of the checked
    ones. *)
Definition menuBits (menu : QMenu) : Z :=
  fold_right (fun act acc => Z.lor (data act) acc) 0 menu.

Definition checkedBits (menu : QMenu) : Z :=
  fold_right (fun act acc => if checked act then Z.lor (data act) acc else acc) 0 menu.

(** No two actions of the menu share a bit. *)
Fixpoint pairwiseDisjoint (menu : QMenu) : bool :=
  match menu with
  | [] => true
  | act :: rest =>
      forallb (fun other => Z.land (data act) (data other) =? 0) rest
      && pairwiseDisjoint rest
  end.

(** Every checkable action carries exactly one bit and every other action
    (a separator) carries none. *)
Definition menuWellFormed (menu : QMenu) : bool :=
  forallb (fun act => if checkable act then rs.isSingleBit (data act)
                      else data act =? 0)
          menu.

(** An action without its check mark: what the constructor made of it. *)
Definition unchecked (act : QAction) : QAction := withChecked act false.

(** What [updateButtonState] asks of an action. *)
Definition wanted (options : rs.RouteStringOptions) (act : QAction) : bool :=
  rs.toBool (rs.and (data act) options).

(** The actions of [procActionGroup] whose flag is set in [options]. *)
Definition groupFlagsSet (menu : QMenu) (options : rs.RouteStringOptions) : list QAction :=
  filter (fun act => inGroup act && wanted options act = true) menu.

(** At most one action of the group is wanted. *)
Definition oneOfGroup (options : rs.RouteStringOptions) (menu : QMenu) : Prop :=
  forall i j a c, menu !! i = Some a -> menu !! j = Some c ->
    inGroup a = true -> inGroup c = true ->
    wanted options a = true -> wanted options c = true -> i = j.

(** The first [k] actions carry the wanted check mark. *)
Definition checkedUpTo (options : rs.RouteStringOptions) (k : nat) (menu : QMenu)
  : Prop :=
  forall j a, (j < k)%nat -> menu !! j = Some a ->
    checkable a = true -> checked a = wanted options a.

(** ** Sample enumerator values, used to evaluate the definitions *)

Definition sampleBit (f : rs.RouteStringOption) : Z :=
  match f with
  | rs.DCT => 0 | rs.START_AND_DEST => 1 | rs.ALT_AND_SPEED => 2
  | rs.NO_AIRWAYS => 3 | rs.ALTERNATES => 4
  | rs.SID_STAR => 5 | rs.SID_STAR_GENERIC => 6 | rs.SID_STAR_NONE => 7
  | rs.STAR_REV_TRANSITION => 8 | rs.SID_STAR_SPACE => 9
  | rs.READ_ALTERNATES => 10 | rs.READ_NO_AIRPORTS => 11
  | rs.READ_MATCH_WAYPOINTS => 12 | rs.REPORT => 13
  end.

Definition sampleEnumerators : rs.Enumerators :=
  {| rs.value f := 2 ^ sampleBit f;
     rs.DEFAULT_OPTIONS := 2 ^ sampleBit rs.START_AND_DEST |}.

Definition sampleConstants : Constants :=
  {| ROUTE_STRING_DIALOG_OPTIONS := "RouteStringDialog/Options";
     ROUTE_STRING_DIALOG_SPLITTER := "RouteStringDialog/Splitter";
     WidgetState_save key s := <[key := VOther "splitter"]> s |}.

(** ** Cleaning a route description

    Modelled from the spec: [rs::cleanRouteString] is declared in a header
    that is missing.  The text is "whitespace-split, case-normalized, with
    a pre-pass that strips punctuation noise", and the result is "a
    normalized token list".  Every character is put in upper case first;
    white space and punctuation noise then separate the tokens, and no
    token is empty.  Which punctuation counts as noise is left open; it
    never includes a letter or a digit. *)

(** Modelled from the spec: the "punctuation noise" that
    [rs::cleanRouteString] (its source is missing) strips; the spec does not
    list the characters. *)
Class PunctuationNoise := { isNoise : ascii -> bool }.

Section Cleaning.
Context `{P : PunctuationNoise}.

Definition charIn (lo hi : N) (c : ascii) : bool :=
  ((lo <=? N_of_ascii c) && (N_of_ascii c <=? hi))%N.

Definition isLower (c : ascii) : bool := charIn 97 122 c.
Definition isUpper (c : ascii) : bool := charIn 65 90 c.
Definition isDigit (c : ascii) : bool := charIn 48 57 c.

(** Blank, tab, line feed, vertical tab, form feed, carriage return. *)
Definition isSpace (c : ascii) : bool :=
  (N_of_ascii c =? 32)%N || charIn 9 13 c.

(** Modelled from the spec: the "case-normalized" of [rs::cleanRouteString]
    (its source is missing): letters are put in upper case. *)
Definition toUpper (c : ascii) : ascii :=
  if isLower c then ascii_of_N (N_of_ascii c - 32) else c.

(** Modelled from the spec: what separates two tokens of
    [rs::cleanRouteString] (its source is missing): white space and
    punctuation noise, never a letter or a digit. *)
Definition isSeparator (c : ascii) : bool :=
  isSpace c || (isNoise c && negb (isUpper c || isLower c || isDigit c)).

(** Modelled from the spec: the "whitespace-split" of
    [rs::cleanRouteString] (its source is missing): the maximal runs of
    characters that are no separators. *)
Fixpoint splitTokens (cs : list ascii) : list (list ascii) :=
  match cs with
  | [] => []
  | c :: cs' =>
      if isSeparator c then splitTokens cs'
      else
        match cs' with
        | [] => [[c]]
        | c' :: _ =>
            if isSeparator c' then [c] :: splitTokens cs'
            else
              match splitTokens cs' with
              | token :: tokens => (c :: token) :: tokens
              | [] => [[c]]
              end
        end
  end.

(** Modelled from the spec: [rs::cleanRouteString] (its source is missing),
    "producing a normalized token list from arbitrary pasted text":
    case-normalized, then split. *)
Definition cleanRouteString (text : string) : list string :=
  List.map string_of_list_ascii
           (splitTokens (List.map toUpper (list_ascii_of_string text))).

(** [QStringList::join(" ")] *)
Definition join (tokens : list string) : string := String.concat " " tokens.

(** A token as [cleanRouteString] delivers it: not empty, in upper case
    and free of separators. *)
Definition cleanChar (c : ascii) : bool :=
  negb (isSeparator c) && negb (isLower c).

Definition cleanToken (token : string) : bool :=
  match list_ascii_of_string token with
  | [] => false
  | cs => forallb cleanChar cs
  end.
End Cleaning.

(** ** Navigation points, flight plans and routes

    Modelled from the spec: the route description reader and writer
    ([routestringreader.cpp], [routestringwriter.cpp]) and the flight plan
    they exchange are missing.  Everything from here up to the dialog follows
    the data model, the writer algorithm and the reader state machine of
    the specification; the structs of [maptypes.h] are the payload. *)

Module NavPoint.
Section Defs.
Context `{G : AtoolsGeo}.

(** Modelled from the spec: "a tagged union over Airport, VOR, NDB,
    Waypoint, UserWaypoint, RunwayEnd/Parking-as-start, raw Coordinate",
    which "carries identifier string, resolved geographic position,
    optional magnetic variation, optional database id". *)
Inductive t :=
| Airport (a : MapAirport.t)
| Vor (v : MapVor.t)
| Ndb (n : MapNdb.t)
| Waypoint (w : MapWaypoint.t)
| UserWaypoint (u : MapUserpoint.t)
| RunwayEnd (r : MapRunwayEnd.t)
| Parking (p : MapParking.t)
| Coordinate (text : string) (pos : Pos).

Definition ident (p : t) : string :=
  match p with
  | Airport a => MapAirport.ident a
  | Vor v => MapVor.ident v
  | Ndb n => MapNdb.ident n
  | Waypoint w => MapWaypoint.ident w
  | UserWaypoint u => MapUserpoint.name u
  | RunwayEnd r => MapRunwayEnd.name r
  | Parking p => MapParking.name p
  | Coordinate text _ => text
  end.

Definition getPosition (p : t) : Pos :=
  match p with
  | Airport a => MapAirport.getPosition a
  | Vor v => MapVor.getPosition v
  | Ndb n => MapNdb.getPosition n
  | Waypoint w => MapWaypoint.getPosition w
  | UserWaypoint u => MapUserpoint.getPosition u
  | RunwayEnd r => MapRunwayEnd.getPosition r
  | Parking p => MapParking.getPosition p
  | Coordinate _ pos => pos
  end.

Definition isValid (p : t) : bool :=
  match p with
  | Airport a => MapAirport.isValid a
  | Vor v => MapVor.isValid v
  | Ndb n => MapNdb.isValid n
  | Waypoint w => MapWaypoint.isValid w
  | UserWaypoint u => MapUserpoint.isValid u
  | RunwayEnd r => MapRunwayEnd.isValid r
  | Parking p => MapParking.isValid p
  | Coordinate _ pos => Pos_isValid pos
  end.

Definition getId (p : t) : Z :=
  match p with
  | Airport a => MapAirport.getId a
  | Vor v => MapVor.getId v
  | Ndb n => MapNdb.getId n
  | Waypoint w => MapWaypoint.getId w
  | UserWaypoint u => MapUserpoint.getId u
  | RunwayEnd r => MapRunwayEnd.getId r
  | Parking p => MapParking.getId p
  | Coordinate _ _ => -1
  end.
End Defs.
End NavPoint.

Section FlightPlan.
Context `{G : AtoolsGeo}.

(** Modelled from the spec: the "flight rules (IFR/VFR)" of a flight plan
    ([fs/pln/flightplan.h] is missing). *)
Inductive FlightplanType := IFR | VFR.

(** Modelled from the spec: "each entry is a NavPoint reference plus
    optional airway name (for the leg arriving at that point) plus
    optional altitude constraint". *)
Record FlightplanEntry := {
  point : NavPoint.t;
  airway : option string;
  altitude : option Z
}.

(** Modelled from the spec: "an ordered sequence of entries" with the
    plan level attributes "flight rules (IFR/VFR), cruise altitude, cruise
    speed, departure airport, destination airport, ordered list of
    alternates". *)
Record Flightplan := {
  entries : list FlightplanEntry;
  flightplanType : FlightplanType;
  cruisingAltitude : Z;
  cruiseSpeed : Z;
  departure : option MapAirport.t;
  destination : option MapAirport.t;
  alternates : list MapAirport.t
}.

(** Modelled from the spec: "an empty Flightplan" ([fs/pln/flightplan.h] is
    missing). *)
Definition emptyFlightplan : Flightplan :=
  {| entries := []; flightplanType := IFR; cruisingAltitude := 0;
     cruiseSpeed := 0; departure := None; destination := None;
     alternates := [] |}.

(** Modelled from the spec: [Flightplan::clear] ([fs/pln/flightplan.h] is
    missing) leaves the empty flight plan. *)
Definition clear (fp : Flightplan) : Flightplan := emptyFlightplan.

Definition setFlightplanType (ty : FlightplanType) (fp : Flightplan) : Flightplan :=
  {| entries := entries fp; flightplanType := ty;
     cruisingAltitude := cruisingAltitude fp; cruiseSpeed := cruiseSpeed fp;
     departure := departure fp; destination := destination fp;
     alternates := alternates fp |}.

(** Modelled from the spec: what the round trip of reader and writer (both
    missing) compares: identifier, position and airway name. *)
Definition signature (p : NavPoint.t) (aw : option string) : string * Pos * option string :=
  (NavPoint.ident p, NavPoint.getPosition p, aw).

(** Modelled from the spec: the "ordered sequence of identifiers" of a
    flight plan ([fs/pln/flightplan.h] is missing), with positions and
    airway names. *)
Definition entrySignatures (fp : Flightplan) : list (string * Pos * option string) :=
  List.map (fun e => signature (point e) (airway e)) (entries fp).

(** Modelled from the spec: the "optional procedure leg tag" of a leg of the
    route given to the writer (the route classes are missing): a SID or a
    STAR with its name and transition. *)
Inductive ProcedureType := SID | STAR.

#[global] Instance ProcedureType_eq_dec : EqDecision ProcedureType.
Proof. solve_decision. Defined.

(** Modelled from the spec: the "optional procedure leg tag" of a leg (the
    route classes are missing): the kind of the procedure, its name and its
    transition. *)
Record ProcedureLeg := {
  procType : ProcedureType;
  procName : string;
  transition : string            (* empty: no transition *)
}.

#[global] Instance ProcedureLeg_eq_dec : EqDecision ProcedureLeg.
Proof. solve_decision. Defined.

(** Modelled from the spec: the route given to the writer (the route
    classes are missing): the departure airport, the ordered legs, the
    destination airport, the alternates and the cruise altitude. *)
Record RouteLeg := {
  legPoint : NavPoint.t;
  legAirway : option string;
  legProcedure : option ProcedureLeg
}.

Record Route := {
  routeDeparture : option MapAirport.t;
  routeLegs : list RouteLeg;
  routeDestination : option MapAirport.t;
  routeAlternates : list MapAirport.t;
  routeCruisingAltitude : Z
}.

(** Modelled from the spec: the departure or destination airport of a route
    (the route classes are missing) in its sequence of identifiers. *)
Definition airportSignatures (a : option MapAirport.t)
  : list (string * Pos * option string) :=
  match a with
  | Some a => [signature (NavPoint.Airport a) None]
  | None => []
  end.

(** Modelled from the spec: the "ordered sequence of identifiers" of a route
    (the route classes are missing), with positions and airway names. *)
Definition routeSignatures (r : Route) : list (string * Pos * option string) :=
  airportSignatures (routeDeparture r)
  ++ List.map (fun leg => signature (legPoint leg) (legAirway leg)) (routeLegs r)
  ++ airportSignatures (routeDestination r).
End FlightPlan.

(** ** The navigation database

    Modelled from the spec: the "collaborator interfaces consumed" by the
    reader.  A lookup that finds nothing gives [None] or an empty list. *)
(** Modelled from the spec: the queries of the reader against the
    navigation database (the query classes are missing), one field for each
    of the "collaborator interfaces consumed". *)
Class NavDatabase `{G : AtoolsGeo} := {
  (* "Airport lookup by identifier -> airport record or not-found" *)
  airportByIdent : string -> option MapAirport.t;
  (* "Navaid/Waypoint lookup by identifier -> candidate list" *)
  navaidsByIdent : string -> list NavPoint.t;
  (* "Airway lookup by name and endpoint fix -> ordered list of fixes" *)
  airwayFixes : string -> NavPoint.t -> list NavPoint.t;
  (* "Procedure lookup by airport and name -> ordered list of legs" *)
  procedureLegs : MapAirport.t -> list string -> list NavPoint.t;
  (* "Coordinate-to-nearest-waypoint snap query (radius-bounded)" *)
  nearestWaypoint : Pos -> option NavPoint.t;
  (* the coordinate formats are those of the atools library *)
  coordinatesFromString : string -> option Pos
}.

(** ** The route description writer

    Modelled from the spec, section 4.1: the five steps of the writer. *)

Section Writer.
Context `{G : AtoolsGeo} `{E : rs.Enumerators}.

(** Modelled from the spec: a decimal digit of the cruise token of the
    writer ([routestringwriter.cpp] is missing). *)
Definition digitChar (d : Z) : ascii := ascii_of_N (48 + Z.to_N d).

(** Modelled from the spec: the decimal digits of a number of the cruise
    token of the writer ([routestringwriter.cpp] is missing), the most
    significant first. *)
Fixpoint digitsOf (fuel : nat) (n : Z) (acc : list ascii) : list ascii :=
  match fuel with
  | O => acc
  | S fuel' =>
      let acc' := digitChar (n mod 10) :: acc in
      if n <? 10 then acc' else digitsOf fuel' (n / 10) acc'
  end.

(** Modelled from the spec: a number of the cruise token of the writer
    ([routestringwriter.cpp] is missing) in decimal; a negative number is
    written as 0. *)
Definition numberChars (n : Z) : list ascii :=
  let n := Z.max 0 n in
  digitsOf (S (Z.to_nat (Z.log2 n))) n [].

(** Modelled from the spec: step 4 of the writer ([routestringwriter.cpp] is
    missing), the "N<speed>F<altitude>" token with the altitude as a flight
    level: speed 420 and altitude 35000 give N420F350. *)
Definition cruiseToken (speed altitude : Z) : string :=
  string_of_list_ascii
    ("N"%char :: numberChars speed ++ "F"%char :: numberChars (altitude / 100)).

(** Modelled from the spec: step 2 of the writer ([routestringwriter.cpp] is
    missing), first case: "SID/STAR emission is enabled"; the verbosity is
    "full names / generic / none". *)
Definition procedureEnabled (o : rs.RouteStringOptions) : bool :=
  (rs.has o rs.SID_STAR || rs.has o rs.SID_STAR_GENERIC)
  && negb (rs.has o rs.SID_STAR_NONE).

(** Modelled from the spec: step 2 of the writer ([routestringwriter.cpp] is
    missing), first case: the tokens of a procedure.  The names are joined
    by a dot unless [SID_STAR_SPACE] asks for a space, and a STAR is written
    with its transition first if [STAR_REV_TRANSITION] is set. *)
Definition procedureTokens (o : rs.RouteStringOptions) (p : ProcedureLeg)
  : list string :=
  if rs.has o rs.SID_STAR then
    let parts :=
      if String.eqb (transition p) "" then [procName p]
      else
        match procType p with
        | SID => [procName p; transition p]
        | STAR =>
            if rs.has o rs.STAR_REV_TRANSITION
            then [transition p; procName p]
            else [procName p; transition p]
        end in
    if rs.has o rs.SID_STAR_SPACE then parts else [String.concat "." parts]
  else
    [match procType p with SID => "SID" | STAR => "STAR" end].

(** Modelled from the spec: step 2 of the writer ([routestringwriter.cpp] is
    missing), second and third case: "<airway> <exit-fix-ident>", or the
    fix identifier with a DCT in front "if DCT is set and the previous token
    was a fix". *)
Definition fixTokens (o : rs.RouteStringOptions) (prevFix : bool) (leg : RouteLeg)
  : list string :=
  let direct :=
    (if rs.has o rs.DCT && prevFix then ["DCT"] else [])
    ++ [NavPoint.ident (legPoint leg)] in
  match legAirway leg with
  | Some name =>
      if rs.has o rs.NO_AIRWAYS then direct
      else [name; NavPoint.ident (legPoint leg)]
  | None => direct
  end.

(** Modelled from the spec: step 2 of the writer ([routestringwriter.cpp] is
    missing), the walk over the legs.  [prevFix] tells whether the previous
    token was a fix, [prevProc] is the procedure of the previous leg:
    "consecutive legs belonging to the same procedure are collapsed into one
    token group". *)
Fixpoint writeLegs (o : rs.RouteStringOptions) (prevFix : bool)
    (prevProc : option ProcedureLeg) (legs : list RouteLeg) : list string :=
  match legs with
  | [] => []
  | leg :: rest =>
      match legProcedure leg with
      | Some p =>
          if procedureEnabled o then
            (if decide (prevProc = Some p) then [] else procedureTokens o p)
            ++ writeLegs o false (Some p) rest
          else fixTokens o prevFix leg ++ writeLegs o true None rest
      | None => fixTokens o prevFix leg ++ writeLegs o true None rest
      end
  end.

(** Modelled from the spec: the identifier of the departure or destination
    airport, if the route has one; the writer ([routestringwriter.cpp] is missing)
    writes it in steps 1 and 3. *)
Definition airportTokens (a : option MapAirport.t) : list string :=
  match a with
  | Some a => [MapAirport.ident a]
  | None => []
  end.

(** Modelled from the spec: step 1 of the writer ([routestringwriter.cpp] is
    missing): "If START_AND_DEST set, emit the departure airport identifier
    as the first token". *)
Definition departureTokens (route : Route) (o : rs.RouteStringOptions)
  : list string :=
  if rs.has o rs.START_AND_DEST then airportTokens (routeDeparture route) else [].

(** Modelled from the spec: step 4 of the writer ([routestringwriter.cpp] is
    missing): "If ALT_AND_SPEED set, append a formatted cruise token
    immediately after the departure token". *)
Definition cruiseTokens (route : Route) (speed : Z) (o : rs.RouteStringOptions)
  : list string :=
  if rs.has o rs.ALT_AND_SPEED
  then [cruiseToken speed (routeCruisingAltitude route)] else [].

(** Modelled from the spec: step 2 of the writer ([routestringwriter.cpp] is
    missing): "Walk the ordered legs"; the token in front of the first leg
    is a fix if it is the departure airport. *)
Definition legTokens (route : Route) (speed : Z) (o : rs.RouteStringOptions)
  : list string :=
  let prevFix :=
    match departureTokens route o, cruiseTokens route speed o with
    | _ :: _, [] => true
    | _, _ => false
    end in
  writeLegs o prevFix None (routeLegs route).

(** Modelled from the spec: step 3 of the writer ([routestringwriter.cpp] is
    missing): "If START_AND_DEST set, emit destination airport identifier
    last". *)
Definition destinationTokens (route : Route) (o : rs.RouteStringOptions)
  : list string :=
  if rs.has o rs.START_AND_DEST then airportTokens (routeDestination route) else [].

(** Modelled from the spec: step 5 of the writer ([routestringwriter.cpp] is
    missing): "If ALTERNATES set, append each alternate airport identifier
    after the destination". *)
Definition alternateTokens (route : Route) (o : rs.RouteStringOptions)
  : list string :=
  if rs.has o rs.ALTERNATES
  then List.map MapAirport.ident (routeAlternates route) else [].

(** Modelled from the spec: the tokens of the writer ([routestringwriter.cpp]
    is missing), in the order of section 4.1. *)
Definition createStringListForRoute (route : Route) (speed : Z)
    (o : rs.RouteStringOptions) : list string :=
  departureTokens route o
  ++ cruiseTokens route speed o
  ++ legTokens route speed o
  ++ destinationTokens route o
  ++ alternateTokens route o.

(** Modelled from the spec: [RouteStringWriter::createStringForRoute]
    ([routestringwriter.cpp] is missing): "produce a single space-joined
    textual description". *)
Definition createStringForRoute (route : Route) (speed : Z)
    (o : rs.RouteStringOptions) : string :=
  join (createStringListForRoute route speed o).
End Writer.

(** ** The route description reader

    Modelled from the spec, section 4.2: a state machine over the cleaned
    tokens with the states EXPECT_START, EXPECT_BODY, EXPECT_END,
    EXPECT_ALTERNATES and DONE. *)

Section Reader.
Context `{G : AtoolsGeo} `{E : rs.Enumerators} `{P : PunctuationNoise}
        `{DB : !NavDatabase}.

(** Modelled from the spec: what the reader ([routestringreader.cpp] is
    missing) delivers: "a Flightplan and a diagnostics list; additionally
    the last parsed cruise speed if present, and whether altitude was
    explicitly included". *)
Record ReadResult := {
  flightplan : Flightplan;
  messages : list string;
  speedKts : option Z;
  altitudeIncluded : bool
}.

(** Modelled from the spec: the result of the reader
    ([routestringreader.cpp] is missing) with another flight plan. *)
Definition withFlightplan (r : ReadResult) (fp : Flightplan) : ReadResult :=
  {| flightplan := fp; messages := messages r; speedKts := speedKts r;
     altitudeIncluded := altitudeIncluded r |}.

(** Modelled from the spec: the flight plan of the reader
    ([routestringreader.cpp] is missing) with other entries. *)
Definition withEntries (fp : Flightplan) (es : list FlightplanEntry) : Flightplan :=
  {| entries := es; flightplanType := flightplanType fp;
     cruisingAltitude := cruisingAltitude fp; cruiseSpeed := cruiseSpeed fp;
     departure := departure fp; destination := destination fp;
     alternates := alternates fp |}.

(** Modelled from the spec: the reader ([routestringreader.cpp] is missing)
    appends an entry: "entries preserve insertion order". *)
Definition addEntry (r : ReadResult) (p : NavPoint.t) (aw : option string)
  : ReadResult :=
  withFlightplan r
    (withEntries (flightplan r)
       (entries (flightplan r) ++ [{| point := p; airway := aw; altitude := None |}])).

(** Modelled from the spec: the reader ([routestringreader.cpp] is missing)
    appends the fixes of a procedure. *)
Definition addEntries (r : ReadResult) (ps : list NavPoint.t) : ReadResult :=
  fold_left (fun r p => addEntry r p None) ps r.

(** Modelled from the spec: the reader ([routestringreader.cpp] is missing)
    appends a diagnostic: the list is "append-only". *)
Definition addMessage (r : ReadResult) (msg : string) : ReadResult :=
  {| flightplan := flightplan r; messages := messages r ++ [msg];
     speedKts := speedKts r; altitudeIncluded := altitudeIncluded r |}.

(** Modelled from the spec: the reader ([routestringreader.cpp] is missing)
    sets the departure airport of the plan. *)
Definition setDeparture (r : ReadResult) (a : MapAirport.t) : ReadResult :=
  let fp := flightplan r in
  withFlightplan r
    {| entries := entries fp; flightplanType := flightplanType fp;
       cruisingAltitude := cruisingAltitude fp; cruiseSpeed := cruiseSpeed fp;
       departure := Some a; destination := destination fp;
       alternates := alternates fp |}.

(** Modelled from the spec: the reader ([routestringreader.cpp] is missing)
    sets the destination airport of the plan. *)
Definition setDestination (r : ReadResult) (a : MapAirport.t) : ReadResult :=
  let fp := flightplan r in
  withFlightplan r
    {| entries := entries fp; flightplanType := flightplanType fp;
       cruisingAltitude := cruisingAltitude fp; cruiseSpeed := cruiseSpeed fp;
       departure := departure fp; destination := Some a;
       alternates := alternates fp |}.

(** Modelled from the spec: the reader ([routestringreader.cpp] is missing)
    appends an alternate to the "ordered list of alternates". *)
Definition addAlternate (r : ReadResult) (a : MapAirport.t) : ReadResult :=
  let fp := flightplan r in
  withFlightplan r
    {| entries := entries fp; flightplanType := flightplanType fp;
       cruisingAltitude := cruisingAltitude fp; cruiseSpeed := cruiseSpeed fp;
       departure := departure fp; destination := destination fp;
       alternates := alternates fp ++ [a] |}.

(** Modelled from the spec: the reader ([routestringreader.cpp] is missing)
    takes cruise speed and altitude from the text and notes that the
    altitude was included. *)
Definition setCruise (r : ReadResult) (speed alt : Z) : ReadResult :=
  let fp := flightplan r in
  {| flightplan :=
       {| entries := entries fp; flightplanType := flightplanType fp;
          cruisingAltitude := alt; cruiseSpeed := speed;
          departure := departure fp; destination := destination fp;
          alternates := alternates fp |};
     messages := messages r; speedKts := Some speed; altitudeIncluded := true |}.

(** Modelled from the spec: "the previous resolved point" of the reader
    ([routestringreader.cpp] is missing). *)
Definition lastPoint (r : ReadResult) : option NavPoint.t :=
  point <$> last (entries (flightplan r)).

(** *** Lookups *)

(** Modelled from the spec: the airport lookup of the reader
    ([routestringreader.cpp] is missing): "Airport lookup by identifier ->
    airport record or not-found". *)
Definition resolveAirport (token : string) : option MapAirport.t :=
  airportByIdent token.

(** Modelled from the spec: whether the airport lookup of the reader
    ([routestringreader.cpp] is missing) finds the token. *)
Definition isAirport (token : string) : bool :=
  match resolveAirport token with Some _ => true | None => false end.

(** Modelled from the spec: the navaid lookup of the reader
    ([routestringreader.cpp] is missing): "Navaid/Waypoint lookup by
    identifier -> candidate list". *)
Definition candidates (token : string) : list NavPoint.t :=
  navaidsByIdent token.

(** Modelled from the spec: the tie-break of the reader
    ([routestringreader.cpp] is missing): "preferring the match nearest to
    the previous resolved point ... minimum great-circle distance to
    predecessor; ties broken by database id ascending". *)
Definition distanceFrom (prev : option NavPoint.t) (p : NavPoint.t) : Z :=
  match prev with
  | Some q => Pos_distanceMeterTo (NavPoint.getPosition q) (NavPoint.getPosition p)
  | None => 0
  end.

(** Modelled from the spec: the tie-break of the reader
    ([routestringreader.cpp] is missing) between two candidates: the smaller
    distance, then the smaller database id. *)
Definition nearer (prev : option NavPoint.t) (best p : NavPoint.t) : NavPoint.t :=
  let db := distanceFrom prev best in
  let dp := distanceFrom prev p in
  if (dp <? db) || ((dp =? db) && (NavPoint.getId p <? NavPoint.getId best))
  then p else best.

(** Modelled from the spec: the tie-break of the reader
    ([routestringreader.cpp] is missing) among all candidates. *)
Definition nearest (prev : option NavPoint.t) (first : NavPoint.t)
    (others : list NavPoint.t) : NavPoint.t :=
  fold_left (nearer prev) others first.

(** Modelled from the spec: what rule (e) of the reader
    ([routestringreader.cpp] is missing) makes of an identifier: unresolved,
    resolved, or ambiguous and matched by distance. *)
Inductive Resolution :=
| Unresolved
| Unique (p : NavPoint.t)
| Ambiguous (p : NavPoint.t).

(** Modelled from the spec: rule (e) of the reader ([routestringreader.cpp]
    is missing): nothing found, exactly one candidate, or the nearest of
    several. *)
Definition resolveIdent (prev : option NavPoint.t) (token : string) : Resolution :=
  match candidates token with
  | [] => Unresolved
  | [p] => Unique p
  | p :: ps => Ambiguous (nearest prev p ps)
  end.

(** *** (a) instruction keywords *)

(** Modelled from the spec: rule (a) of the reader
    ([routestringreader.cpp] is missing): the digits at the front of a token. *)
Fixpoint takeDigits (cs : list ascii) : list ascii * list ascii :=
  match cs with
  | c :: cs' =>
      if isDigit c then let '(ds, rest) := takeDigits cs' in (c :: ds, rest)
      else ([], cs)
  | [] => ([], [])
  end.

(** Modelled from the spec: rule (a) of the reader
    ([routestringreader.cpp] is missing): the value of a digit. *)
Definition digitValue (c : ascii) : Z := Z.of_N (N_of_ascii c) - 48.

(** Modelled from the spec: rule (a) of the reader
    ([routestringreader.cpp] is missing): the value of a run of digits that
    is not empty. *)
Definition parseNumber (ds : list ascii) : option Z :=
  match ds with
  | [] => None
  | _ => Some (fold_left (fun acc c => 10 * acc + digitValue c) ds 0)
  end.

(** Modelled from the spec: rule (a) of the reader ([routestringreader.cpp]
    is missing), the "speed/altitude pattern N...F...": speed in knots and
    the altitude as a flight level. *)
Definition parseSpeedAlt (token : string) : option (Z * Z) :=
  match list_ascii_of_string token with
  | "N"%char :: cs =>
      let '(speed, rest) := takeDigits cs in
      match rest with
      | "F"%char :: cs' =>
          let '(level, rest') := takeDigits cs' in
          match rest', parseNumber speed, parseNumber level with
          | [], Some s, Some l => Some (s, l * 100)
          | _, _, _ => None
          end
      | _ => None
      end
  | _ => None
  end.

(** *** (b) airways *)

(** Modelled from the spec: rule (b) of the reader ([routestringreader.cpp]
    is missing): "known airway name where the previous resolved point has an
    onward airway segment and the next token resolves to a fix on that
    airway". *)
Definition airwayLeg (name : string) (prev : option NavPoint.t)
    (next : option string) : option NavPoint.t :=
  match prev, next with
  | Some p, Some n =>
      List.find (fun q => String.eqb (NavPoint.ident q) n) (airwayFixes name p)
  | _, _ => None
  end.

(** *** (c) procedures *)

(** Modelled from the spec: rule (c) of the reader
    ([routestringreader.cpp] is missing): the parts of a "dotted" name. *)
Fixpoint splitOn (sep : ascii) (cs : list ascii) : list (list ascii) :=
  match cs with
  | [] => [[]]
  | c :: cs' =>
      if Ascii.eqb c sep then [] :: splitOn sep cs'
      else
        match splitOn sep cs' with
        | part :: parts => (c :: part) :: parts
        | [] => [[c]]
        end
  end.

(** Modelled from the spec: rule (c) of the reader
    ([routestringreader.cpp] is missing): the parts of a "dotted" name. *)
Definition dottedParts (token : string) : list string :=
  List.map string_of_list_ascii (splitOn "."%char (list_ascii_of_string token)).

(** Modelled from the spec: rule (c) of the reader
    ([routestringreader.cpp] is missing): "the procedure's constituent fixes
    via the procedure-lookup collaborator"; none if there is no such
    procedure. *)
Definition procedureFixes (a : MapAirport.t) (parts : list string)
  : option (list NavPoint.t) :=
  match procedureLegs a parts with
  | [] => None
  | fixes => Some fixes
  end.

(** Modelled from the spec: rule (c) of the reader ([routestringreader.cpp]
    is missing), "adjacent to the departure": the departure airport, if it
    is the previous resolved point. *)
Definition atDeparture (r : ReadResult) : option MapAirport.t :=
  match departure (flightplan r), entries (flightplan r) with
  | Some a, [_] => Some a
  | _, _ => None
  end.

(** Modelled from the spec: rule (c) of the reader ([routestringreader.cpp]
    is missing), one way to read the token as a procedure name "when
    adjacent to the departure or destination airport": the name parts and
    the tokens that follow them. *)
Definition procedureOf (o : rs.RouteStringOptions) (dest : option MapAirport.t)
    (r : ReadResult) (parts : list string) (following : list string)
  : option (list NavPoint.t) :=
  match atDeparture r with
  | Some a => procedureFixes a parts
  | None =>
      match dest, following with
      | Some a, [] =>
          procedureFixes a
            (if rs.has o rs.STAR_REV_TRANSITION then rev parts else parts)
      | _, _ => None
      end
  end.

(** Modelled from the spec: rule (c) of the reader ([routestringreader.cpp]
    is missing): "SID/STAR/transition name (dotted or space-joined per
    options)". *)
Definition procedure (o : rs.RouteStringOptions) (dest : option MapAirport.t)
    (token : string) (rest : list string) (r : ReadResult)
  : option (list NavPoint.t * bool) :=
  let spaced :=
    match rest with
    | next :: rest' =>
        if rs.has o rs.SID_STAR_SPACE
        then procedureOf o dest r [token; next] rest' else None
    | [] => None
    end in
  match spaced with
  | Some fixes => Some (fixes, true)
  | None =>
      match procedureOf o dest r (dottedParts token) rest with
      | Some fixes => Some (fixes, false)
      | None => None
      end
  end.

(** *** (d) coordinates *)

(** Modelled from the spec: rule (d) of the reader ([routestringreader.cpp]
    is missing): "raw coordinate pair -> resolved to a literal position, or,
    if READ_MATCH_WAYPOINTS is set, snapped to the nearest waypoint". *)
Definition coordinate (o : rs.RouteStringOptions) (token : string)
  : option NavPoint.t :=
  match coordinatesFromString token with
  | Some pos =>
      let literal := NavPoint.Coordinate token pos in
      if rs.has o rs.READ_MATCH_WAYPOINTS then
        match nearestWaypoint pos with
        | Some w => Some w
        | None => Some literal
        end
      else Some literal
  | None => None
  end.

(** *** Diagnostics *)

(** Modelled from the spec: the diagnostic of the reader
    ([routestringreader.cpp] is missing) for an "unresolved token:
    identifier not found in any lookup table"; it names the token. *)
Definition unresolvedMessage (token : string) : string :=
  ("No navaid or waypoint found for " ++ token ++ ".")%string.

(** Modelled from the spec: the diagnostic of the reader
    ([routestringreader.cpp] is missing) for an "ambiguous token: multiple
    candidates found", which is "resolved via nearest-distance tie-break". *)
Definition ambiguousMessage (token : string) : string :=
  ("Several navaids found for " ++ token ++ ", taking the nearest one.")%string.

(** Modelled from the spec: the diagnostic of the reader
    ([routestringreader.cpp] is missing) in EXPECT_START: the first token
    does not resolve to an airport. *)
Definition departureMessage (token : string) : string :=
  ("No departure airport found for " ++ token ++ ".")%string.

(** Modelled from the spec: the diagnostic of the reader
    ([routestringreader.cpp] is missing) in EXPECT_ALTERNATES: "first
    failure ends the alternates scan and treats the remainder as an
    error". *)
Definition alternatesMessage (tokens : list string) : string :=
  ("No alternate airport found for " ++ join tokens ++ ".")%string.

(** *** EXPECT_BODY *)

(** Modelled from the spec: EXPECT_BODY of the reader
    ([routestringreader.cpp] is missing): one token of the body, classified
    "in order of precedence".  The second component tells whether the token
    after it was consumed as well. *)
Definition bodyItem (o : rs.RouteStringOptions) (dest : option MapAirport.t)
    (token : string) (rest : list string) (r : ReadResult) : ReadResult * bool :=
  if String.eqb token "DCT" then (r, false)
  else
    match parseSpeedAlt token with
    | Some (speed, alt) => (setCruise r speed alt, false)
    | None =>
    match airwayLeg token (lastPoint r) (head rest) with
    | Some q => (addEntry r q (Some token), true)
    | None =>
    match procedure o dest token rest r with
    | Some (fixes, consumed) => (addEntries r fixes, consumed)
    | None =>
    match coordinate o token with
    | Some p => (addEntry r p None, false)
    | None =>
    match resolveIdent (lastPoint r) token with
    | Unique p => (addEntry r p None, false)
    | Ambiguous p => (addMessage (addEntry r p None) (ambiguousMessage token), false)
    | Unresolved => (addMessage r (unresolvedMessage token), false)
    end end end end end.

(** Modelled from the spec: EXPECT_BODY of the reader
    ([routestringreader.cpp] is missing): the tokens of the body one after
    the other; "unresolvable tokens generate a diagnostic and are skipped
    (do not abort parsing)". *)
Fixpoint readBody (o : rs.RouteStringOptions) (dest : option MapAirport.t)
    (tokens : list string) (r : ReadResult) : ReadResult :=
  match tokens with
  | [] => r
  | token :: rest =>
      let '(r', consumed) := bodyItem o dest token rest r in
      match rest with
      | _ :: rest' =>
          if consumed then readBody o dest rest' r' else readBody o dest rest r'
      | [] => r'
      end
  end.

(** *** EXPECT_START *)

(** Modelled from the spec: EXPECT_START of the reader
    ([routestringreader.cpp] is missing): "unless READ_NO_AIRPORTS is set,
    the first token must resolve to an airport; on failure, record a
    diagnostic and treat the token as a body item instead".  The second
    component tells whether the token is left to the body. *)
Definition readStart (o : rs.RouteStringOptions) (token : string) (r : ReadResult)
  : ReadResult * bool :=
  if rs.has o rs.READ_NO_AIRPORTS then (r, true)
  else
    match resolveAirport token with
    | Some a => (setDeparture (addEntry r (NavPoint.Airport a) None) a, false)
    | None => (addMessage r (departureMessage token), true)
    end.

(** *** EXPECT_END *)

(** Modelled from the spec: EXPECT_END of the reader
    ([routestringreader.cpp] is missing): "last non-alternate token must
    resolve to the destination airport unless READ_NO_AIRPORTS is set".
    The destination that the token stands for, if it does. *)
Definition destinationOf (o : rs.RouteStringOptions) (token : option string)
  : option MapAirport.t :=
  if rs.has o rs.READ_NO_AIRPORTS then None else token ≫= resolveAirport.

(** Modelled from the spec: EXPECT_END of the reader
    ([routestringreader.cpp] is missing): the destination airport ends the
    entries and becomes the destination of the plan. *)
Definition readEnd (dest : option MapAirport.t) (r : ReadResult) : ReadResult :=
  match dest with
  | Some a => setDestination (addEntry r (NavPoint.Airport a) None) a
  | None => r
  end.

(** *** EXPECT_ALTERNATES *)

(** Modelled from the spec: EXPECT_ALTERNATES of the reader
    ([routestringreader.cpp] is missing): "remaining trailing tokens are
    each resolved as airports and appended to the alternates list; first
    failure ends the alternates scan and treats the remainder as an
    error". *)
Fixpoint readAlternates (tokens : list string) (r : ReadResult) : ReadResult :=
  match tokens with
  | [] => r
  | token :: rest =>
      match resolveAirport token with
      | Some a => readAlternates rest (addAlternate r a)
      | None => addMessage r (alternatesMessage (token :: rest))
      end
  end.

(** Modelled from the spec: the "trailing airports" of the reader
    ([routestringreader.cpp] is missing): the longest run of tokens at the
    end that all satisfy [p], and what is in front of it. *)
Fixpoint splitTrailing (p : string -> bool) (tokens : list string)
  : list string * list string :=
  match tokens with
  | [] => ([], [])
  | token :: rest =>
      let '(front, run) := splitTrailing p rest in
      match front with
      | [] => if p token then ([], token :: run) else ([token], run)
      | _ => (token :: front, run)
      end
  end.

(** Modelled from the spec: the "last non-alternate token" of the reader
    ([routestringreader.cpp] is missing) and what is in front of it. *)
Definition splitLast (tokens : list string) : list string * option string :=
  match rev tokens with
  | [] => ([], None)
  | l :: front => (rev front, Some l)
  end.

(** Modelled from the spec: how the reader ([routestringreader.cpp] is
    missing) divides the tokens after the first one into the body, the
    token of the destination and the alternates.  With [READ_ALTERNATES]
    the "list of airports at the end" gives the destination and the
    alternates; otherwise, and if there is no airport at the end, the last
    token is the token of the destination. *)
Definition sections (o : rs.RouteStringOptions) (tokens : list string)
  : list string * option string * list string :=
  let '(front, run) :=
    if rs.has o rs.READ_ALTERNATES then splitTrailing isAirport tokens
    else (tokens, []) in
  match run with
  | dest :: alts => (front, Some dest, alts)
  | [] => let '(body, dest) := splitLast front in (body, dest, [])
  end.

(** Modelled from the spec: the last token of the reader
    ([routestringreader.cpp] is missing) as a list of tokens. *)
Definition optionTokens (token : option string) : list string :=
  match token with Some t => [t] | None => [] end.

(** Modelled from the spec: the tokens that the reader
    ([routestringreader.cpp] is missing) reads in EXPECT_BODY: the first
    token if EXPECT_START left it, the tokens of the body, and the last
    token unless it is the destination airport (section 8: "KJFK DCT ALB"
    gives the airport KJFK and the navaid ALB and "zero diagnostics"). *)
Definition bodyStream (first : string) (firstToBody : bool) (body : list string)
    (endToken : option string) (dest : option MapAirport.t) : list string :=
  (if firstToBody then [first] else [])
  ++ body
  ++ match dest with Some _ => [] | None => optionTokens endToken end.

(** Modelled from the spec: the state machine of the reader
    ([routestringreader.cpp] is missing) over the cleaned tokens:
    EXPECT_START, EXPECT_BODY, EXPECT_END, EXPECT_ALTERNATES, DONE. *)
Definition readTokens (o : rs.RouteStringOptions) (tokens : list string)
    (r : ReadResult) : ReadResult :=
  match tokens with
  | [] => r
  | first :: rest =>
      let '(body, endToken, alts) := sections o rest in
      (* EXPECT_START *)
      let '(r1, firstToBody) := readStart o first r in
      (* EXPECT_BODY *)
      let dest := destinationOf o endToken in
      let r2 := readBody o dest (bodyStream first firstToBody body endToken dest) r1 in
      (* EXPECT_END *)
      let r3 := readEnd dest r2 in
      (* EXPECT_ALTERNATES *)
      readAlternates alts r3
  end.

(** Modelled from the spec: [RouteStringReader::createRouteFromString]
    ([routestringreader.cpp] is missing): the reader cleans the text and
    fills the flight plan that it is handed. *)
Definition createRouteFromString (text : string) (o : rs.RouteStringOptions)
    (fp : Flightplan) : ReadResult :=
  readTokens o (cleanRouteString text)
    {| flightplan := fp; messages := []; speedKts := None;
       altitudeIncluded := false |}.

(** Modelled from the spec: "readRoute(text, options) -> (flightplan,
    diagnostics, speed, altitudeIncludedFlag)" ([routestringreader.cpp] is
    missing). *)
Definition readRoute (text : string) (o : rs.RouteStringOptions) : ReadResult :=
  createRouteFromString text o emptyFlightplan.
End Reader.

(** ** [RouteStringDialog]

    The members of the dialog that the options and the reading of the text
    involve.  The flight plan is the one object that the constructor
    creates with [new apln::Flightplan]; [getFlightplan] hands out a
    reference to it. *)

Module RouteStringDialog.
Section Defs.
Context `{G : AtoolsGeo}.

Record t := {
  options : rs.RouteStringOptions;
  updatingActions : bool;
  menu : QMenu;                          (* toolButtonRouteStringOptions *)
  plainTextEditRouteString : string;
  textEditRouteStringErrors : list string;
  flightplan : Flightplan;
  speedKts : Z;
  altitudeIncluded : bool
}.
End Defs.
End RouteStringDialog.

Section Dialog.
Context `{G : AtoolsGeo} `{E : rs.Enumerators} `{P : PunctuationNoise}
        `{DB : !NavDatabase} `{C : Constants}.

Definition withOptions (d : RouteStringDialog.t) (o : rs.RouteStringOptions)
  : RouteStringDialog.t :=
  {| RouteStringDialog.options := o;
     RouteStringDialog.updatingActions := RouteStringDialog.updatingActions d;
     RouteStringDialog.menu := RouteStringDialog.menu d;
     RouteStringDialog.plainTextEditRouteString :=
       RouteStringDialog.plainTextEditRouteString d;
     RouteStringDialog.textEditRouteStringErrors :=
       RouteStringDialog.textEditRouteStringErrors d;
     RouteStringDialog.flightplan := RouteStringDialog.flightplan d;
     RouteStringDialog.speedKts := RouteStringDialog.speedKts d;
     RouteStringDialog.altitudeIncluded := RouteStringDialog.altitudeIncluded d |}.

Definition withPlainText (d : RouteStringDialog.t) (text : string)
  : RouteStringDialog.t :=
  {| RouteStringDialog.options := RouteStringDialog.options d;
     RouteStringDialog.updatingActions := RouteStringDialog.updatingActions d;
     RouteStringDialog.menu := RouteStringDialog.menu d;
     RouteStringDialog.plainTextEditRouteString := text;
     RouteStringDialog.textEditRouteStringErrors :=
       RouteStringDialog.textEditRouteStringErrors d;
     RouteStringDialog.flightplan := RouteStringDialog.flightplan d;
     RouteStringDialog.speedKts := RouteStringDialog.speedKts d;
     RouteStringDialog.altitudeIncluded := RouteStringDialog.altitudeIncluded d |}.

(** The dialog with another content of its flight plan object. *)
Definition withPlan (d : RouteStringDialog.t) (fp : Flightplan)
  : RouteStringDialog.t :=
  {| RouteStringDialog.options := RouteStringDialog.options d;
     RouteStringDialog.updatingActions := RouteStringDialog.updatingActions d;
     RouteStringDialog.menu := RouteStringDialog.menu d;
     RouteStringDialog.plainTextEditRouteString :=
       RouteStringDialog.plainTextEditRouteString d;
     RouteStringDialog.textEditRouteStringErrors :=
       RouteStringDialog.textEditRouteStringErrors d;
     RouteStringDialog.flightplan := fp;
     RouteStringDialog.speedKts := RouteStringDialog.speedKts d;
     RouteStringDialog.altitudeIncluded := RouteStringDialog.altitudeIncluded d |}.

(** [updateButtonState]: "Copy option flags to dropdown menu items",
    with [updatingActions] set during the loop and cleared after it.  The
    buttons that the function enables and disables are left out. *)
Definition updateButtonState (d : RouteStringDialog.t) : RouteStringDialog.t :=
  {| RouteStringDialog.options := RouteStringDialog.options d;
     RouteStringDialog.updatingActions := false;
     RouteStringDialog.menu :=
       copyOptionsToMenu (RouteStringDialog.options d) (RouteStringDialog.menu d);
     RouteStringDialog.plainTextEditRouteString :=
       RouteStringDialog.plainTextEditRouteString d;
     RouteStringDialog.textEditRouteStringErrors :=
       RouteStringDialog.textEditRouteStringErrors d;
     RouteStringDialog.flightplan := RouteStringDialog.flightplan d;
     RouteStringDialog.speedKts := RouteStringDialog.speedKts d;
     RouteStringDialog.altitudeIncluded := RouteStringDialog.altitudeIncluded d |}.

(** [textChangedDelayed]: clear the flight plan, read the text into it
    with [options | rs::REPORT], show the messages, update the buttons. *)
Definition textChangedDelayed (d : RouteStringDialog.t) : RouteStringDialog.t :=
  let cleared := clear (RouteStringDialog.flightplan d) in
  let r :=
    createRouteFromString (RouteStringDialog.plainTextEditRouteString d)
      (rs.or (RouteStringDialog.options d) (rs.value rs.REPORT)) cleared in
  updateButtonState
    {| RouteStringDialog.options := RouteStringDialog.options d;
       RouteStringDialog.updatingActions := RouteStringDialog.updatingActions d;
       RouteStringDialog.menu := RouteStringDialog.menu d;
       RouteStringDialog.plainTextEditRouteString :=
         RouteStringDialog.plainTextEditRouteString d;
       RouteStringDialog.textEditRouteStringErrors :=
         List.map (fun err => (err ++ "<br/>")%string) (messages r);
       RouteStringDialog.flightplan := flightplan r;
       RouteStringDialog.speedKts :=
         match speedKts r with
         | Some speed => speed
         | None => RouteStringDialog.speedKts d
         end;
       RouteStringDialog.altitudeIncluded := altitudeIncluded r |}.

(** [toolButtonOptionTriggered]: "Copy menu state for options bitfield",
    unless the actions are being updated. *)
Definition toolButtonOptionTriggered (d : RouteStringDialog.t)
  : RouteStringDialog.t :=
  if RouteStringDialog.updatingActions d then d
  else
    textChangedDelayed
      (withOptions d
         (copyMenuState (RouteStringDialog.menu d) (RouteStringDialog.options d))).

(** [fromClipboardClicked] *)
Definition fromClipboardClicked (clipboard : string) (d : RouteStringDialog.t)
  : RouteStringDialog.t :=
  textChangedDelayed (withPlainText d (join (cleanRouteString clipboard))).

(** [updateButtonClicked] *)
Definition updateButtonClicked (route : Route) (cruiseSpeedKts : Z)
    (d : RouteStringDialog.t) : RouteStringDialog.t :=
  textChangedDelayed
    (withPlainText d
       (createStringForRoute route cruiseSpeedKts (RouteStringDialog.options d))).

(** [restoreState]: the options come from the settings, the menu follows
    them, and the text is the description given to the dialog or, if that
    is empty, the description of the current route. *)
Definition restoreState (routeString : string) (route : Route)
    (cruiseSpeedKts : Z) (s : gmap string QVariant) (d : RouteStringDialog.t)
  : RouteStringDialog.t :=
  let d' := updateButtonState (withOptions d (getOptionsFromSettings s)) in
  withPlainText d'
    (if String.eqb routeString ""
     then createStringForRoute route cruiseSpeedKts (RouteStringDialog.options d')
     else routeString).

(** [getFlightplan] *)
Definition getFlightplan (d : RouteStringDialog.t) : Flightplan :=
  RouteStringDialog.flightplan d.

(** [updateFlightplan]: the type follows the combo box. *)
Definition updateFlightplan (currentIndex : Z) (d : RouteStringDialog.t)
  : RouteStringDialog.t :=
  withPlan d
    (setFlightplanType (if currentIndex =? 0 then IFR else VFR)
                       (RouteStringDialog.flightplan d)).
End Dialog.
(** ** Vocabulary for statements about the reader and the writer

    The notions below are stated on the navigation database and on the
    text, not on what the reader makes of a token. *)

Section Resolvable.
Context `{G : AtoolsGeo} `{E : rs.Enumerators} `{P : PunctuationNoise}
        `{DB : !NavDatabase}.

(** The flags that concern procedures. *)
Definition procedureFlags : list rs.RouteStringOption :=
  [rs.SID_STAR; rs.SID_STAR_GENERIC; rs.SID_STAR_NONE;
   rs.STAR_REV_TRANSITION; rs.SID_STAR_SPACE].

Definition includes (o : rs.RouteStringOptions) (flags : list rs.RouteStringOption)
  : bool :=
  forallb (rs.has o) flags.

Definition excludes (o : rs.RouteStringOptions) (flags : list rs.RouteStringOption)
  : bool :=
  forallb (fun f => negb (rs.has o f)) flags.

(** The token is none of the instruction keywords of rule (a). *)
Definition notInstruction (token : string) : Prop :=
  String.eqb token "DCT" = false /\ parseSpeedAlt token = None.

(** *** Tokens and the tables of the database *)

(** No airway has the name, and no fix of an airway has it. *)
Definition noAirway (t : string) : Prop :=
  (forall p, airwayFixes t p = []) /\
  (forall name p q, q ∈ airwayFixes name p -> NavPoint.ident q <> t).

(** The token is no part of the name of a procedure, neither on its own
    nor together with the token beside it. *)
Definition noProcedurePart (t : string) : Prop :=
  (forall a parts, t ∈ parts -> procedureLegs a parts = []) /\
  (forall a, procedureLegs a (dottedParts t) = [] /\
             procedureLegs a (rev (dottedParts t)) = []).

(** A plain name: no instruction, and at most the navaid lookup knows
    it. *)
Definition plainName (t : string) : Prop :=
  notInstruction t /\ airportByIdent t = None /\ noAirway t /\
  noProcedurePart t /\ coordinatesFromString t = None.

(** "Unresolved token: identifier not found in any lookup table". *)
Definition unresolvedToken (t : string) : Prop :=
  plainName t /\ navaidsByIdent t = [].

(** "Ambiguous token: multiple candidates found". *)
Definition ambiguousToken (t : string) : Prop :=
  plainName t /\ (1 < length (navaidsByIdent t))%nat.

(** No record that a lookup delivers bears the name. *)
Definition noRecordNamed (t : string) : Prop :=
  (forall x a, airportByIdent x = Some a -> MapAirport.ident a <> t) /\
  (forall x p, p ∈ navaidsByIdent x -> NavPoint.ident p <> t) /\
  (forall name p q, q ∈ airwayFixes name p -> NavPoint.ident q <> t) /\
  (forall a parts p, p ∈ procedureLegs a parts -> NavPoint.ident p <> t) /\
  (forall pos w, nearestWaypoint pos = Some w -> NavPoint.ident w <> t).

(** Every record that a lookup delivers satisfies the invariant of the
    data model: "a resolved reference always has a valid position". *)
Definition validRecords : Prop :=
  (forall x a, airportByIdent x = Some a -> MapAirport.isValid a = true) /\
  (forall x p, p ∈ navaidsByIdent x -> NavPoint.isValid p = true) /\
  (forall name p q, q ∈ airwayFixes name p -> NavPoint.isValid q = true) /\
  (forall a parts p, p ∈ procedureLegs a parts -> NavPoint.isValid p = true) /\
  (forall pos w, nearestWaypoint pos = Some w -> NavPoint.isValid w = true) /\
  (forall x pos, coordinatesFromString x = Some pos -> Pos_isValid pos = true).

(** *** The tie-break among candidates *)

(** [p] comes before [q]: it is nearer to the previous point, or as near
    and has the lower id. *)
Definition nearerThan (prev : option NavPoint.t) (p q : NavPoint.t) : Prop :=
  distanceFrom prev p < distanceFrom prev q \/
  (distanceFrom prev p = distanceFrom prev q /\ NavPoint.getId p < NavPoint.getId q).

Definition notFarther (prev : option NavPoint.t) (p q : NavPoint.t) : Prop :=
  distanceFrom prev p < distanceFrom prev q \/
  (distanceFrom prev p = distanceFrom prev q /\ NavPoint.getId p <= NavPoint.getId q).

(** *** Where an entry of a plan comes from *)

(** An entry that follows the point [prev] is justified by the text: it
    is the airport that the lookup delivers for a token; or a navaid that
    the lookup delivers for a token, and of these the one that the
    tie-break puts first; or a fix of the airway that a token names,
    taken from the previous point; or a fix of a procedure; or the
    position that a token gives, or the waypoint next to it. *)
Definition justified (tokens : list string) (prev : option NavPoint.t)
    (e : FlightplanEntry) : Prop :=
  (exists t a, t ∈ tokens /\ airportByIdent t = Some a /\
               point e = NavPoint.Airport a /\ airway e = None)
  \/ (exists t, t ∈ tokens /\ point e ∈ navaidsByIdent t /\ airway e = None /\
                forall q, q ∈ navaidsByIdent t -> notFarther prev (point e) q)
  \/ (exists name from, name ∈ tokens /\ prev = Some from /\
                        point e ∈ airwayFixes name from /\
                        NavPoint.ident (point e) ∈ tokens /\ airway e = Some name)
  \/ (exists a parts, point e ∈ procedureLegs a parts /\ airway e = None)
  \/ (exists t pos, t ∈ tokens /\ coordinatesFromString t = Some pos /\
                    airway e = None /\
                    (point e = NavPoint.Coordinate t pos \/
                     nearestWaypoint pos = Some (point e))).

(** Every entry of the list is justified with respect to the entry before
    it, the first one with respect to [prev]. *)
Fixpoint justifiedFrom (tokens : list string) (prev : option NavPoint.t)
    (es : list FlightplanEntry) : Prop :=
  match es with
  | [] => True
  | e :: es' => justified tokens prev e /\ justifiedFrom tokens (Some (point e)) es'
  end.

(** *** What a result holds *)

(** How often a diagnostic stands in the messages of a result. *)
Definition countOf (msg : string) (r : ReadResult) : nat :=
  count_occ string_dec (messages r) msg.

(** The entries of a result are justified, each one with respect to the
    one before it. *)
Definition justifiedPlan (tokens : list string) (r : ReadResult) : Prop :=
  justifiedFrom tokens None (entries (flightplan r)).

(** *** Routes that the reader can find again *)

(** The lookup finds the airport under its identifier. *)
Definition airportFound (a : MapAirport.t) : Prop :=
  cleanToken (MapAirport.ident a) = true /\
  airportByIdent (MapAirport.ident a) = Some a.

Fixpoint airportsFound (airports : list MapAirport.t) : Prop :=
  match airports with
  | [] => True
  | a :: rest => airportFound a /\ airportsFound rest
  end.

(** The navaid lookup finds the point under its identifier, and the
    tie-break after [prev] puts it before every other candidate. *)
Definition navaidFound (prev p : NavPoint.t) : Prop :=
  p ∈ navaidsByIdent (NavPoint.ident p) /\
  forall q, q ∈ navaidsByIdent (NavPoint.ident p) ->
            q = p \/ nearerThan (Some prev) p q.

(** The point is the first fix of its name on the airway from [prev]. *)
Definition airwayExit (name : string) (prev p : NavPoint.t) : Prop :=
  exists before after,
    airwayFixes name prev = (before ++ p :: after)%list /\
    Forall (fun q => NavPoint.ident q <> NavPoint.ident p) before.

(** Legs without procedures whose points the database holds: the point
    of a leg along an airway is a fix of that airway from the point before
    it; the point of any other leg is a navaid or waypoint whose name is
    no instruction, no airway from the point before it, no procedure of
    the two airports and no coordinate. *)
Fixpoint legsResolvable (dep dest : MapAirport.t) (prev : NavPoint.t)
    (legs : list RouteLeg) : Prop :=
  match legs with
  | [] => True
  | leg :: rest =>
      let p := legPoint leg in
      let token := NavPoint.ident p in
      legProcedure leg = None /\
      cleanToken token = true /\
      match legAirway leg with
      | Some name =>
          cleanToken name = true /\ notInstruction name /\ airwayExit name prev p
      | None =>
          notInstruction token /\ airwayFixes token prev = [] /\
          procedureLegs dep (dottedParts token) = [] /\
          procedureLegs dest (dottedParts token) = [] /\
          coordinatesFromString token = None /\
          navaidFound prev p
      end /\
      legsResolvable dep dest p rest
  end.

(** A route "containing only resolvable airports, waypoints and airways
    with no procedures": it leads from a departure airport to a
    destination airport, and the database holds each of its elements
    under the identifier that the writer writes. *)
Definition resolvable (route : Route) : Prop :=
  match routeDeparture route, routeDestination route with
  | Some dep, Some dest =>
      airportFound dep /\ airportFound dest /\
      legsResolvable dep dest (NavPoint.Airport dep) (routeLegs route) /\
      airportsFound (routeAlternates route)
  | _, _ => False
  end.

(** Where the reader takes the airports at the end of the text for the
    destination and the alternates, the token in front of the destination
    names no airport. *)
Definition endsClear (o : rs.RouteStringOptions) (speed : Z) (route : Route) : Prop :=
  rs.has o rs.READ_ALTERNATES = true ->
  match last (routeLegs route) with
  | Some leg => airportByIdent (NavPoint.ident (legPoint leg)) = None
  | None =>
      rs.has o rs.ALT_AND_SPEED = true ->
      airportByIdent (cruiseToken speed (routeCruisingAltitude route)) = None
  end.

(** If the alternates are written, they are read as alternates. *)
Definition alternatesReadable (o : rs.RouteStringOptions) (route : Route) : bool :=
  match routeAlternates route with
  | [] => true
  | _ => implb (rs.has o rs.ALTERNATES) (rs.has o rs.READ_ALTERNATES)
  end.

(** The entries that a route stands for. *)
Definition legEntry (leg : RouteLeg) : FlightplanEntry :=
  {| point := legPoint leg; airway := legAirway leg; altitude := None |}.

Definition airportEntry (a : MapAirport.t) : FlightplanEntry :=
  {| point := NavPoint.Airport a; airway := None; altitude := None |}.

(** The plan with the entries of some legs appended. *)
Definition planWith (fp : Flightplan) (legs : list RouteLeg) : Flightplan :=
  withEntries fp (entries fp ++ List.map legEntry legs).
End Resolvable.

(** ** A small world to evaluate the reader and the writer in

    Positions are pairs of whole degrees, valid within the usual bounds;
    the distance is taken along the axes. *)

Definition sampleGeo : AtoolsGeo :=
  {| float := Z;
     Pos := Z * Z;
     Pos_isValid p := (Z.abs (fst p) <=? 90) && (Z.abs (snd p) <=? 180);
     Pos_distanceMeterTo p q := Z.abs (fst p - fst q) + Z.abs (snd p - snd q);
     Rect := (Z * Z) * (Z * Z);
     Rect_getCenter r := fst r;
     LineString := list (Z * Z);
     LineString_isEmpty l := match l with [] => true | _ => false end |}.

(** Everything but letters, digits, the dot and the slash is noise. *)
Definition sampleNoise : PunctuationNoise :=
  {| isNoise c := negb (Ascii.eqb c "."%char || Ascii.eqb c "/"%char) |}.

Section Samples.
Existing Instance sampleGeo.
Existing Instance sampleEnumerators.
Existing Instance sampleNoise.

Definition sampleAirport (ident : string) (id : Z) (pos : Z * Z) : MapAirport.t :=
  {| MapAirport.ident := ident; MapAirport.name := ident; MapAirport.id := id;
     MapAirport.longestRunwayLength := 0; MapAirport.longestRunwayHeading := 0;
     MapAirport.flags := 0; MapAirport.magvar := 0;
     MapAirport.towerFrequency := 0; MapAirport.atisFrequency := 0;
     MapAirport.awosFrequency := 0; MapAirport.asosFrequency := 0;
     MapAirport.unicomFrequency := 0; MapAirport.position := pos;
     MapAirport.towerCoords := pos; MapAirport.bounding := (pos, pos);
     MapAirport.routeIndex := -1 |}.

Definition sampleVor (ident : string) (id : Z) (pos : Z * Z) : NavPoint.t :=
  NavPoint.Vor
    {| MapVor.ident := ident; MapVor.region := "K6"; MapVor.type := "HIGH";
       MapVor.name := ident; MapVor.id := id; MapVor.magvar := 0;
       MapVor.frequency := 0; MapVor.range := 0; MapVor.position := pos;
       MapVor.routeIndex := -1; MapVor.dmeOnly := false; MapVor.hasDme := true |}.

Definition sampleWaypoint (ident : string) (id : Z) (pos : Z * Z) : NavPoint.t :=
  NavPoint.Waypoint
    {| MapWaypoint.id := id; MapWaypoint.magvar := 0; MapWaypoint.ident := ident;
       MapWaypoint.region := "K6"; MapWaypoint.type := "NAMED";
       MapWaypoint.position := pos; MapWaypoint.routeIndex := -1;
       MapWaypoint.hasVictorAirways := false; MapWaypoint.hasJetAirways := true |}.

Definition KJFK := sampleAirport "KJFK" 1 (40, -73).
Definition KBOS := sampleAirport "KBOS" 2 (42, -71).
Definition KPVD := sampleAirport "KPVD" 3 (41, -71).
Definition airportALB := sampleAirport "ALB" 4 (42, -73).
Definition ALB := sampleVor "ALB" 10 (42, -73).
Definition BOS := sampleVor "BOS" 11 (42, -70).
Definition ABC_near := sampleWaypoint "ABC" 21 (41, -73).
Definition ABC_far := sampleWaypoint "ABC" 20 (10, 10).

Definition sampleDatabase : NavDatabase :=
  {| airportByIdent ident :=
       List.find (fun a => String.eqb (MapAirport.ident a) ident)
                 [KJFK; KBOS; KPVD; airportALB];
     navaidsByIdent ident :=
       List.filter (fun p => String.eqb (NavPoint.ident p) ident)
                   [ALB; BOS; ABC_far; ABC_near];
     airwayFixes name from :=
       if String.eqb name "J121" && String.eqb (NavPoint.ident from) "ALB"
       then [BOS] else [];
     procedureLegs _ _ := [];
     nearestWaypoint _ := None;
     coordinatesFromString _ := None |}.

(** A navaid as a database may hold it, with a position that is none. *)
Definition XRAY := sampleVor "XRAY" 30 (1000, 0).

(** The same database with this navaid in its table. *)
Definition strayDatabase : NavDatabase :=
  {| airportByIdent ident :=
       List.find (fun a => String.eqb (MapAirport.ident a) ident)
                 [KJFK; KBOS; KPVD; airportALB];
     navaidsByIdent ident :=
       List.filter (fun p => String.eqb (NavPoint.ident p) ident)
                   [ALB; BOS; ABC_far; ABC_near; XRAY];
     airwayFixes name from :=
       if String.eqb name "J121" && String.eqb (NavPoint.ident from) "ALB"
       then [BOS] else [];
     procedureLegs _ _ := [];
     nearestWaypoint _ := None;
     coordinatesFromString _ := None |}.

Definition sampleOptions (flags : list rs.RouteStringOption) : rs.RouteStringOptions :=
  fold_right (fun f o => rs.or (rs.value f) o) 0 flags.

Definition sampleLeg (p : NavPoint.t) (aw : option string) : RouteLeg :=
  {| legPoint := p; legAirway := aw; legProcedure := None |}.

Definition sampleRoute (dep : MapAirport.t) (legs : list RouteLeg)
    (dest : MapAirport.t) (alts : list MapAirport.t) : Route :=
  {| routeDeparture := Some dep; routeLegs := legs; routeDestination := Some dest;
     routeAlternates := alts; routeCruisingAltitude := 35000 |}.

(** From New York to Boston over the Albany VOR and along J121. *)
Definition sampleLegs : list RouteLeg :=
  [sampleLeg ALB None; sampleLeg BOS (Some "J121")].

Existing Instance sampleDatabase.

(** START_AND_DEST and DCT. *)
Definition directOptions : rs.RouteStringOptions :=
  sampleOptions [rs.START_AND_DEST; rs.DCT].

(** The menu of a database with SID and STAR, with "Write DCT" and "Write
    Alternates" checked. *)
Definition sampleCheckedMenu : QMenu :=
  setChecked (setChecked (buildMenu true) 1 true) 4 true.

(** A dialog over the menu of a database with SID and STAR. *)
Definition sampleDialog (o : rs.RouteStringOptions) (text : string)
    (stale : Flightplan) : RouteStringDialog.t :=
  {| RouteStringDialog.options := o;
     RouteStringDialog.updatingActions := false;
     RouteStringDialog.menu := buildMenu true;
     RouteStringDialog.plainTextEditRouteString := text;
     RouteStringDialog.textEditRouteStringErrors := [];
     RouteStringDialog.flightplan := stale;
     RouteStringDialog.speedKts := 0;
     RouteStringDialog.altitudeIncluded := false |}.

(** A plan left over from an earlier read. *)
Definition stalePlan : Flightplan :=
  {| entries := [airportEntry KPVD]; flightplanType := VFR;
     cruisingAltitude := 5000; cruiseSpeed := 100;
     departure := Some KPVD; destination := None; alternates := [KBOS] |}.
End Samples.

(** ** The flag enumerations of [common/maptypes.h]

    [MapObjectTypes] and [MapAirportFlags] are [QFlags] over the
    enumerations below; [Q_DECLARE_OPERATORS_FOR_FLAGS] gives them the bit
    operations.  The enumerator [0xffffffff] of both enumerations is taken
    at its unsigned value; read as a signed [int] it is -1, which has the
    same bits below bit 32. *)

(** The union of some flag values, as [operator|] builds it. *)
Definition unionOf (values : list Z) : Z := fold_right Z.lor 0 values.

(** [flags & flag], converted to [bool]. *)
Definition testFlags (flags flag : Z) : bool := negb (Z.land flags flag =? 0).

Module MapObjectType.

Inductive t :=
| NONE
| AIRPORT | AIRPORT_HARD | AIRPORT_SOFT | AIRPORT_EMPTY | AIRPORT_ADDON
| VOR | NDB | ILS | MARKER | WAYPOINT
| AIRWAY | AIRWAYV | AIRWAYJ
| FLIGHTPLAN | AIRCRAFT | AIRCRAFT_AI | AIRCRAFT_TRACK
| USER | PARKING | RUNWAYEND | INVALID | MISSED_APPROACH | PROCEDURE | AIRSPACE
| AIRPORT_ALL | NAV_ALL | NAV_MAGVAR
| ALL.

#[global] Instance t_eq_dec : EqDecision t.
Proof. solve_decision. Defined.

Definition value (x : t) : Z :=
  match x with
  | NONE => 0
  | AIRPORT => Z.shiftl 1 0
  | AIRPORT_HARD => Z.shiftl 1 1
  | AIRPORT_SOFT => Z.shiftl 1 2
  | AIRPORT_EMPTY => Z.shiftl 1 3
  | AIRPORT_ADDON => Z.shiftl 1 4
  | VOR => Z.shiftl 1 5
  | NDB => Z.shiftl 1 6
  | ILS => Z.shiftl 1 7
  | MARKER => Z.shiftl 1 8
  | WAYPOINT => Z.shiftl 1 9
  | AIRWAY => Z.shiftl 1 10
  | AIRWAYV => Z.shiftl 1 11
  | AIRWAYJ => Z.shiftl 1 12
  | FLIGHTPLAN => Z.shiftl 1 13
  | AIRCRAFT => Z.shiftl 1 14
  | AIRCRAFT_AI => Z.shiftl 1 15
  | AIRCRAFT_TRACK => Z.shiftl 1 16
  | USER => Z.shiftl 1 17
  | PARKING => Z.shiftl 1 18
  | RUNWAYEND => Z.shiftl 1 19
  | INVALID => Z.shiftl 1 20
  | MISSED_APPROACH => Z.shiftl 1 21
  | PROCEDURE => Z.shiftl 1 22
  | AIRSPACE => Z.shiftl 1 23
  | AIRPORT_ALL =>
      Z.lor (Z.lor (Z.lor (Z.lor (Z.shiftl 1 0) (Z.shiftl 1 1)) (Z.shiftl 1 2))
                   (Z.shiftl 1 3)) (Z.shiftl 1 4)
  | NAV_ALL => Z.lor (Z.lor (Z.shiftl 1 5) (Z.shiftl 1 6)) (Z.shiftl 1 9)
  | NAV_MAGVAR =>
      Z.lor (Z.lor (Z.lor (Z.shiftl 1 0) (Z.shiftl 1 5)) (Z.shiftl 1 6)) (Z.shiftl 1 9)
  | ALL => 4294967295
  end.

(** The enumerators that are written [1 << n]. *)
Definition single : list t :=
  [AIRPORT; AIRPORT_HARD; AIRPORT_SOFT; AIRPORT_EMPTY; AIRPORT_ADDON;
   VOR; NDB; ILS; MARKER; WAYPOINT; AIRWAY; AIRWAYV; AIRWAYJ;
   FLIGHTPLAN; AIRCRAFT; AIRCRAFT_AI; AIRCRAFT_TRACK;
   USER; PARKING; RUNWAYEND; INVALID; MISSED_APPROACH; PROCEDURE; AIRSPACE].

Definition isSingle (x : t) : bool := bool_decide (x ∈ single).

End MapObjectType.

Module MapAirportFlag.

Inductive t :=
| AP_NONE
| AP_ADDON | AP_LIGHT | AP_TOWER | AP_ILS | AP_PROCEDURE | AP_MIL | AP_CLOSED
| AP_AVGAS | AP_JETFUEL | AP_HARD | AP_SOFT | AP_WATER | AP_HELIPAD | AP_APRON
| AP_TAXIWAY | AP_TOWER_OBJ | AP_PARKING | AP_ALS | AP_VASI | AP_FENCE
| AP_RW_CLOSED | AP_COMPLETE
| AP_ALL.

#[global] Instance t_eq_dec : EqDecision t.
Proof. solve_decision. Defined.

Definition value (x : t) : Z :=
  match x with
  | AP_NONE => 0
  | AP_ADDON => Z.shiftl 1 0
  | AP_LIGHT => Z.shiftl 1 1
  | AP_TOWER => Z.shiftl 1 2
  | AP_ILS => Z.shiftl 1 3
  | AP_PROCEDURE => Z.shiftl 1 4
  | AP_MIL => Z.shiftl 1 5
  | AP_CLOSED => Z.shiftl 1 6
  | AP_AVGAS => Z.shiftl 1 7
  | AP_JETFUEL => Z.shiftl 1 8
  | AP_HARD => Z.shiftl 1 9
  | AP_SOFT => Z.shiftl 1 10
  | AP_WATER => Z.shiftl 1 11
  | AP_HELIPAD => Z.shiftl 1 12
  | AP_APRON => Z.shiftl 1 13
  | AP_TAXIWAY => Z.shiftl 1 14
  | AP_TOWER_OBJ => Z.shiftl 1 15
  | AP_PARKING => Z.shiftl 1 16
  | AP_ALS => Z.shiftl 1 17
  | AP_VASI => Z.shiftl 1 18
  | AP_FENCE => Z.shiftl 1 19
  | AP_RW_CLOSED => Z.shiftl 1 20
  | AP_COMPLETE => Z.shiftl 1 21
  | AP_ALL => 4294967295
  end.

Definition single : list t :=
  [AP_ADDON; AP_LIGHT; AP_TOWER; AP_ILS; AP_PROCEDURE; AP_MIL; AP_CLOSED;
   AP_AVGAS; AP_JETFUEL; AP_HARD; AP_SOFT; AP_WATER; AP_HELIPAD; AP_APRON;
   AP_TAXIWAY; AP_TOWER_OBJ; AP_PARKING; AP_ALS; AP_VASI; AP_FENCE;
   AP_RW_CLOSED; AP_COMPLETE].

Definition isSingle (x : t) : bool := bool_decide (x ∈ single).

End MapAirportFlag.

(** ** Vocabulary for the exclusive group of the options menu *)

(** The actions of [procActionGroup] that are checked. *)
Definition groupChecked (menu : QMenu) : list QAction :=
  filter (fun act => inGroup act && checked act = true) menu.

(** Every action of the group is checkable, as the constructor makes
    them. *)
Definition groupCheckable (menu : QMenu) : bool :=
  forallb (fun act => implb (inGroup act) (checkable act)) menu.

(** The position of the last action of the group among the first [k]
    actions whose flag is set in [options]. *)
Fixpoint lastBelow (options : rs.RouteStringOptions) (menu : QMenu) (k : nat)
  : option nat :=
  match k with
  | O => None
  | S k' =>
      match menu !! k' with
      | Some act =>
          if inGroup act && wanted options act then Some k'
          else lastBelow options menu k'
      | None => lastBelow options menu k'
      end
  end.

Definition lastGroupWanted (options : rs.RouteStringOptions) (menu : QMenu)
  : option nat :=
  lastBelow options menu (length menu).

(** The check mark of the action at position [j] once the loop of
    [updateButtonState] is through: an action outside the group shows its
    flag, and of the actions of the group the last one whose flag is set
    is the checked one. *)
Definition expectedChecked (options : rs.RouteStringOptions) (menu : QMenu)
    (j : nat) (act : QAction) : bool :=
  if checkable act then
    if inGroup act then bool_decide (lastGroupWanted options menu = Some j)
    else wanted options act
  else checked act.

Definition expectedMenu (options : rs.RouteStringOptions) (menu : QMenu) : QMenu :=
  imap (fun j act => withChecked act (expectedChecked options menu j act)) menu.

(** The check mark of the action at position [j] after the first [k]
    passes of the loop. *)
Definition stateAfter (options : rs.RouteStringOptions) (menu : QMenu)
    (k j : nat) (act : QAction) : QAction :=
  withChecked act
    (if inGroup act then
       match lastBelow options menu k with
       | Some w => Nat.eqb j w
       | None => if Nat.ltb j k then false else checked act
       end
     else if Nat.ltb j k && checkable act then wanted options act
     else checked act).

(** At most one action of the group is checked: what an exclusive
    [QActionGroup] maintains. *)
Definition exclusive (menu : QMenu) : Prop :=
  forall i j a c, menu !! i = Some a -> menu !! j = Some c ->
    inGroup a = true -> inGroup c = true ->
    checked a = true -> checked c = true -> i = j.

(** The option flags that an action of the menu of the dialog carries. *)
Definition hasAction `{E : rs.Enumerators} (hasSidStarInDatabase : bool)
    (f : rs.RouteStringOption) : bool :=
  existsb (fun act => data act =? rs.value f) (buildMenu hasSidStarInDatabase).

(** The flags of the actions that the constructor adds to
    [procActionGroup], in the order in which it adds them to the menu. *)
Definition groupFlags (hasSidStarInDatabase : bool) : list rs.RouteStringOption :=
  ((if hasSidStarInDatabase then [rs.SID_STAR] else [])
   ++ [rs.SID_STAR_GENERIC; rs.SID_STAR_NONE])%list.

(** The last flag of the group that is set in [options]. *)
Definition lastGroupFlag `{E : rs.Enumerators} (hasSidStarInDatabase : bool)
    (options : rs.RouteStringOptions) : option rs.RouteStringOption :=
  last (List.filter (rs.has options) (groupFlags hasSidStarInDatabase)).

Section ExtraSamples.
Existing Instance sampleGeo.
Existing Instance sampleEnumerators.

(** A dialog in which the user has checked "Write DCT" and "Write
    Alternates". *)
Definition sampleCheckedDialog (o : rs.RouteStringOptions) (text : string)
  : RouteStringDialog.t :=
  {| RouteStringDialog.options := o;
     RouteStringDialog.updatingActions := false;
     RouteStringDialog.menu := sampleCheckedMenu;
     RouteStringDialog.plainTextEditRouteString := text;
     RouteStringDialog.textEditRouteStringErrors := [];
     RouteStringDialog.flightplan := emptyFlightplan;
     RouteStringDialog.speedKts := 0;
     RouteStringDialog.altitudeIncluded := false |}.
End ExtraSamples.

(** * Properties *)

(** ** Identifiers of the airport facility structs *)

(** C10: [getId()] of [MapRunway], [MapRunwayEnd], [MapApron],
    [MapTaxiPath], [MapParking] and [MapHelipad] is -1 for every value of
    the struct, whatever the [id] field of a [MapParking] holds. *)
Theorem getId_facilities_minus_one `{G : AtoolsGeo} :
  (forall r : MapRunway.t, MapRunway.getId r = -1) /\
  (forall r : MapRunwayEnd.t, MapRunwayEnd.getId r = -1) /\
  (forall a : MapApron.t, MapApron.getId a = -1) /\
  (forall p : MapTaxiPath.t, MapTaxiPath.getId p = -1) /\
  (forall p : MapParking.t, MapParking.getId p = -1) /\
  (forall h : MapHelipad.t, MapHelipad.getId h = -1).
Proof. repeat split. Qed.

(** ** Bit level facts about [QFlags] *)

Section Bits.

Lemma testbit_land_zero (a b n : Z) :
  Z.land a b = 0 -> Z.testbit a n && Z.testbit b n = false.
Proof.
  intros H. rewrite <- Z.land_spec, H. apply Z.bits_0.
Qed.

Lemma copyAction_testbit (o : Z) (act : QAction) (n : Z) :
  0 <= n ->
  Z.testbit (copyAction o act) n =
  if checked act then Z.testbit o n || Z.testbit (data act) n
  else Z.testbit o n && negb (Z.testbit (data act) n).
Proof.
  intros Hn. unfold copyAction, rs.or, rs.and, rs.not.
  destruct (checked act).
  - apply Z.lor_spec.
  - rewrite Z.land_spec, Z.lnot_spec by assumption. reflexivity.
Qed.

Lemma isSingleBit_pow2 (d : Z) :
  rs.isSingleBit d = true -> exists k, 0 <= k /\ d = 2 ^ k.
Proof.
  unfold rs.isSingleBit. intros H.
  apply andb_true_iff in H as [_ H]. apply Z.eqb_eq in H.
  exists (Z.log2 d). split; [apply Z.log2_nonneg | exact H].
Qed.

Lemma pow2_land_nonzero (k o : Z) :
  0 <= k -> Z.land (2 ^ k) o <> 0 -> Z.testbit o k = true.
Proof.
  intros Hk Hne. destruct (Z.testbit o k) eqn:Hb; [reflexivity | exfalso].
  apply Hne. apply Z.bits_inj'. intros n Hn.
  rewrite Z.land_spec, Z.bits_0, Z.pow2_bits_eqb by assumption.
  destruct (Z.eqb_spec k n) as [-> | _]; [now rewrite Hb | reflexivity].
Qed.

Lemma lor_pow2_id (k o : Z) :
  0 <= k -> Z.testbit o k = true -> Z.lor o (2 ^ k) = o.
Proof.
  intros Hk Hb. apply Z.bits_inj'. intros n Hn.
  rewrite Z.lor_spec, Z.pow2_bits_eqb by assumption.
  destruct (Z.eqb_spec k n) as [-> | _].
  - now rewrite Hb.
  - apply orb_false_r.
Qed.

Lemma land_lnot_id (d o : Z) :
  Z.land d o = 0 -> Z.land o (Z.lnot d) = o.
Proof.
  intros H. apply Z.bits_inj'. intros n Hn.
  rewrite Z.land_spec, Z.lnot_spec by assumption.
  pose proof (testbit_land_zero d o n H) as Hz.
  destruct (Z.testbit d n), (Z.testbit o n); simpl in *; congruence.
Qed.

Lemma pow2_land_distinct (j k : Z) :
  0 <= j -> 0 <= k -> j <> k -> Z.land (2 ^ j) (2 ^ k) = 0.
Proof.
  intros Hj Hk Hne. apply Z.bits_inj'. intros n Hn.
  rewrite Z.land_spec, Z.bits_0, !Z.pow2_bits_eqb by assumption.
  destruct (Z.eqb_spec j n), (Z.eqb_spec k n); try reflexivity. congruence.
Qed.

End Bits.

(** ** Persistence of the options *)

(** C8: the options survive [saveState] followed by
    [getOptionsFromSettings], and the only key that [saveState] itself
    writes is the options key: every other key holds what [WidgetState]
    left there. *)
Theorem options_settings_roundtrip `{E : rs.Enumerators} `{C : Constants}
    (options : rs.RouteStringOptions) (s : gmap string QVariant) :
  getOptionsFromSettings (saveState options s) = options /\
  delete ROUTE_STRING_DIALOG_OPTIONS (saveState options s) =
  delete ROUTE_STRING_DIALOG_OPTIONS (WidgetState_save ROUTE_STRING_DIALOG_SPLITTER s).
Proof.
  split.
  - unfold getOptionsFromSettings, saveState, valueInt, setValue.
    rewrite lookup_insert_eq. reflexivity.
  - unfold saveState, setValue. apply delete_insert_eq.
Qed.

(** ** The copy loop of [toolButtonOptionTriggered] *)

Section CopyLoop.

Lemma menuBits_testbit_false (menu : QMenu) (d n : Z) :
  forallb (fun other => Z.land d (data other) =? 0) menu = true ->
  Z.testbit d n = true -> Z.testbit (menuBits menu) n = false.
Proof.
  induction menu as [| act rest IH]; simpl; intros Hall Hd.
  - apply Z.bits_0.
  - apply andb_true_iff in Hall as [Hact Hrest].
    apply Z.eqb_eq in Hact.
    rewrite Z.lor_spec, (IH Hrest Hd), orb_false_r.
    pose proof (testbit_land_zero _ _ n Hact) as Hz.
    rewrite Hd in Hz. exact Hz.
Qed.

Lemma checkedBits_below_menuBits (menu : QMenu) (n : Z) :
  Z.testbit (menuBits menu) n = false -> Z.testbit (checkedBits menu) n = false.
Proof.
  induction menu as [| act rest IH]; simpl; intros H; [exact H |].
  rewrite Z.lor_spec in H. apply orb_false_iff in H as [Ha Hr].
  destruct (checked act); [rewrite Z.lor_spec, Ha, (IH Hr) | rewrite (IH Hr)];
    reflexivity.
Qed.

Lemma copyMenuState_spec (menu : QMenu) (o : Z) :
  pairwiseDisjoint menu = true ->
  copyMenuState menu o =
  Z.lor (Z.land o (Z.lnot (menuBits menu))) (checkedBits menu).
Proof.
  revert o. induction menu as [| act rest IH]; intros o Hdis.
  - simpl. rewrite Z.lor_0_r. change (Z.lnot 0) with (-1).
    symmetry. apply Z.land_m1_r.
  - simpl in Hdis. apply andb_true_iff in Hdis as [Hact Hrest].
    unfold copyMenuState in *. simpl fold_left. rewrite (IH _ Hrest).
    apply Z.bits_inj'. intros n Hn.
    pose proof (menuBits_testbit_false rest (data act) n Hact) as Hrb.
    pose proof (checkedBits_below_menuBits rest n) as Hcb.
    simpl menuBits. simpl checkedBits.
    rewrite !Z.lor_spec, !Z.land_spec, !Z.lnot_spec, copyAction_testbit
      by assumption.
    destruct (checked act); rewrite ?Z.lor_spec;
      destruct (Z.testbit o n), (Z.testbit (data act) n),
        (Z.testbit (menuBits rest) n), (Z.testbit (checkedBits rest) n);
      simpl in *; try reflexivity;
      try (specialize (Hrb eq_refl)); try (specialize (Hcb eq_refl));
      congruence.
Qed.

Lemma copyMenuState_other_bits (menu : QMenu) (o n : Z) :
  0 <= n ->
  Forall (fun act => Z.testbit (data act) n = false) menu ->
  Z.testbit (copyMenuState menu o) n = Z.testbit o n.
Proof.
  intros Hn. revert o. unfold copyMenuState.
  induction menu as [| act rest IH]; intros o Hall; [reflexivity |].
  inversion Hall as [| ? ? Hact Hrest]; subst. simpl.
  rewrite (IH _ Hrest), copyAction_testbit, Hact by assumption.
  destruct (checked act); [apply orb_false_r | apply andb_true_r].
Qed.

Lemma copyMenuState_fixed (menu : QMenu) (o : Z) :
  Forall (fun act => copyAction o act = o) menu -> copyMenuState menu o = o.
Proof.
  unfold copyMenuState. induction menu as [| act rest IH]; intros Hall;
    [reflexivity |].
  inversion Hall as [| ? ? Hact Hrest]; subst. simpl.
  rewrite Hact. apply IH, Hrest.
Qed.

End CopyLoop.

Lemma copyMenuState_union (menu : QMenu) (options : rs.RouteStringOptions) :
  pairwiseDisjoint menu = true ->
  copyMenuState menu options =
    rs.or (rs.and options (rs.not (menuBits menu))) (checkedBits menu).
Proof. apply copyMenuState_spec. Qed.

Lemma copyAction_other_bits (options : rs.RouteStringOptions) (act : QAction) (n : Z) :
  0 <= n -> Z.testbit (data act) n = false ->
  Z.testbit (copyAction options act) n = Z.testbit options n.
Proof.
  intros Hn Hbit. rewrite copyAction_testbit, Hbit by assumption.
  destruct (checked act); [apply orb_false_r | apply andb_true_r].
Qed.

(** ** The check loop of [updateButtonState] *)

Section CheckLoop.
Variable options : rs.RouteStringOptions.

Local Abbreviation want := (wanted options).
Local Abbreviation oneOfGroup := (oneOfGroup options).
Local Abbreviation checkedUpTo := (checkedUpTo options).

Lemma unchecked_withChecked act b : unchecked (withChecked act b) = unchecked act.
Proof. reflexivity. Qed.

Lemma want_unchecked a c : unchecked a = unchecked c -> want a = want c.
Proof. unfold wanted. intros H. now rewrite (f_equal data H : data a = data c). Qed.

Lemma setChecked_unchecked (menu : QMenu) i b :
  unchecked <$> setChecked menu i b = unchecked <$> menu.
Proof.
  unfold setChecked. destruct (menu !! i) as [a |] eqn:Hi; [| reflexivity].
  destruct (negb (checkable a) || Bool.eqb (checked a) b); [reflexivity |].
  assert (Hins : unchecked <$> <[i := withChecked a b]> menu = unchecked <$> menu).
  { rewrite list_fmap_insert. apply list_insert_id.
    rewrite list_lookup_fmap, Hi. reflexivity. }
  destruct (b && inGroup a); [| exact Hins].
  rewrite <- Hins. unfold uncheckOthers. apply list_eq. intros j.
  rewrite !list_lookup_fmap, list_lookup_imap.
  destruct (<[i := withChecked a b]> menu !! j) as [c |]; [| reflexivity].
  simpl. destruct (inGroup c && negb (j =? i)%nat); reflexivity.
Qed.

Lemma checkFromOptions_unchecked (menu : QMenu) i :
  unchecked <$> checkFromOptions options menu i = unchecked <$> menu.
Proof.
  unfold checkFromOptions. destruct (menu !! i); [| reflexivity].
  apply setChecked_unchecked.
Qed.

Lemma lookup_unchecked (m m0 : QMenu) j a :
  unchecked <$> m = unchecked <$> m0 -> m !! j = Some a ->
  exists a0, m0 !! j = Some a0 /\ unchecked a = unchecked a0.
Proof.
  intros Hst Hj.
  assert (H : (unchecked <$> m0) !! j = Some (unchecked a))
    by (rewrite <- Hst, list_lookup_fmap, Hj; reflexivity).
  rewrite list_lookup_fmap in H.
  destruct (m0 !! j) as [a0 |]; [| discriminate].
  exists a0. split; [reflexivity |]. simpl in H. congruence.
Qed.

Lemma setChecked_step (menu : QMenu) k a :
  oneOfGroup menu -> checkedUpTo k menu -> menu !! k = Some a ->
  checkedUpTo (S k) (setChecked menu k (want a)).
Proof.
  intros Hone Hinv Hk. unfold setChecked. rewrite Hk.
  pose proof (lookup_lt_Some _ _ _ Hk) as Hlen.
  destruct (negb (checkable a) || Bool.eqb (checked a) (want a)) eqn:Hskip.
  - intros j c Hj Hc Hcheckable.
    destruct (decide (j = k)) as [-> | Hne]; [| apply (Hinv j); [lia | auto ..]].
    rewrite Hk in Hc. inversion Hc; subst c.
    rewrite Hcheckable in Hskip. simpl in Hskip. now apply eqb_prop.
  - apply orb_false_iff in Hskip as [_ Hdiff].
    destruct (want a && inGroup a) eqn:Hgroup.
    + apply andb_true_iff in Hgroup as [Hw Hg].
      intros j c Hj Hc Hcheckable. unfold uncheckOthers in Hc.
      rewrite list_lookup_imap in Hc.
      destruct (decide (j = k)) as [-> | Hne].
      * rewrite list_lookup_insert_eq in Hc by assumption. simpl in Hc.
        rewrite Nat.eqb_refl, andb_false_r in Hc. now inversion Hc.
      * rewrite list_lookup_insert_ne in Hc by auto.
        destruct (menu !! j) as [c0 |] eqn:Hc0; [| discriminate].
        simpl in Hc. destruct (inGroup c0) eqn:Hg0; simpl in Hc.
        -- apply Nat.eqb_neq in Hne. rewrite Hne in Hc. simpl in Hc.
           inversion Hc; subst c. simpl.
           change (want (withChecked c0 false)) with (want c0).
           destruct (want c0) eqn:Hw0; [| reflexivity].
           apply Nat.eqb_neq in Hne. exfalso. apply Hne.
           exact (Hone j k c0 a Hc0 Hk Hg0 Hg Hw0 Hw).
        -- inversion Hc; subst c. apply (Hinv j); [lia | auto ..].
    + intros j c Hj Hc Hcheckable.
      destruct (decide (j = k)) as [-> | Hne].
      * rewrite list_lookup_insert_eq in Hc by assumption. now inversion Hc.
      * rewrite list_lookup_insert_ne in Hc by auto.
        apply (Hinv j); [lia | auto ..].
Qed.

Lemma oneOfGroup_unchecked (m m0 : QMenu) :
  unchecked <$> m = unchecked <$> m0 -> oneOfGroup m0 -> oneOfGroup m.
Proof.
  intros Hst Hone i j a c Hi Hj Hga Hgc Hwa Hwc.
  destruct (lookup_unchecked _ _ _ _ Hst Hi) as (a0 & Hi0 & Ha).
  destruct (lookup_unchecked _ _ _ _ Hst Hj) as (c0 & Hj0 & Hc).
  apply (Hone i j a0 c0 Hi0 Hj0).
  - now rewrite <- (f_equal inGroup Ha : inGroup a = inGroup a0).
  - now rewrite <- (f_equal inGroup Hc : inGroup c = inGroup c0).
  - now rewrite <- (want_unchecked _ _ Ha).
  - now rewrite <- (want_unchecked _ _ Hc).
Qed.

Lemma check_loop (len k : nat) (menu : QMenu) :
  oneOfGroup menu -> checkedUpTo k menu -> (k + len = length menu)%nat ->
  let menu' := fold_left (checkFromOptions options) (seq k len) menu in
  unchecked <$> menu' = unchecked <$> menu /\ checkedUpTo (length menu) menu'.
Proof.
  revert k menu. induction len as [| len IH]; intros k menu Hone Hinv Hlen; simpl.
  - split; [reflexivity |]. now replace (length menu) with k by lia.
  - destruct (lookup_lt_is_Some_2 menu k ltac:(lia)) as [a Hk].
    pose proof (checkFromOptions_unchecked menu k) as Hst.
    assert (Hlen' : length (checkFromOptions options menu k) = length menu).
    { rewrite <- (length_fmap unchecked), Hst. apply length_fmap. }
    destruct (IH (S k) (checkFromOptions options menu k)) as [Hst' Hall].
    + eapply oneOfGroup_unchecked; eassumption.
    + unfold checkFromOptions. rewrite Hk.
      apply setChecked_step; assumption.
    + lia.
    + split; [now rewrite Hst' |]. now rewrite <- Hlen'.
Qed.

Lemma copyOptionsToMenu_checked (menu : QMenu) :
  oneOfGroup menu ->
  let menu' := copyOptionsToMenu options menu in
  unchecked <$> menu' = unchecked <$> menu /\
  (forall act, act ∈ menu' -> checkable act = true -> checked act = want act).
Proof.
  intros Hone. unfold copyOptionsToMenu.
  destruct (check_loop (length menu) 0 menu Hone) as [Hst Hall];
    [intros j a Hj; lia | reflexivity |].
  split; [exact Hst |]. intros act Hin Hcheckable.
  apply list_elem_of_lookup_1 in Hin as [j Hj].
  apply (Hall j); [| assumption ..].
  rewrite <- (length_fmap unchecked menu), <- Hst, length_fmap.
  eapply lookup_lt_Some, Hj.
Qed.

Lemma groupFlagsSet_oneOfGroup (menu : QMenu) :
  (length (groupFlagsSet menu options) <= 1)%nat -> oneOfGroup menu.
Proof.
  unfold groupFlagsSet. unfold oneOfGroup.
  induction menu as [| act rest IH]; intros Hlen i j a c Hi Hj Hga Hgc Hwa Hwc.
  - discriminate.
  - assert (Hnone : forall k x, rest !! k = Some x -> inGroup x = true ->
              want x = true ->
              inGroup act && want act = true -> False).
    { intros k x Hx Hgx Hwx Hact.
      rewrite filter_cons_True in Hlen by exact Hact. simpl in Hlen.
      assert (Hin : x ∈ filter (fun act => inGroup act && want act = true) rest).
      { apply list_elem_of_filter. split.
        - now rewrite Hgx, Hwx.
        - eapply list_elem_of_lookup_2, Hx. }
      destruct (filter _ rest); [inversion Hin | simpl in Hlen; lia]. }
    destruct i as [| i], j as [| j]; simpl in Hi, Hj.
    + reflexivity.
    + exfalso. inversion Hi; subst. eapply (Hnone j c); eauto.
      now rewrite Hga, Hwa.
    + exfalso. inversion Hj; subst. eapply (Hnone i a); eauto.
      now rewrite Hgc, Hwc.
    + f_equal. apply (IH ltac:(
        destruct (decide (inGroup act && want act = true));
        [rewrite filter_cons_True in Hlen by assumption; simpl in Hlen; lia
        |rewrite filter_cons_False in Hlen by assumption; exact Hlen]) i j a c); assumption.
Qed.

End CheckLoop.

Lemma copyMenuState_copyOptionsToMenu (menu : QMenu) (options : rs.RouteStringOptions) :
  menuWellFormed menu = true ->
  (length (groupFlagsSet menu options) <= 1)%nat ->
  copyMenuState (copyOptionsToMenu options menu) options = options.
Proof.
  intros Hwf Hgroup.
  apply groupFlagsSet_oneOfGroup in Hgroup.
  destruct (copyOptionsToMenu_checked options menu Hgroup) as [Hst Hchecked].
  apply copyMenuState_fixed, Forall_forall. intros act Hin.
  specialize (Hchecked act Hin).
  apply list_elem_of_lookup_1 in Hin as [j Hj].
  destruct (lookup_unchecked _ _ _ _ Hst Hj) as (a0 & Hj0 & Ha).
  unfold menuWellFormed in Hwf. rewrite forallb_forall in Hwf.
  specialize (Hwf a0 ltac:(apply list_elem_of_In; eapply list_elem_of_lookup_2, Hj0)).
  rewrite <- (f_equal checkable Ha : checkable act = checkable a0),
          <- (f_equal data Ha : data act = data a0) in Hwf.
  unfold copyAction, rs.or, rs.and, rs.not.
  destruct (checkable act) eqn:Hcheckable.
  - rewrite (Hchecked eq_refl). unfold wanted, rs.toBool, rs.and.
    destruct (Z.eqb_spec (Z.land (data act) options) 0) as [Hz | Hnz]; simpl.
    + apply land_lnot_id, Hz.
    + apply isSingleBit_pow2 in Hwf as (k & Hk & Hd). rewrite Hd in *.
      apply lor_pow2_id; [assumption |]. now apply pow2_land_nonzero.
  - apply Z.eqb_eq in Hwf. rewrite Hwf.
    destruct (checked act); [apply Z.lor_0_r |].
    change (Z.lnot 0) with (-1). apply Z.land_m1_r.
Qed.

(** ** The menu of the dialog *)

Section DialogMenu.
Context `{E : rs.Enumerators}.
Hypothesis Horth : rs.orthogonal E = true.

Lemma value_isSingleBit (f : rs.RouteStringOption) :
  rs.isSingleBit (rs.value f) = true.
Proof.
  unfold rs.orthogonal in Horth. apply andb_true_iff in Horth as [Hall _].
  rewrite forallb_forall in Hall. apply Hall.
  destruct f; simpl; tauto.
Qed.

Lemma value_disjoint (f g : rs.RouteStringOption) :
  f <> g -> (Z.land (rs.value f) (rs.value g) =? 0) = true.
Proof.
  intros Hne. unfold rs.orthogonal in Horth.
  apply andb_true_iff in Horth as [_ Hdis]. simpl in Hdis.
  rewrite !andb_true_iff in Hdis.
  destruct f, g; try congruence;
    first [ tauto | rewrite Z.land_comm; tauto ].
Qed.

Ltac disjoint_values :=
  repeat (apply andb_true_intro; split); try reflexivity;
  first [ apply value_disjoint; discriminate
        | apply Z.eqb_eq; first [apply Z.land_0_r | apply Z.land_0_l] ].

Lemma buildMenu_pairwiseDisjoint (hasSidStar : bool) :
  pairwiseDisjoint (buildMenu hasSidStar) = true.
Proof. destruct hasSidStar; simpl; disjoint_values. Qed.

Lemma buildMenu_wellFormed (hasSidStar : bool) :
  menuWellFormed (buildMenu hasSidStar) = true.
Proof.
  destruct hasSidStar; simpl; rewrite ?value_isSingleBit; reflexivity.
Qed.

Lemma buildMenu_unchecked (hasSidStar : bool) :
  unchecked <$> buildMenu hasSidStar = buildMenu hasSidStar.
Proof. destruct hasSidStar; reflexivity. Qed.

End DialogMenu.

(** The vocabulary looks at the actions only, not at their check marks. *)

Lemma forallb_fmap {A B} (p : B -> bool) (f : A -> B) (l : list A) :
  forallb p (f <$> l) = forallb (fun x => p (f x)) l.
Proof.
  induction l as [| x l IH]; [reflexivity |].
  rewrite fmap_cons. cbn [forallb]. now rewrite IH.
Qed.

Lemma pairwiseDisjoint_unchecked (menu : QMenu) :
  pairwiseDisjoint (unchecked <$> menu) = pairwiseDisjoint menu.
Proof.
  induction menu as [| act rest IH]; [reflexivity |].
  rewrite fmap_cons. cbn [pairwiseDisjoint]. now rewrite IH, forallb_fmap.
Qed.

Lemma menuWellFormed_unchecked (menu : QMenu) :
  menuWellFormed (unchecked <$> menu) = menuWellFormed menu.
Proof. unfold menuWellFormed. apply forallb_fmap. Qed.

Lemma groupFlagsSet_unchecked (menu : QMenu) (options : rs.RouteStringOptions) :
  length (groupFlagsSet (unchecked <$> menu) options) =
  length (groupFlagsSet menu options).
Proof.
  unfold groupFlagsSet.
  induction menu as [| act rest IH]; [reflexivity |].
  rewrite fmap_cons.
  destruct (decide (inGroup act && wanted options act = true)) as [Hy | Hn].
  - rewrite !filter_cons_True by exact Hy. simpl. now rewrite IH.
  - rewrite !filter_cons_False by exact Hn. exact IH.
Qed.

(** C5, as the dialog has it: whatever is checked in the options menu, the
    copy loop clears the flag of every action of the menu in the previous
    options value and unites the result with the flags of the checked
    actions.  The outcome is exactly the union of the checked flags when
    the previous value has no bit outside the menu, and one pass of the
    loop leaves every bit alone that is not a bit of the action at hand. *)
Theorem copy_loop_union `{E : rs.Enumerators} (hasSidStar : bool)
    (menu : QMenu) (options : rs.RouteStringOptions) :
  rs.orthogonal E = true ->
  unchecked <$> menu = buildMenu hasSidStar ->
  copyMenuState menu options =
    rs.or (rs.and options (rs.not (menuBits menu))) (checkedBits menu) /\
  (rs.and options (rs.not (menuBits menu)) = 0 ->
   copyMenuState menu options = checkedBits menu) /\
  (forall act n, 0 <= n -> Z.testbit (data act) n = false ->
   Z.testbit (copyAction options act) n = Z.testbit options n).
Proof.
  intros Horth Hmenu.
  assert (Hdis : pairwiseDisjoint menu = true).
  { rewrite <- pairwiseDisjoint_unchecked, Hmenu.
    now apply buildMenu_pairwiseDisjoint. }
  split; [| split].
  - apply copyMenuState_union, Hdis.
  - intros Hout. rewrite (copyMenuState_union _ _ Hdis), Hout. apply Z.lor_0_l.
  - intros act n. apply copyAction_other_bits.
Qed.

Lemma copy_loop_union_witness :
  rs.orthogonal sampleEnumerators = true /\
  unchecked <$> sampleCheckedMenu = buildMenu (E := sampleEnumerators) true /\
  copyMenuState sampleCheckedMenu 3 = 17.
Proof.
  split; [reflexivity | split; [reflexivity |]].
  destruct (copy_loop_union (E := sampleEnumerators) true sampleCheckedMenu 3
              eq_refl eq_refl) as (_ & Hunion & _).
  exact (Hunion eq_refl).
Defined.

(** C5, as it is worded, fails: in a database without SID and STAR the menu
    has no action for [rs::SID_STAR], so an options value that holds this
    flag keeps it although nothing is checked. *)
Lemma copy_loop_not_union :
  let menu := buildMenu (E := sampleEnumerators) false in
  let options := rs.value (Enumerators := sampleEnumerators) rs.SID_STAR in
  checkedBits menu = 0 /\ copyMenuState menu options = options /\
  copyMenuState menu options <> checkedBits menu.
Proof. vm_compute. repeat split; discriminate. Qed.

(** ** Cleaning is idempotent *)

Section CleaningProofs.
Context `{P : PunctuationNoise}.

Ltac each_char c :=
  destruct c as [[] [] [] [] [] [] [] []]; try reflexivity; try discriminate.

Lemma toUpper_not_lower (c : ascii) : isLower (toUpper c) = false.
Proof. each_char c. Qed.

Lemma toUpper_id (c : ascii) : isLower c = false -> toUpper c = c.
Proof. unfold toUpper. now intros ->. Qed.

Lemma isSeparator_space : isSeparator " " = true.
Proof. reflexivity. Qed.

Lemma cleanChar_spec (c : ascii) :
  cleanChar c = true <-> isSeparator c = false /\ isLower c = false.
Proof.
  unfold cleanChar. rewrite andb_true_iff, !negb_true_iff. reflexivity.
Qed.

(** A run of clean characters is one token, also in front of a separator. *)
Lemma splitTokens_run (c : ascii) (cs rest : list ascii) :
  forallb cleanChar (c :: cs) = true ->
  (rest = [] \/ exists s rest', rest = s :: rest' /\ isSeparator s = true) ->
  splitTokens ((c :: cs) ++ rest) = (c :: cs) :: splitTokens rest.
Proof.
  revert c. induction cs as [| c' cs IH]; intros c Hclean Hrest.
  - simpl in Hclean. rewrite andb_true_r in Hclean.
    apply cleanChar_spec in Hclean as [Hsep _].
    simpl. rewrite Hsep.
    destruct Hrest as [-> | (s & rest' & -> & Hs)]; [reflexivity |].
    rewrite Hs. simpl. now rewrite Hs.
  - cbn [forallb] in Hclean. apply andb_true_iff in Hclean as [Hc Hcs].
    pose proof Hcs as Hcs'. cbn [forallb] in Hcs'.
    apply andb_true_iff in Hcs' as [Hc' _].
    apply cleanChar_spec in Hc as [Hsep _].
    apply cleanChar_spec in Hc' as [Hsep' _].
    specialize (IH c' Hcs Hrest).
    change ((c :: c' :: cs) ++ rest) with (c :: ((c' :: cs) ++ rest)).
    cbn [splitTokens]. rewrite Hsep, IH.
    cbn [app]. now rewrite Hsep'.
Qed.

(** Every token that comes out of the split is a run of characters that
    are no separators. *)
Lemma splitTokens_tokens (cs : list ascii) :
  Forall (fun token => token <> [] /\ forallb (fun c => negb (isSeparator c)) token = true)
         (splitTokens cs).
Proof.
  induction cs as [| c cs IH]; [constructor |].
  cbn [splitTokens]. destruct (isSeparator c) eqn:Hsep; [exact IH |].
  destruct cs as [| c' cs'].
  - constructor; [| constructor]. split; [discriminate |].
    simpl. now rewrite Hsep.
  - destruct (isSeparator c') eqn:Hsep'.
    + constructor; [| exact IH]. split; [discriminate |].
      simpl. now rewrite Hsep.
    + destruct (splitTokens (c' :: cs')) as [| token tokens].
      * constructor; [| constructor]. split; [discriminate |].
        simpl. now rewrite Hsep.
      * inversion IH as [| ? ? [_ Htoken] Htokens]; subst.
        constructor; [| exact Htokens]. split; [discriminate |].
        simpl. now rewrite Hsep, Htoken.
Qed.

(** The tokens of a text in upper case hold no lower case letter. *)
Lemma splitTokens_no_lower (cs : list ascii) :
  forallb (fun c => negb (isLower c)) cs = true ->
  Forall (fun token => forallb (fun c => negb (isLower c)) token = true)
         (splitTokens cs).
Proof.
  induction cs as [| c cs IH]; intros Hup; [constructor |].
  cbn [forallb] in Hup. apply andb_true_iff in Hup as [Hc Hcs].
  specialize (IH Hcs). cbn [splitTokens].
  destruct (isSeparator c); [exact IH |].
  assert (Hone : forallb (fun c => negb (isLower c)) [c] = true)
    by (simpl; now rewrite Hc).
  destruct cs as [| c' cs']; [repeat constructor; exact Hone |].
  destruct (isSeparator c'); [constructor; [exact Hone | exact IH] |].
  destruct (splitTokens (c' :: cs')) as [| token tokens];
    [repeat constructor; exact Hone |].
  inversion IH as [| ? ? Htoken Htokens]; subst.
  constructor; [| exact Htokens]. simpl. now rewrite Hc, Htoken.
Qed.

Lemma cleanToken_chars (token : string) :
  cleanToken token = true <->
  list_ascii_of_string token <> [] /\
  forallb cleanChar (list_ascii_of_string token) = true.
Proof.
  unfold cleanToken. destruct (list_ascii_of_string token) as [| c cs].
  - split; [discriminate | intros [H _]; now contradiction H].
  - split; [intros H; split; [discriminate | exact H] | intros [_ H]; exact H].
Qed.

Lemma cleanRouteString_cleanToken (text : string) :
  Forall (fun token => cleanToken token = true) (cleanRouteString text).
Proof.
  unfold cleanRouteString.
  set (cs := List.map toUpper (list_ascii_of_string text)).
  assert (Hup : forallb (fun c => negb (isLower c)) cs = true).
  { subst cs. induction (list_ascii_of_string text) as [| c l IH];
      [reflexivity |].
    simpl. now rewrite toUpper_not_lower, IH. }
  pose proof (splitTokens_tokens cs) as Hsep.
  pose proof (splitTokens_no_lower cs Hup) as Hlow.
  induction (splitTokens cs) as [| token tokens IH]; [constructor |].
  inversion Hsep as [| ? ? [Hne Htoken] Htokens]; subst.
  inversion Hlow as [| ? ? Hl Hls]; subst.
  simpl. constructor; [| now apply IH].
  apply cleanToken_chars. rewrite list_ascii_of_string_of_list_ascii.
  split; [exact Hne |].
  clear - Htoken Hl. induction token as [| c token IH]; [reflexivity |].
  cbn [forallb] in *. apply andb_true_iff in Htoken as [Hc Htoken].
  apply andb_true_iff in Hl as [Hlc Hl].
  rewrite (IH Htoken Hl), andb_true_r. apply cleanChar_spec.
  split; now apply negb_true_iff.
Qed.

Lemma list_ascii_of_string_app (s t : string) :
  list_ascii_of_string (s ++ t)%string =
  (list_ascii_of_string s ++ list_ascii_of_string t)%list.
Proof. induction s as [| c s IH]; [reflexivity |]. simpl. now rewrite IH. Qed.

Lemma map_toUpper_clean (cs : list ascii) :
  forallb cleanChar cs = true -> List.map toUpper cs = cs.
Proof.
  induction cs as [| c cs IH]; [reflexivity |].
  simpl. intros H. apply andb_true_iff in H as [Hc Hcs].
  apply cleanChar_spec in Hc as [_ Hlow].
  now rewrite (toUpper_id _ Hlow), (IH Hcs).
Qed.

(** Cleaning the joined clean tokens gives the tokens back. *)
Lemma cleanRouteString_join (tokens : list string) :
  Forall (fun token => cleanToken token = true) tokens ->
  cleanRouteString (join tokens) = tokens.
Proof.
  unfold cleanRouteString, join.
  induction tokens as [| token tokens IH]; intros Hclean; [reflexivity |].
  inversion Hclean as [| ? ? Htoken Htokens]; subst.
  specialize (IH Htokens).
  apply cleanToken_chars in Htoken as [Hne Hchars].
  destruct (list_ascii_of_string token) as [| c cs] eqn:Hcs; [contradiction |].
  destruct tokens as [| token' tokens].
  - simpl. rewrite Hcs, (map_toUpper_clean _ Hchars).
    pose proof (splitTokens_run c cs [] Hchars (or_introl eq_refl)) as Hrun.
    rewrite app_nil_r in Hrun. rewrite Hrun.
    cbn [List.map]. rewrite <- Hcs, string_of_list_ascii_of_string. reflexivity.
  - change (String.concat " " (token :: token' :: tokens))
      with (token ++ " " ++ String.concat " " (token' :: tokens))%string.
    rewrite !list_ascii_of_string_app, !List.map_app, Hcs,
      (map_toUpper_clean _ Hchars).
    set (rest := List.map toUpper
                   (list_ascii_of_string (String.concat " " (token' :: tokens)))) in *.
    change (List.map toUpper (list_ascii_of_string " ") ++ rest)
      with (" "%char :: rest).
    rewrite (splitTokens_run c cs (" "%char :: rest) Hchars)
      by (right; exists " "%char, rest; split; reflexivity).
    cbn [splitTokens]. rewrite isSeparator_space.
    cbn [List.map]. rewrite IH, <- Hcs, string_of_list_ascii_of_string.
    reflexivity.
Qed.

End CleaningProofs.

(** C7: cleaning is idempotent.  The dialog puts the cleaned tokens back
    into a text with [join(" ")]; cleaning that text gives the same tokens,
    and so the same text, again. *)
Theorem cleanRouteString_idempotent `{P : PunctuationNoise} (text : string) :
  cleanRouteString (join (cleanRouteString text)) = cleanRouteString text /\
  join (cleanRouteString (join (cleanRouteString text))) =
  join (cleanRouteString text).
Proof.
  assert (H : cleanRouteString (join (cleanRouteString text)) = cleanRouteString text)
    by apply cleanRouteString_join, cleanRouteString_cleanToken.
  split; [exact H | now rewrite H].
Qed.
(** ** The reader: what a step does to the result *)

Section ReaderSteps.
Context `{G : AtoolsGeo} `{E : rs.Enumerators} `{P : PunctuationNoise}
        `{DB : !NavDatabase}.

Lemma lastPoint_addEntry (r : ReadResult) p aw :
  lastPoint (addEntry r p aw) = Some p.
Proof. unfold lastPoint. simpl. now rewrite last_snoc. Qed.

Lemma readBody_skip o dest token rest r r' :
  bodyItem o dest token rest r = (r', false) ->
  readBody o dest (token :: rest) r = readBody o dest rest r'.
Proof. intros H. simpl. rewrite H. now destruct rest. Qed.

Lemma readBody_consume o dest token next rest r r' :
  bodyItem o dest token (next :: rest) r = (r', true) ->
  readBody o dest (token :: next :: rest) r = readBody o dest rest r'.
Proof. intros H. cbn [readBody]. now rewrite H. Qed.

Lemma messages_addEntries r ps : messages (addEntries r ps) = messages r.
Proof.
  unfold addEntries. revert r. induction ps as [| p ps IH]; intros r;
    [reflexivity |].
  simpl. now rewrite IH.
Qed.

(** A property of the result that every step keeps is kept by the whole
    read. *)
Section Invariant.
Variable Inv : ReadResult -> Prop.
Hypothesis Inv_entry : forall r p aw, Inv r -> Inv (addEntry r p aw).
Hypothesis Inv_message : forall r msg, Inv r -> Inv (addMessage r msg).
Hypothesis Inv_cruise : forall r speed alt, Inv r -> Inv (setCruise r speed alt).
Hypothesis Inv_departure : forall r a, Inv r -> Inv (setDeparture r a).
Hypothesis Inv_destination : forall r a, Inv r -> Inv (setDestination r a).
Hypothesis Inv_alternate : forall r a, Inv r -> Inv (addAlternate r a).

Lemma addEntries_inv r ps : Inv r -> Inv (addEntries r ps).
Proof.
  unfold addEntries. revert r. induction ps as [| p ps IH]; intros r Hr;
    [exact Hr |].
  simpl. now apply IH, Inv_entry.
Qed.

Lemma bodyItem_inv o dest token rest r :
  Inv r -> Inv (fst (bodyItem o dest token rest r)).
Proof.
  intros Hr. unfold bodyItem.
  destruct (String.eqb token "DCT"); [exact Hr |].
  destruct (parseSpeedAlt token) as [[speed alt] |]; [now apply Inv_cruise |].
  destruct (airwayLeg token (lastPoint r) (head rest)) as [q |];
    [now apply Inv_entry |].
  destruct (procedure o dest token rest r) as [[fixes consumed] |];
    [now apply addEntries_inv |].
  destruct (coordinate o token) as [p |]; [now apply Inv_entry |].
  destruct (resolveIdent (lastPoint r) token) as [| p | p]; simpl.
  - now apply Inv_message.
  - now apply Inv_entry.
  - now apply Inv_message, Inv_entry.
Qed.

Lemma readBody_inv o dest tokens r : Inv r -> Inv (readBody o dest tokens r).
Proof.
  remember (length tokens) as n eqn:Hn.
  revert tokens r Hn. induction n as [n IH] using lt_wf_ind.
  intros [| token rest] r Hn Hr; [exact Hr |].
  cbn [readBody].
  pose proof (bodyItem_inv o dest token rest r Hr) as Hstep.
  destruct (bodyItem o dest token rest r) as [r' consumed]. simpl in Hstep.
  destruct rest as [| next rest']; [exact Hstep |].
  simpl in Hn.
  destruct consumed; (eapply IH; [| reflexivity | exact Hstep]); simpl; lia.
Qed.

Lemma readStart_inv o token r : Inv r -> Inv (fst (readStart o token r)).
Proof.
  intros Hr. unfold readStart.
  destruct (rs.has o rs.READ_NO_AIRPORTS); [exact Hr |].
  destruct (resolveAirport token) as [a |]; simpl.
  - now apply Inv_departure, Inv_entry.
  - now apply Inv_message.
Qed.

Lemma readEnd_inv dest r : Inv r -> Inv (readEnd dest r).
Proof.
  intros Hr. unfold readEnd. destruct dest as [a |]; [| exact Hr].
  now apply Inv_destination, Inv_entry.
Qed.

Lemma readAlternates_inv tokens r : Inv r -> Inv (readAlternates tokens r).
Proof.
  revert r. induction tokens as [| token rest IH]; intros r Hr; [exact Hr |].
  simpl. destruct (resolveAirport token).
  - apply IH. now apply Inv_alternate.
  - now apply Inv_message.
Qed.

Lemma readTokens_inv o tokens r : Inv r -> Inv (readTokens o tokens r).
Proof.
  intros Hr. unfold readTokens. destruct tokens as [| first rest]; [exact Hr |].
  destruct (sections o rest) as [[body endToken] alts].
  pose proof (readStart_inv o first r Hr) as Hstart.
  destruct (readStart o first r) as [r1 firstToBody]. simpl in Hstart.
  now apply readAlternates_inv, readEnd_inv, readBody_inv.
Qed.
End Invariant.

(** Entries and messages are only ever appended. *)
Lemma readTokens_grows o tokens r :
  exists new more,
    entries (flightplan (readTokens o tokens r)) = entries (flightplan r) ++ new /\
    messages (readTokens o tokens r) = messages r ++ more.
Proof.
  apply (readTokens_inv
           (fun r' => exists new more,
                entries (flightplan r') = entries (flightplan r) ++ new /\
                messages r' = messages r ++ more)).
  - intros r' p aw (new & more & He & Hm).
    exists (new ++ [{| point := p; airway := aw; altitude := None |}]), more.
    simpl. now rewrite He, Hm, app_assoc.
  - intros r' msg (new & more & He & Hm). exists new, (more ++ [msg]).
    simpl. now rewrite He, Hm, app_assoc.
  - intros r' speed alt (new & more & He & Hm). now exists new, more.
  - intros r' a (new & more & He & Hm). now exists new, more.
  - intros r' a (new & more & He & Hm). now exists new, more.
  - intros r' a (new & more & He & Hm). now exists new, more.
  - exists [], []. now rewrite !app_nil_r.
Qed.

Lemma readBody_grows o dest tokens r :
  exists new,
    entries (flightplan (readBody o dest tokens r)) = entries (flightplan r) ++ new.
Proof.
  apply (readBody_inv
           (fun r' => exists new,
                entries (flightplan r') = entries (flightplan r) ++ new)).
  - intros r' p aw (new & He).
    exists (new ++ [{| point := p; airway := aw; altitude := None |}]).
    simpl. now rewrite He, app_assoc.
  - intros r' msg (new & He). now exists new.
  - intros r' speed alt (new & He). now exists new.
  - exists []. now rewrite app_nil_r.
Qed.

(** *** The tie-break *)

Lemma notFarther_refl prev p : notFarther prev p p.
Proof. unfold notFarther. lia. Qed.

Lemma notFarther_trans prev p q s :
  notFarther prev p q -> notFarther prev q s -> notFarther prev p s.
Proof. unfold notFarther. lia. Qed.

Lemma nearer_cases prev best p :
  nearer prev best p = best \/ nearer prev best p = p.
Proof. unfold nearer. destruct (_ || _); auto. Qed.

Lemma nearer_notFarther prev best p :
  notFarther prev (nearer prev best p) best /\
  notFarther prev (nearer prev best p) p.
Proof.
  unfold nearer, notFarther.
  destruct (distanceFrom prev p <? distanceFrom prev best) eqn:Hlt; simpl.
  - apply Z.ltb_lt in Hlt. lia.
  - apply Z.ltb_ge in Hlt.
    destruct (distanceFrom prev p =? distanceFrom prev best) eqn:Heq; simpl.
    + apply Z.eqb_eq in Heq.
      destruct (NavPoint.getId p <? NavPoint.getId best) eqn:Hid.
      * apply Z.ltb_lt in Hid. lia.
      * apply Z.ltb_ge in Hid. lia.
    + apply Z.eqb_neq in Heq. lia.
Qed.

Lemma nearest_in prev first others :
  nearest prev first others ∈ first :: others.
Proof.
  unfold nearest. revert first.
  induction others as [| p ps IH]; intros first; [apply list_elem_of_here |].
  simpl. specialize (IH (nearer prev first p)).
  apply elem_of_cons in IH as [IH | IH].
  + rewrite IH. destruct (nearer_cases prev first p) as [-> | ->];
      [apply list_elem_of_here | apply list_elem_of_further, list_elem_of_here].
  + now do 2 apply list_elem_of_further.
Qed.

(** The candidate that is taken comes first in the tie-break. *)
Lemma nearest_notFarther prev first others q :
  q ∈ first :: others -> notFarther prev (nearest prev first others) q.
Proof.
  unfold nearest. revert first q.
  induction others as [| p ps IH]; intros first q Hq.
  - simpl. apply list_elem_of_singleton in Hq as ->. apply notFarther_refl.
  - simpl. pose proof (nearer_notFarther prev first p) as [Hb Hp].
    assert (Hfold : notFarther prev (fold_left (nearer prev) ps (nearer prev first p))
                                    (nearer prev first p))
      by apply IH, list_elem_of_here.
    apply elem_of_cons in Hq as [-> | Hq];
      [eapply notFarther_trans; eassumption |].
    apply elem_of_cons in Hq as [-> | Hq];
      [eapply notFarther_trans; eassumption |].
    now apply IH, list_elem_of_further.
Qed.

(** A candidate that comes before every other one is the one taken. *)
Lemma nearest_found prev p first others :
  first = p \/ p ∈ others ->
  (forall q, q ∈ first :: others -> q = p \/ nearerThan prev p q) ->
  nearest prev first others = p.
Proof.
  unfold nearest. revert first.
  induction others as [| c cs IH]; intros first Hp Hall.
  - destruct Hp as [-> | Hp]; [reflexivity | now apply elem_of_nil in Hp].
  - simpl. apply IH.
    + destruct Hp as [-> | Hp].
      * left. destruct (Hall c) as [-> | Hc];
          [apply list_elem_of_further, list_elem_of_here | |].
        -- now destruct (nearer_cases prev p p).
        -- unfold nearer, nearerThan in *.
           destruct (distanceFrom prev c <? distanceFrom prev p) eqn:Hlt;
             [apply Z.ltb_lt in Hlt; lia |].
           destruct (distanceFrom prev c =? distanceFrom prev p) eqn:Heq;
             [| reflexivity].
           destruct (NavPoint.getId c <? NavPoint.getId p) eqn:Hid;
             [| reflexivity].
           apply Z.eqb_eq in Heq. apply Z.ltb_lt in Hid. lia.
      * apply elem_of_cons in Hp as [-> | Hp]; [| now right].
        left. destruct (Hall first) as [-> | Hf]; [apply list_elem_of_here | |].
        -- now destruct (nearer_cases prev c c).
        -- unfold nearer, nearerThan in *.
           destruct (distanceFrom prev c <? distanceFrom prev first) eqn:Hlt;
             [reflexivity |].
           apply Z.ltb_ge in Hlt.
           destruct (distanceFrom prev c =? distanceFrom prev first) eqn:Heq;
             [| apply Z.eqb_neq in Heq; lia].
           destruct (NavPoint.getId c <? NavPoint.getId first) eqn:Hid;
             [reflexivity |].
           apply Z.ltb_ge in Hid. lia.
    + intros q Hq. apply elem_of_cons in Hq as [-> | Hq].
      * destruct (nearer_cases prev first c) as [-> | ->]; apply Hall;
          [apply list_elem_of_here | apply list_elem_of_further, list_elem_of_here].
      * now apply Hall, list_elem_of_further, list_elem_of_further.
Qed.

Lemma resolveIdent_found prev p :
  navaidFound prev p ->
  resolveIdent (Some prev) (NavPoint.ident p) = Unique p \/
  resolveIdent (Some prev) (NavPoint.ident p) = Ambiguous p.
Proof.
  intros [Hin Hall]. unfold resolveIdent, candidates.
  destruct (navaidsByIdent (NavPoint.ident p)) as [| c [| c' cs]] eqn:Hc.
  - now apply elem_of_nil in Hin.
  - left. apply list_elem_of_singleton in Hin. now subst.
  - right. f_equal. apply nearest_found; [| exact Hall].
    apply elem_of_cons in Hin as [-> | Hin]; auto.
Qed.

End ReaderSteps.

(** ** The diagnostics tell the tokens and the kinds apart *)

Section Diagnostics.
Context `{P : PunctuationNoise}.

Lemma length_append (s t : string) :
  String.length (s ++ t) = (String.length s + String.length t)%nat.
Proof. induction s as [| c s IH]; simpl; [reflexivity | now rewrite IH]. Qed.

Lemma append_inv_tail (s t u : string) : (s ++ u = t ++ u)%string -> s = t.
Proof.
  revert t. induction s as [| c s IH]; intros [| d t] H.
  - reflexivity.
  - apply (f_equal String.length) in H.
    rewrite !length_append in H. simpl in H. lia.
  - apply (f_equal String.length) in H.
    rewrite !length_append in H. simpl in H. lia.
  - simpl in H. injection H as -> H. f_equal. now apply IH.
Qed.

Lemma append_empty_l (s : string) : ("" ++ s)%string = s.
Proof. reflexivity. Qed.

Lemma unresolvedMessage_inj (s t : string) :
  unresolvedMessage s = unresolvedMessage t -> s = t.
Proof.
  unfold unresolvedMessage. cbn [String.append]. intros H.
  repeat (injection H as H). rewrite !append_empty_l in H.
  now apply append_inv_tail in H.
Qed.

Lemma ambiguousMessage_inj (s t : string) :
  ambiguousMessage s = ambiguousMessage t -> s = t.
Proof.
  unfold ambiguousMessage. cbn [String.append]. intros H.
  repeat (injection H as H). rewrite !append_empty_l in H.
  now apply append_inv_tail in H.
Qed.

Lemma ambiguous_not_unresolved (s t : string) :
  ambiguousMessage s <> unresolvedMessage t.
Proof. discriminate. Qed.

Lemma departure_not_unresolved (s t : string) :
  departureMessage s <> unresolvedMessage t.
Proof. discriminate. Qed.

Lemma departure_not_ambiguous (s t : string) :
  departureMessage s <> ambiguousMessage t.
Proof. discriminate. Qed.

Lemma alternates_not_unresolved (ts : list string) (t : string) :
  alternatesMessage ts <> unresolvedMessage t.
Proof. discriminate. Qed.

Lemma alternates_not_ambiguous (ts : list string) (t : string) :
  alternatesMessage ts <> ambiguousMessage t.
Proof. discriminate. Qed.
End Diagnostics.

(** ** The sections of a text *)

Section Sections.
Context `{G : AtoolsGeo} `{E : rs.Enumerators} `{P : PunctuationNoise}
        `{DB : !NavDatabase}.

Lemma splitTrailing_app (p : string -> bool) (tokens front run : list string) :
  splitTrailing p tokens = (front, run) ->
  tokens = front ++ run /\ forallb p run = true.
Proof.
  revert front run. induction tokens as [| token rest IH]; intros front run H.
  - injection H as <- <-. now split.
  - simpl in H. destruct (splitTrailing p rest) as [front' run'] eqn:Hrest.
    destruct (IH _ _ eq_refl) as [-> Hrun].
    destruct front' as [| f front'].
    + destruct (p token) eqn:Ht; injection H as <- <-.
      * split; [reflexivity |]. simpl. now rewrite Ht.
      * now split.
    + injection H as <- <-. now split.
Qed.

Lemma splitTrailing_run (p : string -> bool) (run : list string) :
  forallb p run = true -> splitTrailing p run = ([], run).
Proof.
  induction run as [| token run IH]; [reflexivity |]. simpl.
  intros H. apply andb_true_iff in H as [Ht Hrun].
  now rewrite (IH Hrun), Ht.
Qed.

Lemma splitTrailing_front (p : string -> bool) (body run : list string) :
  forallb p run = true ->
  match last body with Some token => p token = false | None => True end ->
  splitTrailing p (body ++ run) = (body, run).
Proof.
  intros Hrun. induction body as [| token body IH]; intros Hlast.
  - now apply splitTrailing_run.
  - destruct body as [| token' body'].
    + simpl in *. now rewrite (splitTrailing_run _ _ Hrun), Hlast.
    + change ((token :: token' :: body') ++ run)
        with (token :: ((token' :: body') ++ run)).
      cbn [splitTrailing]. rewrite IH by exact Hlast. reflexivity.
Qed.

Lemma splitLast_snoc (body : list string) (token : string) :
  splitLast (body ++ [token]) = (body, Some token).
Proof.
  unfold splitLast. rewrite rev_app_distr. simpl. now rewrite rev_involutive.
Qed.

Lemma splitLast_app (tokens body : list string) (l : option string) :
  splitLast tokens = (body, l) -> tokens = body ++ optionTokens l.
Proof.
  unfold splitLast. destruct (rev tokens) as [| x front] eqn:Hrev.
  - intros [= <- <-]. apply (f_equal (@rev string)) in Hrev.
    now rewrite rev_involutive in Hrev.
  - intros [= <- <-]. apply (f_equal (@rev string)) in Hrev.
    now rewrite rev_involutive in Hrev.
Qed.

(** The sections are the tokens, in their order; the alternates are
    airports, and with them the token of the destination is one. *)
Lemma sections_app o tokens body endToken alts :
  sections o tokens = (body, endToken, alts) ->
  tokens = body ++ optionTokens endToken ++ alts /\
  forallb isAirport alts = true /\
  (alts <> [] -> forallb isAirport (optionTokens endToken) = true).
Proof.
  unfold sections.
  destruct (if rs.has o rs.READ_ALTERNATES
            then splitTrailing isAirport tokens else (tokens, []))
    as [front run] eqn:Hsplit.
  assert (Hrun : tokens = front ++ run /\ forallb isAirport run = true).
  { destruct (rs.has o rs.READ_ALTERNATES).
    - now apply splitTrailing_app.
    - injection Hsplit as <- <-. now rewrite app_nil_r. }
  destruct Hrun as [-> Hrun].
  destruct run as [| dest alts'].
  - destruct (splitLast front) as [body' l] eqn:Hlast.
    intros [= <- <- <-]. rewrite !app_nil_r.
    split; [now apply splitLast_app | split; [reflexivity | congruence]].
  - intros [= <- <- <-]. simpl in Hrun. apply andb_true_iff in Hrun as [Hd Ha].
    split; [reflexivity | split; [exact Ha |]]. intros _. simpl. now rewrite Hd.
Qed.
End Sections.

(** ** Plain names in the body *)

Section PlainNames.
Context `{G : AtoolsGeo} `{E : rs.Enumerators} `{P : PunctuationNoise}
        `{DB : !NavDatabase}.

Lemma procedureFixes_none a parts :
  procedureLegs a parts = [] -> procedureFixes a parts = None.
Proof. unfold procedureFixes. now intros ->. Qed.

Lemma procedureFixes_some a parts fixes :
  procedureFixes a parts = Some fixes ->
  fixes = procedureLegs a parts /\ fixes <> [].
Proof.
  unfold procedureFixes. destruct (procedureLegs a parts); [discriminate |].
  intros [= <-]. now split.
Qed.

Lemma procedureOf_none o dest r parts following :
  (forall a, procedureLegs a parts = [] /\ procedureLegs a (rev parts) = []) ->
  procedureOf o dest r parts following = None.
Proof.
  intros Hnone. unfold procedureOf.
  destruct (atDeparture r) as [a |]; [apply procedureFixes_none, Hnone |].
  destruct dest as [a |], following; try reflexivity.
  apply procedureFixes_none.
  destruct (rs.has o rs.STAR_REV_TRANSITION); apply Hnone.
Qed.

Lemma procedure_plainName o dest t rest r :
  noProcedurePart t -> procedure o dest t rest r = None.
Proof.
  intros [Hpart Hdotted]. unfold procedure.
  rewrite (procedureOf_none o dest r (dottedParts t) rest Hdotted).
  destruct rest as [| next rest']; [reflexivity |].
  destruct (rs.has o rs.SID_STAR_SPACE); [| reflexivity].
  rewrite procedureOf_none; [reflexivity |].
  intros a. split; apply Hpart;
    [apply list_elem_of_here | apply list_elem_of_further, list_elem_of_here].
Qed.

Lemma airwayLeg_plainName t prev next :
  (forall p, airwayFixes t p = []) -> airwayLeg t prev next = None.
Proof.
  intros Hnone. unfold airwayLeg. destruct prev, next; try reflexivity.
  now rewrite Hnone.
Qed.

(** What the body makes of a plain name. *)
Lemma bodyItem_plainName o dest t rest r :
  plainName t ->
  bodyItem o dest t rest r =
  match navaidsByIdent t with
  | [] => (addMessage r (unresolvedMessage t), false)
  | [p] => (addEntry r p None, false)
  | p :: ps =>
      (addMessage (addEntry r (nearest (lastPoint r) p ps) None) (ambiguousMessage t),
       false)
  end.
Proof.
  intros ([Hdct Hcruise] & _ & [Haw _] & Hproc & Hco).
  unfold bodyItem.
  rewrite Hdct, Hcruise, (airwayLeg_plainName _ _ _ Haw),
    (procedure_plainName _ _ _ _ _ Hproc).
  unfold coordinate. rewrite Hco. unfold resolveIdent, candidates.
  now destruct (navaidsByIdent t) as [| p [| q ps]].
Qed.

(** The token in front of a plain name does not take it along. *)
Lemma bodyItem_not_consumed o dest s t rest r :
  noAirway t -> noProcedurePart t ->
  snd (bodyItem o dest s (t :: rest) r) = false.
Proof.
  intros [_ Hfix] [Hpart _]. unfold bodyItem.
  destruct (String.eqb s "DCT"); [reflexivity |].
  destruct (parseSpeedAlt s) as [[speed alt] |]; [reflexivity |].
  destruct (airwayLeg s (lastPoint r) (head (t :: rest))) as [q |] eqn:Haw.
  { exfalso. unfold airwayLeg in Haw.
    destruct (lastPoint r) as [p |]; [| discriminate]. simpl in Haw.
    apply List.find_some in Haw as [Hin Hq].
    apply String.eqb_eq in Hq. apply list_elem_of_In in Hin.
    exact (Hfix _ _ _ Hin Hq). }
  unfold procedure.
  destruct (rs.has o rs.SID_STAR_SPACE).
  - rewrite (procedureOf_none o dest r [s; t] rest).
    + destruct (procedureOf o dest r (dottedParts s) (t :: rest));
        [reflexivity |].
      destruct (coordinate o s); [reflexivity |].
      now destruct (resolveIdent (lastPoint r) s).
    + intros a. split; apply Hpart;
        [apply list_elem_of_further, list_elem_of_here | apply list_elem_of_here].
  - destruct (procedureOf o dest r (dottedParts s) (t :: rest));
      [reflexivity |].
    destruct (coordinate o s); [reflexivity |].
    now destruct (resolveIdent (lastPoint r) s).
Qed.

(** The messages that a step adds name its token. *)
Lemma bodyItem_messages o dest s rest r :
  exists more,
    messages (fst (bodyItem o dest s rest r)) = messages r ++ more /\
    (more = [] \/ more = [unresolvedMessage s] \/ more = [ambiguousMessage s]).
Proof.
  unfold bodyItem.
  destruct (String.eqb s "DCT");
    [exists []; rewrite app_nil_r; auto |].
  destruct (parseSpeedAlt s) as [[speed alt] |];
    [exists []; rewrite app_nil_r; auto |].
  destruct (airwayLeg s (lastPoint r) (head rest));
    [exists []; rewrite app_nil_r; auto |].
  destruct (procedure o dest s rest r) as [[fixes consumed] |].
  { exists []. simpl. rewrite messages_addEntries, app_nil_r. auto. }
  destruct (coordinate o s); [exists []; rewrite app_nil_r; auto |].
  destruct (resolveIdent (lastPoint r) s); simpl.
  - exists [unresolvedMessage s]. auto.
  - exists []. rewrite app_nil_r. auto.
  - exists [ambiguousMessage s]. auto.
Qed.

(** *** Counting a diagnostic *)

Lemma countOf_addMessage msg r m :
  countOf msg (addMessage r m) =
  (countOf msg r + if string_dec m msg then 1 else 0)%nat.
Proof.
  unfold countOf. simpl. rewrite count_occ_app. simpl.
  now destruct (string_dec m msg).
Qed.

Section Count.
Variable o : rs.RouteStringOptions.
Variable t : string.
Variable msg : string.
Variable n : nat.
Hypothesis Hplain : plainName t.
Hypothesis Hother :
  forall s, s <> t -> msg <> unresolvedMessage s /\ msg <> ambiguousMessage s.
Hypothesis Hstep :
  forall dest rest r,
    countOf msg (fst (bodyItem o dest t rest r)) = (countOf msg r + n)%nat.

Lemma countOf_bodyItem dest s rest r :
  countOf msg (fst (bodyItem o dest s rest r)) =
  (countOf msg r + if string_dec s t then n else 0)%nat.
Proof.
  destruct (string_dec s t) as [-> | Hne]; [apply Hstep |].
  destruct (bodyItem_messages o dest s rest r) as (more & Hm & Hmore).
  destruct (Hother s Hne) as [Hu Ha].
  unfold countOf. rewrite Hm, count_occ_app.
  destruct Hmore as [-> | [-> | ->]]; cbn [count_occ].
  - lia.
  - destruct (string_dec (unresolvedMessage s) msg); [congruence | lia].
  - destruct (string_dec (ambiguousMessage s) msg); [congruence | lia].
Qed.

Lemma countOf_readBody dest tokens r :
  countOf msg (readBody o dest tokens r) =
  (countOf msg r + n * count_occ string_dec tokens t)%nat.
Proof.
  remember (length tokens) as k eqn:Hk.
  revert tokens r Hk. induction k as [k IH] using lt_wf_ind.
  intros [| s rest] r Hk; [simpl; lia |].
  cbn [readBody].
  pose proof (countOf_bodyItem dest s rest r) as Hitem.
  destruct (bodyItem o dest s rest r) as [r' consumed] eqn:Hbody.
  simpl in Hitem.
  destruct rest as [| next rest'].
  - rewrite Hitem. simpl. destruct (string_dec s t); lia.
  - simpl in Hk.
    assert (Hnext : consumed = true -> next <> t).
    { intros -> ->. destruct Hplain as (_ & _ & Haw & Hproc & _).
      pose proof (bodyItem_not_consumed o dest s t rest' r Haw Hproc) as Hc.
      rewrite Hbody in Hc. discriminate. }
    destruct consumed.
    + rewrite (IH (length rest')) by (simpl; lia).
      rewrite Hitem. cbn [count_occ].
      destruct (string_dec s t), (string_dec next t); try lia;
        exfalso; now apply (Hnext eq_refl).
    + rewrite (IH (length (next :: rest'))) by (simpl; lia).
      rewrite Hitem. cbn [count_occ].
      destruct (string_dec s t), (string_dec next t); lia.
Qed.

Hypothesis Hdeparture : forall s, departureMessage s <> msg.
Hypothesis Halternates : forall ts, alternatesMessage ts <> msg.

Lemma countOf_readAlternates tokens r :
  countOf msg (readAlternates tokens r) = countOf msg r.
Proof.
  revert r. induction tokens as [| token rest IH]; intros r; [reflexivity |].
  simpl. destruct (resolveAirport token).
  - now rewrite IH.
  - rewrite countOf_addMessage.
    destruct (string_dec (alternatesMessage (token :: rest)) msg); [| lia].
    now destruct (Halternates (token :: rest)).
Qed.

Lemma count_occ_airports (tokens : list string) :
  forallb isAirport tokens = true -> count_occ string_dec tokens t = 0%nat.
Proof.
  destruct Hplain as (_ & Hair & _).
  induction tokens as [| s rest IH]; [reflexivity |]. simpl.
  intros H. apply andb_true_iff in H as [Hs Hrest].
  destruct (string_dec s t) as [-> | _]; [| now apply IH].
  unfold isAirport, resolveAirport in Hs. now rewrite Hair in Hs.
Qed.

(** Over the whole text, the diagnostic is added once for every place at
    which the plain name stands. *)
Lemma countOf_readTokens tokens r :
  countOf msg (readTokens o tokens r) =
  (countOf msg r + n * count_occ string_dec tokens t)%nat.
Proof.
  unfold readTokens. destruct tokens as [| first rest]; [simpl; lia |].
  destruct (sections o rest) as [[body endToken] alts] eqn:Hsec.
  destruct (sections_app _ _ _ _ _ Hsec) as (-> & Halts & _).
  destruct (readStart o first r) as [r1 firstToBody] eqn:Hstart.
  rewrite countOf_readAlternates.
  set (dest := destinationOf o endToken).
  assert (Hend : countOf msg (readEnd dest (readBody o dest
                   (bodyStream first firstToBody body endToken dest) r1)) =
                 countOf msg (readBody o dest
                   (bodyStream first firstToBody body endToken dest) r1))
    by (unfold readEnd; now destruct dest).
  rewrite Hend, countOf_readBody. clear Hend.
  destruct Hplain as (_ & Hair & _).
  (* the first token *)
  assert (Hfirst : countOf msg r1 = countOf msg r /\
                   count_occ string_dec (if firstToBody then [first] else []) t =
                   count_occ string_dec [first] t).
  { unfold readStart in Hstart.
    destruct (rs.has o rs.READ_NO_AIRPORTS); [now injection Hstart as <- <- |].
    destruct (resolveAirport first) as [a |] eqn:Ha; injection Hstart as <- <-.
    - split; [reflexivity |]. simpl.
      destruct (string_dec first t) as [-> | _]; [| reflexivity].
      unfold resolveAirport in Ha. congruence.
    - split; [| reflexivity]. rewrite countOf_addMessage.
      destruct (string_dec (departureMessage first) msg); [| lia].
      now destruct (Hdeparture first). }
  destruct Hfirst as [-> Hfirst].
  (* the last token *)
  assert (Hlast : count_occ string_dec
                    (match dest with Some _ => [] | None => optionTokens endToken end) t =
                  count_occ string_dec (optionTokens endToken) t).
  { subst dest. unfold destinationOf.
    destruct (rs.has o rs.READ_NO_AIRPORTS); [reflexivity |].
    destruct endToken as [e |]; [| reflexivity]. simpl.
    destruct (resolveAirport e) as [a |] eqn:Ha; [| reflexivity]. simpl.
    destruct (string_dec e t) as [-> | _]; [| reflexivity].
    unfold resolveAirport in Ha. congruence. }
  unfold bodyStream.
  change (first :: body ++ optionTokens endToken ++ alts)
    with ([first] ++ body ++ optionTokens endToken ++ alts).
  rewrite !count_occ_app, Hfirst, Hlast, (count_occ_airports alts Halts).
  lia.
Qed.
End Count.

End PlainNames.

(** ** Where the entries come from *)

Section Justified.
Context `{G : AtoolsGeo} `{E : rs.Enumerators} `{P : PunctuationNoise}
        `{DB : !NavDatabase}.
Variable tokens : list string.

Lemma justifiedFrom_snoc prev es e :
  justifiedFrom tokens prev (es ++ [e]) <->
  justifiedFrom tokens prev es /\
  justified tokens
    (match last es with Some x => Some (point x) | None => prev end) e.
Proof.
  revert prev. induction es as [| a es IH]; intros prev.
  - simpl. tauto.
  - change ((a :: es) ++ [e]) with (a :: (es ++ [e])).
    cbn [justifiedFrom]. rewrite IH.
    destruct es as [| b es']; [simpl; tauto |].
    change (last (a :: b :: es')) with (last (b :: es')).
    destruct (last (b :: es')) eqn:Hlast; [tauto |].
    apply last_None in Hlast. discriminate.
Qed.

Lemma justifiedFrom_split prev es1 e es2 :
  justifiedFrom tokens prev (es1 ++ e :: es2) ->
  justified tokens
    (match last es1 with Some x => Some (point x) | None => prev end) e.
Proof.
  revert prev. induction es1 as [| a es1 IH]; intros prev.
  - simpl. tauto.
  - change ((a :: es1) ++ e :: es2) with (a :: (es1 ++ e :: es2)).
    cbn [justifiedFrom]. intros [_ H]. specialize (IH _ H).
    destruct es1 as [| b es1']; [exact IH |].
    change (last (a :: b :: es1')) with (last (b :: es1')).
    destruct (last (b :: es1')) eqn:Hlast; [exact IH |].
    apply last_None in Hlast. discriminate.
Qed.

Lemma justifiedFrom_Forall prev es :
  justifiedFrom tokens prev es ->
  Forall (fun e => exists prev', justified tokens prev' e) es.
Proof.
  revert prev. induction es as [| e es IH]; intros prev; [constructor |].
  intros [He Hes]. constructor; [now exists prev | eapply IH, Hes].
Qed.

Lemma justifiedPlan_addEntry r p aw :
  justifiedPlan tokens r ->
  justified tokens (lastPoint r) {| point := p; airway := aw; altitude := None |} ->
  justifiedPlan tokens (addEntry r p aw).
Proof.
  unfold justifiedPlan, lastPoint. intros Hr He. simpl.
  apply justifiedFrom_snoc. split; [exact Hr |].
  now destruct (last (entries (flightplan r))).
Qed.

Lemma justifiedPlan_addEntries r ps :
  justifiedPlan tokens r ->
  (forall p, p ∈ ps -> exists a parts, p ∈ procedureLegs a parts) ->
  justifiedPlan tokens (addEntries r ps).
Proof.
  unfold addEntries. revert r. induction ps as [| p ps IH]; intros r Hr Hps;
    [exact Hr |].
  simpl. apply IH.
  - apply justifiedPlan_addEntry; [exact Hr |].
    destruct (Hps p (list_elem_of_here _ _)) as (a & parts & Hp).
    right. right. right. left. now exists a, parts.
  - intros q Hq. now apply Hps, list_elem_of_further.
Qed.

Lemma procedureOf_source o dest r parts following fixes :
  procedureOf o dest r parts following = Some fixes ->
  exists a parts', fixes = procedureLegs a parts'.
Proof.
  unfold procedureOf. destruct (atDeparture r) as [a |].
  - intros H. apply procedureFixes_some in H as [-> _]. eauto.
  - destruct dest as [a |], following; try discriminate.
    intros H. apply procedureFixes_some in H as [-> _]. eauto.
Qed.

Lemma procedure_source o dest token rest r fixes consumed :
  procedure o dest token rest r = Some (fixes, consumed) ->
  exists a parts, fixes = procedureLegs a parts.
Proof.
  unfold procedure.
  destruct (match rest with [] => None | _ => _ end) as [fs |] eqn:Hspaced.
  - intros [= <- _]. destruct rest as [| next rest']; [discriminate |].
    destruct (rs.has o rs.SID_STAR_SPACE); [| discriminate].
    eapply procedureOf_source, Hspaced.
  - destruct (procedureOf o dest r (dottedParts token) rest) as [fs |] eqn:Hd;
      [| discriminate].
    intros [= <- _]. eapply procedureOf_source, Hd.
Qed.

Lemma coordinate_source o token p :
  coordinate o token = Some p ->
  exists pos, coordinatesFromString token = Some pos /\
              (p = NavPoint.Coordinate token pos \/ nearestWaypoint pos = Some p).
Proof.
  unfold coordinate. destruct (coordinatesFromString token) as [pos |];
    [| discriminate].
  intros H. exists pos. split; [reflexivity |].
  destruct (rs.has o rs.READ_MATCH_WAYPOINTS).
  - destruct (nearestWaypoint pos) as [w |]; injection H as <-; auto.
  - injection H as <-. auto.
Qed.

Lemma justifiedPlan_bodyItem o dest token rest r :
  token ∈ tokens -> (forall n, head rest = Some n -> n ∈ tokens) ->
  justifiedPlan tokens r -> justifiedPlan tokens (fst (bodyItem o dest token rest r)).
Proof.
  intros Htoken Hnext Hr. unfold bodyItem.
  destruct (String.eqb token "DCT"); [exact Hr |].
  destruct (parseSpeedAlt token) as [[speed alt] |]; [exact Hr |].
  destruct (airwayLeg token (lastPoint r) (head rest)) as [q |] eqn:Haw.
  { apply justifiedPlan_addEntry; [exact Hr |].
    unfold airwayLeg in Haw.
    destruct (lastPoint r) as [p |]; [| discriminate].
    destruct (head rest) as [n |] eqn:Hn; [| discriminate].
    apply List.find_some in Haw as [Hin Hq].
    apply String.eqb_eq in Hq. apply list_elem_of_In in Hin.
    right. right. left. exists token, p. simpl.
    repeat split; auto. rewrite Hq. now apply Hnext. }
  destruct (procedure o dest token rest r) as [[fixes consumed] |] eqn:Hproc.
  { apply justifiedPlan_addEntries; [exact Hr |].
    destruct (procedure_source _ _ _ _ _ _ _ Hproc) as (a & parts & ->).
    intros p Hp. now exists a, parts. }
  destruct (coordinate o token) as [p |] eqn:Hco.
  { apply justifiedPlan_addEntry; [exact Hr |].
    destruct (coordinate_source _ _ _ Hco) as (pos & Hpos & Hp).
    right. right. right. right. exists token, pos. simpl. auto. }
  unfold resolveIdent, candidates.
  destruct (navaidsByIdent token) as [| c [| c' cs]] eqn:Hc; cbn [fst].
  - exact Hr.
  - apply justifiedPlan_addEntry; [exact Hr |].
    right. left. exists token. simpl. rewrite Hc.
    repeat split; [exact Htoken | apply list_elem_of_here |].
    intros q Hq. apply list_elem_of_singleton in Hq as ->. apply notFarther_refl.
  - change (justifiedPlan tokens
              (addEntry r (nearest (lastPoint r) c (c' :: cs)) None)).
    apply justifiedPlan_addEntry; [exact Hr |].
    right. left. exists token. cbn [point airway]. rewrite Hc.
    repeat split; [exact Htoken | apply nearest_in |].
    intros q Hq. now apply nearest_notFarther.
Qed.

Lemma justifiedPlan_readBody o dest stream r :
  (forall t, t ∈ stream -> t ∈ tokens) ->
  justifiedPlan tokens r -> justifiedPlan tokens (readBody o dest stream r).
Proof.
  remember (length stream) as n eqn:Hn.
  revert stream r Hn. induction n as [n IH] using lt_wf_ind.
  intros [| token rest] r Hn Hsub Hr; [exact Hr |].
  cbn [readBody].
  assert (Hstep : justifiedPlan tokens (fst (bodyItem o dest token rest r))).
  { apply justifiedPlan_bodyItem; [apply Hsub, list_elem_of_here | | exact Hr].
    intros x Hx. apply Hsub, list_elem_of_further.
    destruct rest; [discriminate |]. injection Hx as ->. apply list_elem_of_here. }
  destruct (bodyItem o dest token rest r) as [r' consumed]. simpl in Hstep.
  destruct rest as [| next rest']; [exact Hstep |].
  simpl in Hn.
  destruct consumed; (eapply IH; [| reflexivity | | exact Hstep]);
    try (simpl; lia); intros t Ht; apply Hsub.
  - now do 2 apply list_elem_of_further.
  - now apply list_elem_of_further.
Qed.

Lemma justifiedPlan_readTokens o ts r :
  (forall t, t ∈ ts -> t ∈ tokens) ->
  justifiedPlan tokens r -> justifiedPlan tokens (readTokens o ts r).
Proof.
  intros Hsub Hr. unfold readTokens.
  destruct ts as [| first rest]; [exact Hr |].
  destruct (sections o rest) as [[body endToken] alts] eqn:Hsec.
  destruct (sections_app _ _ _ _ _ Hsec) as (Hrest & _ & _).
  assert (Hfirst : first ∈ tokens) by apply Hsub, list_elem_of_here.
  assert (Hbody : forall t, t ∈ body -> t ∈ tokens).
  { intros t Ht. apply Hsub. rewrite Hrest. apply list_elem_of_further.
    apply elem_of_app. now left. }
  assert (Hend : forall t, endToken = Some t -> t ∈ tokens).
  { intros t ->. apply Hsub. rewrite Hrest. apply list_elem_of_further.
    apply elem_of_app. right. apply list_elem_of_here. }
  destruct (readStart o first r) as [r1 firstToBody] eqn:Hstart.
  assert (Hr1 : justifiedPlan tokens r1).
  { unfold readStart in Hstart.
    destruct (rs.has o rs.READ_NO_AIRPORTS); [now injection Hstart as <- _ |].
    destruct (resolveAirport first) as [a |] eqn:Ha; injection Hstart as <- _;
      [| exact Hr].
    change (justifiedPlan tokens (addEntry r (NavPoint.Airport a) None)).
    apply justifiedPlan_addEntry; [exact Hr |].
    left. exists first, a. auto. }
  set (dest := destinationOf o endToken).
  assert (Hr2 : justifiedPlan tokens
                  (readBody o dest (bodyStream first firstToBody body endToken dest) r1)).
  { apply justifiedPlan_readBody; [| exact Hr1].
    intros t Ht. unfold bodyStream in Ht.
    apply elem_of_app in Ht as [Ht | Ht].
    - destruct firstToBody; [| now apply elem_of_nil in Ht].
      now apply list_elem_of_singleton in Ht as ->.
    - apply elem_of_app in Ht as [Ht | Ht]; [now apply Hbody |].
      destruct dest; [now apply elem_of_nil in Ht |].
      destruct endToken as [e |]; [| now apply elem_of_nil in Ht].
      apply list_elem_of_singleton in Ht as ->. now apply Hend. }
  assert (Hr3 : justifiedPlan tokens
                  (readEnd dest
                     (readBody o dest
                        (bodyStream first firstToBody body endToken dest) r1))).
  { unfold readEnd. destruct dest as [a |] eqn:Hdest; [| exact Hr2].
    change (justifiedPlan tokens
              (addEntry (readBody o (Some a)
                           (bodyStream first firstToBody body endToken (Some a)) r1)
                 (NavPoint.Airport a) None)).
    apply justifiedPlan_addEntry; [exact Hr2 |].
    subst dest. unfold destinationOf in Hdest.
    destruct (rs.has o rs.READ_NO_AIRPORTS); [discriminate |].
    destruct endToken as [e |]; [| discriminate]. simpl in Hdest.
    left. exists e, a. auto. }
  revert Hr3. generalize (readEnd dest
                     (readBody o dest
                        (bodyStream first firstToBody body endToken dest) r1)).
  clear. intros r3 Hr3. revert r3 Hr3.
  induction alts as [| token alts IH]; intros r3 Hr3; [exact Hr3 |].
  simpl. destruct (resolveAirport token); [now apply IH | exact Hr3].
Qed.

(** What a justified entry is. *)
Lemma justified_valid prev e :
  validRecords -> justified tokens prev e -> NavPoint.isValid (point e) = true.
Proof.
  intros (Hair & Hnav & Haw & Hproc & Hsnap & Hco) H.
  destruct H as [(t & a & _ & Ha & -> & _)
               | [(t & _ & Hp & _)
               | [(name & from & _ & _ & Hp & _)
               | [(a & parts & Hp & _)
               | (t & pos & _ & Hpos & _ & [-> | Hw])]]]].
  - simpl. eapply Hair, Ha.
  - eapply Hnav, Hp.
  - eapply Haw, Hp.
  - eapply Hproc, Hp.
  - simpl. eapply Hco, Hpos.
  - eapply Hsnap, Hw.
Qed.

Lemma justified_named prev e t :
  noRecordNamed t -> coordinatesFromString t = None ->
  justified tokens prev e -> NavPoint.ident (point e) <> t.
Proof.
  intros (Hair & Hnav & Haw & Hproc & Hsnap) Hco H.
  destruct H as [(x & a & _ & Ha & -> & _)
               | [(x & _ & Hp & _)
               | [(name & from & _ & _ & Hp & _)
               | [(a & parts & Hp & _)
               | (x & pos & _ & Hpos & _ & [-> | Hw])]]]].
  - simpl. eapply Hair, Ha.
  - eapply Hnav, Hp.
  - eapply Haw, Hp.
  - eapply Hproc, Hp.
  - simpl. intros ->. congruence.
  - eapply Hsnap, Hw.
Qed.
End Justified.

(** ** Reading a text: what enters the plan and what is reported *)

Section WholeRead.
Context `{G : AtoolsGeo} `{E : rs.Enumerators} `{P : PunctuationNoise}
        `{DB : !NavDatabase}.

Lemma readRoute_justifiedFrom text o :
  justifiedFrom (cleanRouteString text) None
                (entries (flightplan (readRoute text o))).
Proof.
  unfold readRoute, createRouteFromString.
  apply (justifiedPlan_readTokens (cleanRouteString text)); [auto |].
  exact I.
Qed.

Lemma readRoute_justified text o es1 e es2 :
  entries (flightplan (readRoute text o)) = es1 ++ e :: es2 ->
  justified (cleanRouteString text) (point <$> last es1) e.
Proof.
  intros Hsplit. pose proof (readRoute_justifiedFrom text o) as H.
  rewrite Hsplit in H. apply justifiedFrom_split in H.
  now destruct (last es1).
Qed.

Lemma readRoute_valid text o :
  validRecords ->
  Forall (fun e => NavPoint.isValid (point e) = true)
         (entries (flightplan (readRoute text o))).
Proof.
  intros Hvalid.
  pose proof (justifiedFrom_Forall _ _ _ (readRoute_justifiedFrom text o)) as H.
  eapply Forall_impl; [exact H |]. intros e [prev He].
  eapply justified_valid; eassumption.
Qed.

Lemma readRoute_not_named text o t :
  noRecordNamed t -> coordinatesFromString t = None ->
  Forall (fun e => NavPoint.ident (point e) <> t)
         (entries (flightplan (readRoute text o))).
Proof.
  intros Hnamed Hco.
  pose proof (justifiedFrom_Forall _ _ _ (readRoute_justifiedFrom text o)) as H.
  eapply Forall_impl; [exact H |]. intros e [prev He].
  eapply justified_named; eassumption.
Qed.

(** The diagnostics of a plain name, over the whole text. *)
Lemma readRoute_count_unresolved text o t :
  plainName t ->
  count_occ string_dec (messages (readRoute text o)) (unresolvedMessage t) =
  match navaidsByIdent t with
  | [] => count_occ string_dec (cleanRouteString text) t
  | _ => 0%nat
  end.
Proof.
  intros Hplain. unfold readRoute, createRouteFromString.
  set (n := match navaidsByIdent t with [] => 1%nat | _ => 0%nat end).
  assert (Hother : forall s, s <> t ->
            unresolvedMessage t <> unresolvedMessage s /\
            unresolvedMessage t <> ambiguousMessage s).
  { intros s Hne. split.
    - intros Heq. apply unresolvedMessage_inj in Heq. congruence.
    - intros Heq. symmetry in Heq. now apply ambiguous_not_unresolved in Heq. }
  assert (Hstep : forall dest rest r,
            countOf (unresolvedMessage t) (fst (bodyItem o dest t rest r)) =
            (countOf (unresolvedMessage t) r + n)%nat).
  { intros dest rest r. rewrite (bodyItem_plainName o dest t rest r Hplain).
    subst n. destruct (navaidsByIdent t) as [| p [| q ps]]; cbn [fst].
    - rewrite countOf_addMessage.
      destruct (string_dec (unresolvedMessage t) (unresolvedMessage t));
        [reflexivity | contradiction].
    - unfold countOf. simpl. lia.
    - rewrite countOf_addMessage.
      destruct (string_dec (ambiguousMessage t) (unresolvedMessage t)) as [Heq |];
        [now apply ambiguous_not_unresolved in Heq |].
      unfold countOf. simpl. lia. }
  pose proof (countOf_readTokens o t (unresolvedMessage t) n Hplain Hother Hstep
                (fun s => departure_not_unresolved s t)
                (fun ts => alternates_not_unresolved ts t)) as H.
  unfold countOf in H. rewrite H. simpl.
  subst n. destruct (navaidsByIdent t); lia.
Qed.

Lemma readRoute_count_ambiguous text o t :
  plainName t ->
  count_occ string_dec (messages (readRoute text o)) (ambiguousMessage t) =
  match navaidsByIdent t with
  | _ :: _ :: _ => count_occ string_dec (cleanRouteString text) t
  | _ => 0%nat
  end.
Proof.
  intros Hplain. unfold readRoute, createRouteFromString.
  set (n := match navaidsByIdent t with _ :: _ :: _ => 1%nat | _ => 0%nat end).
  assert (Hother : forall s, s <> t ->
            ambiguousMessage t <> unresolvedMessage s /\
            ambiguousMessage t <> ambiguousMessage s).
  { intros s Hne. split.
    - apply ambiguous_not_unresolved.
    - intros Heq. apply ambiguousMessage_inj in Heq. congruence. }
  assert (Hstep : forall dest rest r,
            countOf (ambiguousMessage t) (fst (bodyItem o dest t rest r)) =
            (countOf (ambiguousMessage t) r + n)%nat).
  { intros dest rest r. rewrite (bodyItem_plainName o dest t rest r Hplain).
    subst n. destruct (navaidsByIdent t) as [| p [| q ps]]; cbn [fst].
    - rewrite countOf_addMessage.
      destruct (string_dec (unresolvedMessage t) (ambiguousMessage t)) as [Heq |];
        [symmetry in Heq; now apply ambiguous_not_unresolved in Heq | lia].
    - unfold countOf. simpl. lia.
    - rewrite countOf_addMessage.
      destruct (string_dec (ambiguousMessage t) (ambiguousMessage t));
        [| contradiction].
      unfold countOf. simpl. lia. }
  pose proof (countOf_readTokens o t (ambiguousMessage t) n Hplain Hother Hstep
                (fun s => departure_not_ambiguous s t)
                (fun ts => alternates_not_ambiguous ts t)) as H.
  unfold countOf in H. rewrite H. simpl.
  subst n. destruct (navaidsByIdent t) as [| p [| q ps]]; lia.
Qed.

(** A plain name that the navaid lookup knows enters the plan where it
    stands in the body, as the candidate that the tie-break puts first. *)
Lemma readBody_inserts o dest t stream r :
  plainName t -> navaidsByIdent t <> [] -> t ∈ stream ->
  exists es1 e es2,
    entries (flightplan (readBody o dest stream r)) = es1 ++ e :: es2 /\
    point e ∈ navaidsByIdent t /\
    forall q, q ∈ navaidsByIdent t -> notFarther (point <$> last es1) (point e) q.
Proof.
  intros Hplain Hsome.
  remember (length stream) as k eqn:Hk.
  revert stream r Hk. induction k as [k IH] using lt_wf_ind.
  intros [| s rest] r Hk Hin; [now apply elem_of_nil in Hin |].
  destruct (string_dec s t) as [Heq | Hne].
  - subst s.
    pose proof (bodyItem_plainName o dest t rest r Hplain) as Hitem.
    assert (Hentry : exists p msgs,
               p ∈ navaidsByIdent t /\
               (forall q, q ∈ navaidsByIdent t -> notFarther (lastPoint r) p q) /\
               exists r', bodyItem o dest t rest r = (r', false) /\
                          entries (flightplan r') =
                          entries (flightplan r)
                          ++ [{| point := p; airway := None; altitude := None |}] /\
                          messages r' = messages r ++ msgs).
    { destruct (navaidsByIdent t) as [| p [| q ps]] eqn:Hc; [contradiction | |].
      - exists p, []. split; [apply list_elem_of_here |]. split.
        + intros x Hx. apply list_elem_of_singleton in Hx as ->.
          apply notFarther_refl.
        + eexists. split; [exact Hitem |]. simpl. now rewrite app_nil_r.
      - exists (nearest (lastPoint r) p (q :: ps)), [ambiguousMessage t].
        split; [apply nearest_in |]. split.
        + intros x Hx. now apply nearest_notFarther.
        + eexists. split; [exact Hitem |]. now split. }
    destruct Hentry as (p & msgs & Hp & Hnear & r' & Hstep & Hentries & _).
    rewrite (readBody_skip _ _ _ _ _ _ Hstep).
    destruct (readBody_grows o dest rest r') as (new & Hnew).
    exists (entries (flightplan r)),
           {| point := p; airway := None; altitude := None |}, new.
    split; [| split; [exact Hp | exact Hnear]].
    rewrite Hnew, Hentries, <- app_assoc. reflexivity.
  - apply elem_of_cons in Hin as [Heq | Hin]; [congruence |].
    cbn [readBody].
    destruct (bodyItem o dest s rest r) as [r' consumed] eqn:Hbody.
    destruct rest as [| next rest']; [now apply elem_of_nil in Hin |].
    simpl in Hk. destruct consumed.
    + apply (IH (length rest')); [simpl; lia | reflexivity |].
      apply elem_of_cons in Hin as [Heq | Hin]; [subst next | exact Hin].
      destruct Hplain as (_ & _ & Haw & Hproc & _).
      pose proof (bodyItem_not_consumed o dest s t rest' r Haw Hproc) as Hc.
      rewrite Hbody in Hc. discriminate.
    + apply (IH (length (next :: rest'))); [simpl; lia | reflexivity | exact Hin].
Qed.

Lemma readAlternates_entries tokens r :
  entries (flightplan (readAlternates tokens r)) = entries (flightplan r).
Proof.
  revert r. induction tokens as [| token rest IH]; intros r; [reflexivity |].
  simpl. destruct (resolveAirport token); [now rewrite IH | reflexivity].
Qed.

(** The tokens that are read in the body: all but the airports at both
    ends and the alternates. *)
Lemma bodyStream_plainName o t first rest body endToken alts r r1 firstToBody :
  airportByIdent t = None ->
  sections o rest = (body, endToken, alts) ->
  readStart o first r = (r1, firstToBody) ->
  t ∈ first :: rest ->
  t ∈ bodyStream first firstToBody body endToken (destinationOf o endToken).
Proof.
  intros Hair Hsec Hstart Hin.
  destruct (sections_app _ _ _ _ _ Hsec) as (-> & Halts & _).
  unfold bodyStream. apply elem_of_cons in Hin as [-> | Hin].
  - apply elem_of_app. left. unfold readStart in Hstart.
    destruct (rs.has o rs.READ_NO_AIRPORTS);
      [injection Hstart as _ <-; apply list_elem_of_here |].
    destruct (resolveAirport first) as [a |] eqn:Ha; injection Hstart as _ <-;
      [| apply list_elem_of_here].
    unfold resolveAirport in Ha. congruence.
  - apply elem_of_app. right. apply elem_of_app in Hin as [Hin | Hin];
      [apply elem_of_app; now left |].
    apply elem_of_app. right. apply elem_of_app in Hin as [Hin | Hin].
    + destruct endToken as [e |]; [| now apply elem_of_nil in Hin].
      apply list_elem_of_singleton in Hin as ->.
      unfold destinationOf. destruct (rs.has o rs.READ_NO_AIRPORTS);
        [apply list_elem_of_here |].
      simpl. unfold resolveAirport. rewrite Hair. apply list_elem_of_here.
    + exfalso. rewrite forallb_forall in Halts.
      apply list_elem_of_In in Hin. specialize (Halts _ Hin).
      unfold isAirport, resolveAirport in Halts. now rewrite Hair in Halts.
Qed.

Lemma readRoute_inserts text o t :
  plainName t -> navaidsByIdent t <> [] -> t ∈ cleanRouteString text ->
  exists es1 e es2,
    entries (flightplan (readRoute text o)) = es1 ++ e :: es2 /\
    point e ∈ navaidsByIdent t /\
    forall q, q ∈ navaidsByIdent t -> notFarther (point <$> last es1) (point e) q.
Proof.
  intros Hplain Hsome Hin. unfold readRoute, createRouteFromString, readTokens.
  destruct (cleanRouteString text) as [| first rest];
    [now apply elem_of_nil in Hin |].
  destruct (sections o rest) as [[body endToken] alts] eqn:Hsec.
  destruct (readStart o first _) as [r1 firstToBody] eqn:Hstart.
  rewrite readAlternates_entries.
  set (dest := destinationOf o endToken).
  assert (Hstream : t ∈ bodyStream first firstToBody body endToken dest).
  { destruct Hplain as (_ & Hair & _).
    eapply bodyStream_plainName; eassumption. }
  destruct (readBody_inserts o dest t _ r1 Hplain Hsome Hstream)
    as (es1 & e & es2 & Hsplit & He & Hnear).
  unfold readEnd. destruct dest as [a |].
  - exists es1, e, (es2 ++ [{| point := NavPoint.Airport a; airway := None;
                              altitude := None |}]).
    split; [| split; assumption].
    simpl. rewrite Hsplit, <- app_assoc. reflexivity.
  - now exists es1, e, es2.
Qed.
End WholeRead.

(** ** Where the diagnostics come from *)

Section DiagnosticsOfARead.
Context `{G : AtoolsGeo} `{E : rs.Enumerators} `{P : PunctuationNoise}
        `{DB : !NavDatabase}.

(** The diagnostic that a step of the body adds is the one of its
    token: for a token without a candidate, or with several. *)
Lemma bodyItem_diagnostic o dest s rest r :
  exists more,
    messages (fst (bodyItem o dest s rest r)) = messages r ++ more /\
    (more = [] \/
     (navaidsByIdent s = [] /\ more = [unresolvedMessage s]) \/
     ((1 < length (navaidsByIdent s))%nat /\ more = [ambiguousMessage s])).
Proof.
  unfold bodyItem.
  destruct (String.eqb s "DCT");
    [exists []; rewrite app_nil_r; auto |].
  destruct (parseSpeedAlt s) as [[speed alt] |];
    [exists []; rewrite app_nil_r; auto |].
  destruct (airwayLeg s (lastPoint r) (head rest));
    [exists []; rewrite app_nil_r; auto |].
  destruct (procedure o dest s rest r) as [[fixes consumed] |].
  { exists []. simpl. rewrite messages_addEntries, app_nil_r. auto. }
  destruct (coordinate o s); [exists []; rewrite app_nil_r; auto |].
  unfold resolveIdent, candidates.
  destruct (navaidsByIdent s) as [| p [| q ps]]; simpl.
  - exists [unresolvedMessage s]. auto.
  - exists []. rewrite app_nil_r. auto.
  - exists [ambiguousMessage s]. split; [reflexivity |].
    right. right. split; [lia | reflexivity].
Qed.

Lemma readBody_diagnostics o dest stream r m :
  m ∈ messages (readBody o dest stream r) ->
  m ∈ messages r \/
  exists s, s ∈ stream /\
            ((navaidsByIdent s = [] /\ m = unresolvedMessage s) \/
             ((1 < length (navaidsByIdent s))%nat /\ m = ambiguousMessage s)).
Proof.
  remember (length stream) as k eqn:Hk.
  revert stream r Hk. induction k as [k IH] using lt_wf_ind.
  intros [| s rest] r Hk Hm; [now left |].
  cbn [readBody] in Hm.
  destruct (bodyItem_diagnostic o dest s rest r) as (more & Hmore & Hkind).
  destruct (bodyItem o dest s rest r) as [r' consumed]. simpl in Hmore.
  assert (Hstep : m ∈ messages r' ->
            m ∈ messages r \/
            exists s', s' ∈ s :: rest /\
              ((navaidsByIdent s' = [] /\ m = unresolvedMessage s') \/
               ((1 < length (navaidsByIdent s'))%nat /\ m = ambiguousMessage s'))).
  { rewrite Hmore. intros Hin. apply elem_of_app in Hin as [Hin | Hin]; [now left |].
    right. exists s. split; [apply list_elem_of_here |].
    destruct Hkind as [-> | [[Hn ->] | [Hn ->]]].
    - now apply elem_of_nil in Hin.
    - apply list_elem_of_singleton in Hin as ->. now left.
    - apply list_elem_of_singleton in Hin as ->. now right. }
  destruct rest as [| next rest']; [now apply Hstep |].
  simpl in Hk.
  assert (Hrest : forall stream', (length stream' < k)%nat ->
            (forall x, x ∈ stream' -> x ∈ s :: next :: rest') ->
            m ∈ messages (readBody o dest stream' r') ->
            m ∈ messages r \/
            exists s', s' ∈ s :: next :: rest' /\
              ((navaidsByIdent s' = [] /\ m = unresolvedMessage s') \/
               ((1 < length (navaidsByIdent s'))%nat /\ m = ambiguousMessage s'))).
  { intros stream' Hlen Hsub Hin.
    destruct (IH (length stream') Hlen stream' r' eq_refl Hin)
      as [Hin' | (s' & Hs' & Hkind')].
    - now apply Hstep.
    - right. exists s'. split; [now apply Hsub | exact Hkind']. }
  destruct consumed.
  - apply (Hrest rest'); [simpl; lia | | exact Hm].
    intros x Hx. now apply list_elem_of_further, list_elem_of_further.
  - apply (Hrest (next :: rest')); [simpl; lia | | exact Hm].
    intros x Hx. now apply list_elem_of_further.
Qed.

Lemma readAlternates_airports alts r :
  forallb isAirport alts = true ->
  messages (readAlternates alts r) = messages r.
Proof.
  revert r. induction alts as [| a rest IH]; intros r Hall; [reflexivity |].
  simpl in Hall. apply andb_true_iff in Hall as [Ha Hrest].
  simpl. unfold isAirport in Ha.
  destruct (resolveAirport a); [| discriminate]. now rewrite IH.
Qed.

(** Every diagnostic of a read is the one of a token of the text without
    a candidate, or with several, or the one of EXPECT_START for the
    first token. *)
Lemma readRoute_diagnostics text o m :
  m ∈ messages (readRoute text o) ->
  (exists t, t ∈ cleanRouteString text /\ navaidsByIdent t = [] /\
             m = unresolvedMessage t) \/
  (exists t, t ∈ cleanRouteString text /\ (1 < length (navaidsByIdent t))%nat /\
             m = ambiguousMessage t) \/
  (exists first, head (cleanRouteString text) = Some first /\
                 rs.has o rs.READ_NO_AIRPORTS = false /\
                 airportByIdent first = None /\ m = departureMessage first).
Proof.
  unfold readRoute, createRouteFromString, readTokens.
  destruct (cleanRouteString text) as [| first rest];
    [intros Hm; now apply elem_of_nil in Hm |].
  destruct (sections o rest) as [[body endToken] alts] eqn:Hsec.
  destruct (sections_app _ _ _ _ _ Hsec) as (-> & Halts & _).
  destruct (readStart o first _) as [r1 firstToBody] eqn:Hstart.
  rewrite (readAlternates_airports alts _ Halts).
  set (dest := destinationOf o endToken).
  set (stream := bodyStream first firstToBody body endToken dest).
  assert (Hend : messages (readEnd dest (readBody o dest stream r1)) =
                 messages (readBody o dest stream r1))
    by (unfold readEnd; now destruct dest).
  rewrite Hend. intros Hm.
  assert (Hsub : forall x, x ∈ stream ->
                           x ∈ first :: body ++ optionTokens endToken ++ alts).
  { intros x Hx. subst stream. unfold bodyStream in Hx.
    apply elem_of_app in Hx as [Hx | Hx].
    - destruct firstToBody; [| now apply elem_of_nil in Hx].
      apply list_elem_of_singleton in Hx as ->. apply list_elem_of_here.
    - apply list_elem_of_further. apply elem_of_app in Hx as [Hx | Hx];
        [apply elem_of_app; now left |].
      apply elem_of_app. right. apply elem_of_app. left.
      now destruct dest; [apply elem_of_nil in Hx |]. }
  destruct (readBody_diagnostics o dest stream r1 m Hm)
    as [Hin | (s & Hs & [[Hn ->] | [Hn ->]])].
  - right. right. exists first. unfold readStart in Hstart.
    destruct (rs.has o rs.READ_NO_AIRPORTS) eqn:Hno;
      [injection Hstart as <- _; now apply elem_of_nil in Hin |].
    destruct (resolveAirport first) as [a |] eqn:Ha; injection Hstart as <- _;
      [now apply elem_of_nil in Hin |].
    simpl in Hin. apply list_elem_of_singleton in Hin as ->.
    repeat split. exact Ha.
  - left. exists s. split; [now apply Hsub | now split].
  - right. left. exists s. split; [now apply Hsub | now split].
Qed.
End DiagnosticsOfARead.

(** ** The reader: empty input, validity of what is read, failure policy *)

(** C3: the empty text gives the empty flight plan, no message and no
    altitude, whatever the options are. *)
Theorem readRoute_empty `{G : AtoolsGeo} `{E : rs.Enumerators}
    `{P : PunctuationNoise} `{DB : !NavDatabase} (o : rs.RouteStringOptions) :
  flightplan (readRoute "" o) = emptyFlightplan /\
  entries (flightplan (readRoute "" o)) = [] /\
  messages (readRoute "" o) = [] /\
  altitudeIncluded (readRoute "" o) = false.
Proof. repeat split. Qed.



(** ** The dialog: reading into the flight plan, options and menu *)

Section DialogProofs.
Context `{G : AtoolsGeo} `{E : rs.Enumerators} `{P : PunctuationNoise}
        `{DB : !NavDatabase}.

Lemma options_textChangedDelayed (d : RouteStringDialog.t) :
  RouteStringDialog.options (textChangedDelayed d) = RouteStringDialog.options d.
Proof. reflexivity. Qed.

Lemma options_triggered_after_update (d : RouteStringDialog.t) :
  RouteStringDialog.options (toolButtonOptionTriggered (updateButtonState d)) =
  copyMenuState
    (copyOptionsToMenu (RouteStringDialog.options d) (RouteStringDialog.menu d))
    (RouteStringDialog.options d).
Proof. reflexivity. Qed.
End DialogProofs.

(** C6: what a read leaves in the flight plan of the dialog depends on the
    text and the options only.  Whatever the plan held before, it holds
    what reading the text into an empty plan gives; in particular two reads
    of the same text with the same options give equal plans. *)
Theorem textChangedDelayed_fresh `{G : AtoolsGeo} `{E : rs.Enumerators}
    `{P : PunctuationNoise} `{DB : !NavDatabase}
    (d : RouteStringDialog.t) (stale : Flightplan) :
  RouteStringDialog.flightplan (textChangedDelayed (withPlan d stale)) =
    flightplan (readRoute (RouteStringDialog.plainTextEditRouteString d)
                          (rs.or (RouteStringDialog.options d) (rs.value rs.REPORT))) /\
  RouteStringDialog.flightplan (textChangedDelayed (withPlan d stale)) =
    RouteStringDialog.flightplan (textChangedDelayed d) /\
  RouteStringDialog.flightplan (textChangedDelayed (textChangedDelayed d)) =
    RouteStringDialog.flightplan (textChangedDelayed d).
Proof. repeat split. Qed.

(** ** The tokens of the writer *)

Section WriterTokens.
Context `{G : AtoolsGeo} `{E : rs.Enumerators} `{P : PunctuationNoise}
        `{DB : !NavDatabase}.

Ltac each_char c :=
  destruct c as [[] [] [] [] [] [] [] []]; try reflexivity; try discriminate.

Lemma isUpper_plain (c : ascii) :
  isUpper c = true -> isSpace c = false /\ isLower c = false.
Proof. each_char c; intros _; split; reflexivity. Qed.

Lemma isDigit_plain (c : ascii) :
  isDigit c = true -> isSpace c = false /\ isLower c = false.
Proof. each_char c; intros _; split; reflexivity. Qed.

(** Letters in upper case and digits are clean, whatever the noise is. *)
Lemma cleanChar_upper (c : ascii) : isUpper c = true -> cleanChar c = true.
Proof.
  intros Hc. destruct (isUpper_plain c Hc) as [Hs Hl].
  unfold cleanChar, isSeparator. rewrite Hs, Hl, Hc. simpl.
  now rewrite andb_false_r.
Qed.

Lemma cleanChar_digit (c : ascii) : isDigit c = true -> cleanChar c = true.
Proof.
  intros Hc. destruct (isDigit_plain c Hc) as [Hs Hl].
  unfold cleanChar, isSeparator. rewrite Hs, Hl, Hc. simpl.
  now rewrite orb_true_r, andb_false_r.
Qed.

Lemma cleanToken_DCT : cleanToken "DCT" = true.
Proof.
  unfold cleanToken. cbn [list_ascii_of_string forallb].
  now rewrite !cleanChar_upper.
Qed.

Lemma digitChar_isDigit (d : Z) : 0 <= d < 10 -> isDigit (digitChar d) = true.
Proof.
  intros Hd.
  assert (Hcases : d = 0 \/ d = 1 \/ d = 2 \/ d = 3 \/ d = 4 \/ d = 5 \/ d = 6
                   \/ d = 7 \/ d = 8 \/ d = 9) by lia.
  repeat (destruct Hcases as [-> | Hcases]; [reflexivity |]).
  now subst.
Qed.

Lemma digitsOf_digits (fuel : nat) (n : Z) (acc : list ascii) :
  forallb isDigit acc = true -> forallb isDigit (digitsOf fuel n acc) = true.
Proof.
  revert n acc. induction fuel as [| fuel IH]; intros n acc Hacc; [exact Hacc |].
  simpl.
  assert (Hacc' : forallb isDigit (digitChar (n mod 10) :: acc) = true).
  { simpl. rewrite Hacc, digitChar_isDigit; [reflexivity |].
    apply Z.mod_pos_bound. lia. }
  destruct (n <? 10); [exact Hacc' | now apply IH].
Qed.

Lemma digitsOf_nonempty (fuel : nat) (n : Z) (acc : list ascii) :
  acc <> [] -> digitsOf fuel n acc <> [].
Proof.
  revert n acc. induction fuel as [| fuel IH]; intros n acc Hacc; [exact Hacc |].
  simpl. destruct (n <? 10); [discriminate | now apply IH].
Qed.

Lemma numberChars_digits (n : Z) :
  numberChars n <> [] /\ forallb isDigit (numberChars n) = true.
Proof.
  unfold numberChars. split.
  - cbn [digitsOf]. destruct (Z.max 0 n <? 10); [discriminate |].
    now apply digitsOf_nonempty.
  - now apply digitsOf_digits.
Qed.

Lemma forallb_digit_clean (ds : list ascii) :
  forallb isDigit ds = true -> forallb cleanChar ds = true.
Proof.
  induction ds as [| d ds IH]; [reflexivity |]. simpl.
  intros H. apply andb_true_iff in H as [Hd Hds].
  now rewrite (cleanChar_digit _ Hd), IH.
Qed.

Lemma cleanToken_cruiseToken (speed alt : Z) :
  cleanToken (cruiseToken speed alt) = true.
Proof.
  unfold cleanToken, cruiseToken.
  rewrite list_ascii_of_string_of_list_ascii.
  destruct (numberChars_digits speed) as [_ Hs].
  destruct (numberChars_digits (alt / 100)) as [_ Ha].
  cbn [forallb]. rewrite forallb_app. cbn [forallb].
  rewrite !cleanChar_upper by reflexivity.
  now rewrite !forallb_digit_clean.
Qed.

Lemma cruiseToken_not_DCT (speed alt : Z) :
  String.eqb (cruiseToken speed alt) "DCT" = false.
Proof. reflexivity. Qed.

Lemma takeDigits_all (ds : list ascii) :
  forallb isDigit ds = true -> takeDigits ds = (ds, []).
Proof.
  induction ds as [| d ds IH]; [reflexivity |]. simpl.
  intros H. apply andb_true_iff in H as [Hd Hds].
  now rewrite Hd, (IH Hds).
Qed.

Lemma takeDigits_app (ds : list ascii) (c : ascii) (rest : list ascii) :
  forallb isDigit ds = true -> isDigit c = false ->
  takeDigits (ds ++ c :: rest) = (ds, c :: rest).
Proof.
  intros Hds Hc. induction ds as [| d ds IH].
  - simpl. now rewrite Hc.
  - simpl in *. apply andb_true_iff in Hds as [Hd Hds].
    now rewrite Hd, (IH Hds).
Qed.

(** The reader takes the cruise token of the writer for what it is. *)
Lemma parseSpeedAlt_cruiseToken (speed alt : Z) :
  exists s a, parseSpeedAlt (cruiseToken speed alt) = Some (s, a).
Proof.
  unfold parseSpeedAlt, cruiseToken.
  rewrite list_ascii_of_string_of_list_ascii.
  destruct (numberChars_digits speed) as [Hsne Hs].
  destruct (numberChars_digits (alt / 100)) as [Hane Ha].
  rewrite (takeDigits_app _ "F"%char _ Hs eq_refl), (takeDigits_all _ Ha).
  unfold parseNumber.
  destruct (numberChars speed); [contradiction |].
  destruct (numberChars (alt / 100)); [contradiction |].
  eexists _, _. reflexivity.
Qed.
End WriterTokens.

(** ** Reading what the writer wrote *)

Section RoundTrip.
Context `{G : AtoolsGeo} `{E : rs.Enumerators} `{P : PunctuationNoise}
        `{DB : !NavDatabase}.
Variable o : rs.RouteStringOptions.
Variables dep dest : MapAirport.t.
Hypothesis Hspace : rs.has o rs.SID_STAR_SPACE = false.
Hypothesis Hrev : rs.has o rs.STAR_REV_TRANSITION = false.
Hypothesis Hairways : rs.has o rs.NO_AIRWAYS = false.

Lemma planWith_cons (r : ReadResult) (leg : RouteLeg) (legs : list RouteLeg) :
  planWith (flightplan (addEntry r (legPoint leg) (legAirway leg))) legs =
  planWith (flightplan r) (leg :: legs).
Proof.
  unfold planWith, withEntries. simpl. now rewrite <- app_assoc.
Qed.

Lemma procedure_none token rest r :
  departure (flightplan r) = Some dep ->
  procedureLegs dep (dottedParts token) = [] ->
  procedureLegs dest (dottedParts token) = [] ->
  procedure o (Some dest) token rest r = None.
Proof.
  intros Hdep Hnd Hnt.
  apply procedureFixes_none in Hnd. apply procedureFixes_none in Hnt.
  assert (Hof : forall following,
             procedureOf o (Some dest) r (dottedParts token) following = None).
  { intros following. unfold procedureOf, atDeparture. rewrite Hdep, Hrev.
    destruct (entries (flightplan r)) as [| e [| e' es]];
      [destruct following | | destruct following]; auto. }
  unfold procedure. rewrite Hof.
  destruct rest as [| next rest']; [reflexivity |]. now rewrite Hspace.
Qed.

Lemma bodyItem_plainLeg rest r prev p :
  lastPoint r = Some prev -> departure (flightplan r) = Some dep ->
  notInstruction (NavPoint.ident p) ->
  airwayFixes (NavPoint.ident p) prev = [] ->
  procedureLegs dep (dottedParts (NavPoint.ident p)) = [] ->
  procedureLegs dest (dottedParts (NavPoint.ident p)) = [] ->
  coordinatesFromString (NavPoint.ident p) = None ->
  navaidFound prev p ->
  exists r', bodyItem o (Some dest) (NavPoint.ident p) rest r = (r', false) /\
             flightplan r' = flightplan (addEntry r p None).
Proof.
  intros Hlast Hdep [Hdct Hcruise] Hfixes Hnd Hnt Hco Hfound.
  unfold bodyItem. rewrite Hdct, Hcruise, Hlast.
  assert (Haw : airwayLeg (NavPoint.ident p) (Some prev) (head rest) = None).
  { unfold airwayLeg. destruct (head rest); [| reflexivity]. now rewrite Hfixes. }
  rewrite Haw, (procedure_none _ _ _ Hdep Hnd Hnt).
  unfold coordinate. rewrite Hco.
  destruct (resolveIdent_found prev p Hfound) as [-> | ->];
    eexists; split; reflexivity.
Qed.

Lemma find_first {A} (f : A -> bool) (before after : list A) (x : A) :
  Forall (fun y => f y = false) before -> f x = true ->
  List.find f (before ++ x :: after) = Some x.
Proof.
  intros Hbefore Hx. induction before as [| y before IH]; simpl.
  - now rewrite Hx.
  - inversion Hbefore as [| ? ? Hy Hrest]; subst. rewrite Hy. now apply IH.
Qed.

Lemma airwayLeg_exit name prev p :
  airwayExit name prev p ->
  airwayLeg name (Some prev) (Some (NavPoint.ident p)) = Some p.
Proof.
  intros (before & after & Hfixes & Hbefore). unfold airwayLeg.
  rewrite Hfixes. apply find_first; [| apply String.eqb_refl].
  eapply Forall_impl; [exact Hbefore |]. intros q Hq. now apply String.eqb_neq.
Qed.

Lemma bodyItem_airwayLeg name rest r prev p :
  lastPoint r = Some prev -> notInstruction name -> airwayExit name prev p ->
  bodyItem o (Some dest) name (NavPoint.ident p :: rest) r =
  (addEntry r p (Some name), true).
Proof.
  intros Hlast [Hdct Hcruise] Haw.
  unfold bodyItem. rewrite Hdct, Hcruise, Hlast.
  change (head (NavPoint.ident p :: rest)) with (Some (NavPoint.ident p)).
  now rewrite (airwayLeg_exit _ _ _ Haw).
Qed.

Lemma bodyItem_DCT d rest r : bodyItem o d "DCT" rest r = (r, false).
Proof. reflexivity. Qed.

Lemma lastPoint_flightplan r r' :
  flightplan r' = flightplan r -> lastPoint r' = lastPoint r.
Proof. unfold lastPoint. now intros ->. Qed.

(** The body of the reader turns the tokens of resolvable legs into the
    entries of the legs. *)
Lemma readBody_legs (legs : list RouteLeg) :
  forall prevFix r prev,
    lastPoint r = Some prev -> departure (flightplan r) = Some dep ->
    legsResolvable dep dest prev legs ->
    flightplan (readBody o (Some dest) (writeLegs o prevFix None legs) r) =
    planWith (flightplan r) legs.
Proof.
  induction legs as [| leg legs IH]; intros prevFix r prev Hlast Hdep Hlegs.
  - unfold planWith, withEntries. simpl. rewrite app_nil_r. now destruct (flightplan r).
  - destruct Hlegs as (Hproc & Hclean & Hleg & Hrest).
    cbn [writeLegs]. rewrite Hproc. unfold fixTokens.
    destruct (legAirway leg) as [name |] eqn:Hname.
    + destruct Hleg as (_ & Hinstr & Haw). rewrite Hairways.
      cbn [app].
      rewrite (readBody_consume _ _ _ _ _ _ _
                 (bodyItem_airwayLeg _ _ _ _ _ Hlast Hinstr Haw)).
      rewrite (IH true _ (legPoint leg)); [| apply lastPoint_addEntry | exact Hdep | exact Hrest].
      rewrite <- Hname. apply planWith_cons.
    + destruct Hleg as (Hinstr & Hfixes & Hnd & Hnt & Hco & Hfound).
      assert (Hdirect : forall r0, lastPoint r0 = Some prev ->
                departure (flightplan r0) = Some dep ->
                flightplan
                  (readBody o (Some dest)
                     (NavPoint.ident (legPoint leg) :: writeLegs o true None legs) r0) =
                planWith (flightplan r0) (leg :: legs)).
      { intros r0 Hlast0 Hdep0.
        destruct (bodyItem_plainLeg (writeLegs o true None legs) r0 prev (legPoint leg)
                    Hlast0 Hdep0 Hinstr Hfixes Hnd Hnt Hco Hfound) as (r' & Hitem & Hfp).
        rewrite (readBody_skip _ _ _ _ _ _ Hitem).
        rewrite (IH true r' (legPoint leg)).
        - rewrite Hfp. replace None with (legAirway leg) by exact Hname.
          apply planWith_cons.
        - rewrite (lastPoint_flightplan _ _ Hfp). apply lastPoint_addEntry.
        - now rewrite Hfp.
        - exact Hrest. }
      destruct (rs.has o rs.DCT && prevFix); cbn [app].
      * rewrite (readBody_skip _ _ _ _ _ _ (bodyItem_DCT _ _ _)).
        now apply Hdirect.
      * now apply Hdirect.
Qed.

Lemma writeLegs_clean (legs : list RouteLeg) :
  forall prevFix prev,
    legsResolvable dep dest prev legs ->
    Forall (fun token => cleanToken token = true) (writeLegs o prevFix None legs).
Proof.
  induction legs as [| leg legs IH]; intros prevFix prev Hlegs; [constructor |].
  destruct Hlegs as (Hproc & Hclean & Hleg & Hrest).
  cbn [writeLegs]. rewrite Hproc. apply Forall_app. split; [| eapply IH, Hrest].
  unfold fixTokens. destruct (legAirway leg) as [name |].
  - destruct Hleg as (Hname & _). rewrite Hairways. now repeat constructor.
  - destruct (rs.has o rs.DCT && prevFix); cbn [app]; repeat constructor;
      auto using cleanToken_DCT.
Qed.

(** The last token of the legs is the identifier of the last leg. *)
Lemma writeLegs_last (legs : list RouteLeg) :
  forall prevFix prev,
    legsResolvable dep dest prev legs ->
    last (writeLegs o prevFix None legs) =
    (fun leg => NavPoint.ident (legPoint leg)) <$> last legs.
Proof.
  induction legs as [| leg legs IH]; intros prevFix prev Hlegs; [reflexivity |].
  destruct Hlegs as (Hproc & _ & _ & Hrest).
  cbn [writeLegs]. rewrite Hproc, last_app, (IH true _ Hrest).
  destruct legs as [| leg' legs'].
  - simpl. unfold fixTokens.
    destruct (legAirway leg); [rewrite Hairways; reflexivity |].
    now destruct (rs.has o rs.DCT && prevFix).
  - change (last (leg :: leg' :: legs')) with (last (leg' :: legs')).
    destruct (last (leg' :: legs')) eqn:Hl; [reflexivity |].
    apply last_None in Hl. discriminate.
Qed.

Lemma airportsFound_spec (airports : list MapAirport.t) :
  airportsFound airports ->
  Forall (fun token => cleanToken token = true) (List.map MapAirport.ident airports) /\
  forallb isAirport (List.map MapAirport.ident airports) = true.
Proof.
  induction airports as [| a rest IH]; [now split |].
  intros [[Hclean Hres] Hrest]. destruct (IH Hrest) as [Hc Ha].
  split; [now constructor |].
  simpl. unfold isAirport at 1, resolveAirport. now rewrite Hres, Ha.
Qed.

(** The alternates that the writer wrote are read as they are. *)
Lemma alternates_readAlternates (airports : list MapAirport.t) (r : ReadResult) :
  airportsFound airports ->
  let fp := flightplan (readAlternates (List.map MapAirport.ident airports) r) in
  alternates fp = alternates (flightplan r) ++ airports /\
  entries fp = entries (flightplan r) /\
  departure fp = departure (flightplan r) /\
  destination fp = destination (flightplan r).
Proof.
  revert r. induction airports as [| a rest IH]; intros r Hfound.
  - simpl. now rewrite app_nil_r.
  - destruct Hfound as [[_ Ha] Hrest]. simpl.
    unfold resolveAirport. rewrite Ha.
    destruct (IH (addAlternate r a) Hrest) as (H1 & H2 & H3 & H4).
    rewrite H1, H2, H3, H4. simpl. now rewrite <- app_assoc.
Qed.
End RoundTrip.


(** * The statements at work in the sample world *)

Section Witnesses.
Existing Instance sampleGeo.
Existing Instance sampleEnumerators.
Existing Instance sampleNoise.
Existing Instance sampleDatabase.

(** ** The sample database *)

Lemma sample_airports (x : string) (a : MapAirport.t) :
  airportByIdent x = Some a -> a ∈ [KJFK; KBOS; KPVD; airportALB].
Proof.
  intros H. apply list_elem_of_In.
  exact (proj1 (find_some _ _ H)).
Qed.

Lemma sample_navaids (x : string) (p : NavPoint.t) :
  p ∈ navaidsByIdent x -> p ∈ [ALB; BOS; ABC_far; ABC_near].
Proof.
  intros H. apply list_elem_of_In. apply list_elem_of_In in H.
  exact (proj1 (proj1 (filter_In _ _ _) H)).
Qed.

Lemma sample_airwayFixes (name : string) (p q : NavPoint.t) :
  q ∈ airwayFixes name p -> q = BOS.
Proof.
  unfold airwayFixes, sampleDatabase.
  destruct (String.eqb name "J121" && String.eqb (NavPoint.ident p) "ALB").
  - intros H. now apply list_elem_of_singleton in H.
  - intros H. now apply elem_of_nil in H.
Qed.

(** The records of the sample database have valid positions. *)
Lemma sample_validRecords : validRecords.
Proof.
  repeat split.
  - intros x a H. apply sample_airports in H.
    repeat (apply elem_of_cons in H as [-> | H]; [reflexivity |]).
    now apply elem_of_nil in H.
  - intros x p H. apply sample_navaids in H.
    repeat (apply elem_of_cons in H as [-> | H]; [reflexivity |]).
    now apply elem_of_nil in H.
  - intros name p q H. apply sample_airwayFixes in H as ->. reflexivity.
  - intros a parts p H. now apply elem_of_nil in H.
  - intros pos w H. discriminate H.
  - intros x pos H. discriminate H.
Qed.

(** A name that is no instruction, no airport, not J121 and not BOS is a
    plain name. *)
Lemma sample_plainName (t : string) :
  String.eqb t "DCT" = false -> parseSpeedAlt t = None ->
  airportByIdent t = None -> String.eqb t "J121" = false -> t <> "BOS" ->
  plainName t.
Proof.
  intros Hdct Hcruise Hair Hname Hfix. repeat split; try assumption.
  - intros p. unfold airwayFixes, sampleDatabase. now rewrite Hname.
  - intros name p q H. apply sample_airwayFixes in H as ->.
    intros Heq. now apply Hfix.
Qed.

Lemma sample_no_record (t : string) :
  t ∉ ["KJFK"; "KBOS"; "KPVD"; "ALB"; "BOS"; "ABC"] -> noRecordNamed t.
Proof.
  intros Hnot. repeat split.
  - intros x a H Heq. apply sample_airports in H. apply Hnot. subst t.
    repeat (apply elem_of_cons in H as [-> | H];
            [repeat (apply list_elem_of_here || apply list_elem_of_further) |]).
    now apply elem_of_nil in H.
  - intros x p H Heq. apply sample_navaids in H. apply Hnot. subst t.
    repeat (apply elem_of_cons in H as [-> | H];
            [repeat (apply list_elem_of_here || apply list_elem_of_further) |]).
    now apply elem_of_nil in H.
  - intros name p q H Heq. apply sample_airwayFixes in H as ->.
    apply Hnot. subst t.
    repeat (apply list_elem_of_here || apply list_elem_of_further).
  - intros a parts p H. now apply elem_of_nil in H.
  - intros pos w H. discriminate H.
Qed.

Lemma sample_unresolved : unresolvedToken "UNKNOWNFIX".
Proof.
  split; [| reflexivity].
  apply sample_plainName; try reflexivity. discriminate.
Qed.

Lemma sample_not_named : noRecordNamed "UNKNOWNFIX".
Proof.
  apply sample_no_record. intros H.
  repeat (apply elem_of_cons in H as [H | H]; [discriminate H |]).
  now apply elem_of_nil in H.
Qed.

Lemma sample_ambiguous : ambiguousToken "ABC".
Proof.
  split; [| vm_compute; lia].
  apply sample_plainName; try reflexivity. discriminate.
Qed.

(** From New York to Boston over the Albany VOR and along J121, with
    Providence as the alternate. *)
Lemma sample_resolvable : resolvable (sampleRoute KJFK sampleLegs KBOS [KPVD]).
Proof.
  unfold resolvable, sampleRoute, sampleLegs. cbn [routeDeparture routeDestination
    routeLegs routeAlternates legsResolvable airportsFound].
  repeat split; try reflexivity.
  - apply list_elem_of_here.
  - intros q Hq. apply list_elem_of_singleton in Hq. now left.
  - exists [], []. split; [reflexivity | constructor].
Qed.

(** From New York to Boston over the Albany VOR only; Albany is the name
    of an airport as well. *)
Lemma sample_resolvable_ALB :
  resolvable (sampleRoute KJFK [sampleLeg ALB None] KBOS []).
Proof.
  unfold resolvable, sampleRoute. cbn [routeDeparture routeDestination
    routeLegs routeAlternates legsResolvable airportsFound].
  repeat split; try reflexivity.
  - apply list_elem_of_here.
  - intros q Hq. apply list_elem_of_singleton in Hq. now left.
Qed.

(** ** The claims in the sample world *)






End Witnesses.

(** * Further properties *)

(** ** Flag sets over single bits *)

Section FlagSets.
Context {A : Type} `{EqDecision A}.
Variable value : A -> Z.
Variable single : list A.
Hypothesis value_nonzero : forall a, a ∈ single -> value a <> 0.
Hypothesis value_disjoint :
  forall a b, a ∈ single -> b ∈ single -> a <> b -> Z.land (value a) (value b) = 0.

(** A flag is found in a union of flags exactly if it is one of them. *)
Lemma testFlags_unionOf (l : list A) (x : A) :
  Forall (fun a => a ∈ single) l -> x ∈ single ->
  testFlags (unionOf (List.map value l)) (value x) = bool_decide (x ∈ l).
Proof.
  intros Hl Hx. unfold testFlags.
  induction l as [| a l IH].
  - cbn [List.map unionOf fold_right]. rewrite Z.land_0_l.
    change (negb (0 =? 0)) with false. symmetry. apply bool_decide_eq_false.
    apply not_elem_of_nil.
  - inversion Hl as [| ? ? Ha Hl']; subst. specialize (IH Hl').
    cbn [List.map unionOf fold_right]. fold (unionOf (List.map value l)).
    rewrite Z.land_lor_distr_l.
    destruct (decide (x = a)) as [-> | Hne].
    + rewrite Z.land_diag.
      rewrite (bool_decide_eq_true_2 _ (list_elem_of_here a l)).
      apply negb_true_iff, Z.eqb_neq. intros H.
      apply Z.lor_eq_0_iff in H as [H _]. now apply (value_nonzero a).
    + rewrite (value_disjoint a x Ha Hx) by congruence. rewrite Z.lor_0_l, IH.
      apply bool_decide_ext. rewrite elem_of_cons. tauto.
Qed.
End FlagSets.

(** X1: the enumerators of [MapObjectType] that are written [1 << n] are
    distinct single bits, so a [MapObjectTypes] value built from them holds
    a set of types: a type tests positive exactly if it went into the
    union.  The combined enumerators are the unions that their names
    promise, and [ALL] covers every enumerator. *)
Theorem MapObjectTypes_is_set (l : list MapObjectType.t) (x : MapObjectType.t) :
  forallb MapObjectType.isSingle l = true ->
  MapObjectType.isSingle x = true ->
  testFlags (unionOf (List.map MapObjectType.value l)) (MapObjectType.value x) =
    bool_decide (x ∈ l) /\
  MapObjectType.value MapObjectType.AIRPORT_ALL =
    unionOf (List.map MapObjectType.value
               [MapObjectType.AIRPORT; MapObjectType.AIRPORT_HARD;
                MapObjectType.AIRPORT_SOFT; MapObjectType.AIRPORT_EMPTY;
                MapObjectType.AIRPORT_ADDON]) /\
  MapObjectType.value MapObjectType.NAV_ALL =
    unionOf (List.map MapObjectType.value
               [MapObjectType.VOR; MapObjectType.NDB; MapObjectType.WAYPOINT]) /\
  MapObjectType.value MapObjectType.NAV_MAGVAR =
    Z.lor (MapObjectType.value MapObjectType.AIRPORT)
          (MapObjectType.value MapObjectType.NAV_ALL) /\
  (forall y, Z.land (MapObjectType.value MapObjectType.ALL) (MapObjectType.value y) =
             MapObjectType.value y).
Proof.
  intros Hl Hx. split; [| split; [reflexivity | split; [reflexivity | split;
    [reflexivity | intros []; reflexivity]]]].
  apply (testFlags_unionOf MapObjectType.value MapObjectType.single).
  - intros a Ha. unfold MapObjectType.single in Ha.
    repeat (apply elem_of_cons in Ha as [-> | Ha]; [discriminate |]).
    now apply elem_of_nil in Ha.
  - intros a b Ha Hb Hne. unfold MapObjectType.single in Ha, Hb.
    repeat (apply elem_of_cons in Ha as [-> | Ha];
            [repeat (apply elem_of_cons in Hb as [-> | Hb];
                     [first [reflexivity | congruence] |]);
             now apply elem_of_nil in Hb |]).
    now apply elem_of_nil in Ha.
  - apply Forall_forall. intros a Ha. rewrite forallb_forall in Hl.
    apply list_elem_of_In in Ha. specialize (Hl a Ha).
    now apply bool_decide_eq_true in Hl.
  - now apply bool_decide_eq_true in Hx.
Qed.

Lemma MapObjectTypes_is_set_witness :
  let l := [MapObjectType.VOR; MapObjectType.WAYPOINT] in
  forallb MapObjectType.isSingle l = true /\
  MapObjectType.isSingle MapObjectType.NDB = true /\
  testFlags (unionOf (List.map MapObjectType.value l))
            (MapObjectType.value MapObjectType.NDB) = false.
Proof.
  intros l. split; [reflexivity | split; [reflexivity |]].
  destruct (MapObjectTypes_is_set l MapObjectType.NDB eq_refl eq_refl) as [H _].
  rewrite H. reflexivity.
Defined.

(** X2: the enumerators of [MapAirportFlag] that are written [1 << n] are
    distinct single bits, so a [MapAirportFlags] value built from them
    holds a set of airport attributes; [AP_NONE] is the empty set and
    [AP_ALL] covers every enumerator. *)
Theorem MapAirportFlags_is_set (l : list MapAirportFlag.t) (x : MapAirportFlag.t) :
  forallb MapAirportFlag.isSingle l = true ->
  MapAirportFlag.isSingle x = true ->
  testFlags (unionOf (List.map MapAirportFlag.value l)) (MapAirportFlag.value x) =
    bool_decide (x ∈ l) /\
  testFlags (MapAirportFlag.value MapAirportFlag.AP_NONE) (MapAirportFlag.value x) =
    false /\
  (forall y, Z.land (MapAirportFlag.value MapAirportFlag.AP_ALL)
                    (MapAirportFlag.value y) = MapAirportFlag.value y).
Proof.
  intros Hl Hx. split; [| split; [reflexivity | intros []; reflexivity]].
  apply (testFlags_unionOf MapAirportFlag.value MapAirportFlag.single).
  - intros a Ha. unfold MapAirportFlag.single in Ha.
    repeat (apply elem_of_cons in Ha as [-> | Ha]; [discriminate |]).
    now apply elem_of_nil in Ha.
  - intros a b Ha Hb Hne. unfold MapAirportFlag.single in Ha, Hb.
    repeat (apply elem_of_cons in Ha as [-> | Ha];
            [repeat (apply elem_of_cons in Hb as [-> | Hb];
                     [first [reflexivity | congruence] |]);
             now apply elem_of_nil in Hb |]).
    now apply elem_of_nil in Ha.
  - apply Forall_forall. intros a Ha. rewrite forallb_forall in Hl.
    apply list_elem_of_In in Ha. specialize (Hl a Ha).
    now apply bool_decide_eq_true in Hl.
  - now apply bool_decide_eq_true in Hx.
Qed.

Lemma MapAirportFlags_is_set_witness :
  let l := [MapAirportFlag.AP_TOWER; MapAirportFlag.AP_HARD] in
  forallb MapAirportFlag.isSingle l = true /\
  MapAirportFlag.isSingle MapAirportFlag.AP_HARD = true /\
  testFlags (unionOf (List.map MapAirportFlag.value l))
            (MapAirportFlag.value MapAirportFlag.AP_HARD) = true.
Proof.
  intros l. split; [reflexivity | split; [reflexivity |]].
  destruct (MapAirportFlags_is_set l MapAirportFlag.AP_HARD eq_refl eq_refl) as [H _].
  rewrite H. reflexivity.
Defined.

(** ** The check loop of [updateButtonState] for every options value *)

Section ExclusiveGroup.

Lemma withChecked_twice (a : QAction) (x y : bool) :
  withChecked (withChecked a x) y = withChecked a y.
Proof. reflexivity. Qed.

Lemma withChecked_same (a : QAction) : withChecked a (checked a) = a.
Proof. now destruct a. Qed.

Lemma setChecked_lookup (menu : QMenu) (k : nat) (b : bool) (a : QAction) (j : nat) :
  menu !! k = Some a ->
  setChecked menu k b !! j =
  (fun c => if negb (checkable a) || Bool.eqb (checked a) b then c
            else if Nat.eqb j k then withChecked c b
            else if b && inGroup a && inGroup c then withChecked c false
            else c) <$> menu !! j.
Proof.
  intros Hk. unfold setChecked. rewrite Hk.
  pose proof (lookup_lt_Some _ _ _ Hk) as Hlen.
  destruct (negb (checkable a) || Bool.eqb (checked a) b).
  - now destruct (menu !! j).
  - destruct (Nat.eqb_spec j k) as [-> | Hne].
    + rewrite Hk. simpl.
      destruct (b && inGroup a).
      * unfold uncheckOthers. rewrite list_lookup_imap, list_lookup_insert_eq by assumption.
        simpl. now rewrite Nat.eqb_refl, andb_false_r.
      * now rewrite list_lookup_insert_eq.
    + destruct (b && inGroup a); simpl.
      * unfold uncheckOthers.
        rewrite list_lookup_imap, list_lookup_insert_ne by auto.
        destruct (menu !! j) as [c |]; [| reflexivity]. simpl.
        apply Nat.eqb_neq in Hne. rewrite Hne. simpl.
        now rewrite andb_true_r.
      * rewrite list_lookup_insert_ne by auto. now destruct (menu !! j).
Qed.

Lemma filter_at_most_one (p : QAction -> bool) (menu : QMenu) :
  (length (filter (fun act => p act = true) menu) <= 1)%nat ->
  forall i j a c, menu !! i = Some a -> menu !! j = Some c ->
    p a = true -> p c = true -> i = j.
Proof.
  induction menu as [| act rest IH]; intros Hlen i j a c Hi Hj Hpa Hpc.
  - discriminate.
  - assert (Hnone : forall k x, rest !! k = Some x -> p x = true ->
              p act = true -> False).
    { intros k x Hx Hpx Hact.
      rewrite filter_cons_True in Hlen by exact Hact. simpl in Hlen.
      assert (Hin : x ∈ filter (fun act => p act = true) rest).
      { apply list_elem_of_filter. split; [exact Hpx |].
        eapply list_elem_of_lookup_2, Hx. }
      destruct (filter _ rest); [inversion Hin | simpl in Hlen; lia]. }
    destruct i as [| i], j as [| j]; simpl in Hi, Hj.
    + reflexivity.
    + exfalso. inversion Hi; subst. eapply (Hnone j c); eauto.
    + exfalso. inversion Hj; subst. eapply (Hnone i a); eauto.
    + f_equal. apply (IH ltac:(
        destruct (decide (p act = true));
        [rewrite filter_cons_True in Hlen by assumption; simpl in Hlen; lia
        |rewrite filter_cons_False in Hlen by assumption; exact Hlen]) i j a c);
        assumption.
Qed.

Lemma at_most_one_filter (p : QAction -> bool) (menu : QMenu) :
  (forall i j a c, menu !! i = Some a -> menu !! j = Some c ->
     p a = true -> p c = true -> i = j) ->
  (length (filter (fun act => p act = true) menu) <= 1)%nat.
Proof.
  induction menu as [| act rest IH]; intros Huniq; [simpl; lia |].
  assert (Hrest : forall i j a c, rest !! i = Some a -> rest !! j = Some c ->
            p a = true -> p c = true -> i = j).
  { intros i j a c Hi Hj Hpa Hpc.
    specialize (Huniq (S i) (S j) a c Hi Hj Hpa Hpc). lia. }
  destruct (decide (p act = true)) as [Hact | Hact].
  - rewrite filter_cons_True by exact Hact. simpl.
    destruct (filter (fun act => p act = true) rest) as [| x l] eqn:Hf;
      [simpl; lia | exfalso].
    assert (Hin : x ∈ filter (fun act => p act = true) rest)
      by (rewrite Hf; apply list_elem_of_here).
    apply list_elem_of_filter in Hin as [Hpx Hin].
    apply list_elem_of_lookup_1 in Hin as [i Hi].
    specialize (Huniq 0%nat (S i) act x eq_refl Hi Hact Hpx). discriminate.
  - rewrite filter_cons_False by exact Hact. now apply IH.
Qed.

Lemma exclusive_groupChecked (menu : QMenu) :
  exclusive menu <-> (length (groupChecked menu) <= 1)%nat.
Proof.
  unfold exclusive, groupChecked. split.
  - intros Hex. apply (at_most_one_filter (fun act => inGroup act && checked act)).
    intros i j a c Hi Hj Ha Hc.
    apply andb_true_iff in Ha as [? ?]. apply andb_true_iff in Hc as [? ?].
    eapply Hex; eassumption.
  - intros Hlen i j a c Hi Hj Hga Hgc Hca Hcc.
    apply (filter_at_most_one (fun act => inGroup act && checked act) menu Hlen
             i j a c Hi Hj); apply andb_true_iff; auto.
Qed.

Variable options : rs.RouteStringOptions.
Variable m0 : QMenu.
Hypothesis Hcheckable : groupCheckable m0 = true.
Hypothesis Hexclusive : exclusive m0.

Local Abbreviation lastB := (lastBelow options m0).
Local Abbreviation state := (stateAfter options m0).

Lemma group_checkable (j : nat) (c : QAction) :
  m0 !! j = Some c -> inGroup c = true -> checkable c = true.
Proof.
  intros Hj Hg. unfold groupCheckable in Hcheckable.
  rewrite forallb_forall in Hcheckable.
  specialize (Hcheckable c ltac:(apply list_elem_of_In; eapply list_elem_of_lookup_2, Hj)).
  now rewrite Hg in Hcheckable.
Qed.

Lemma lastBelow_lt (k w : nat) : lastB k = Some w -> (w < k)%nat.
Proof.
  induction k as [| k IH]; simpl; [discriminate |].
  destruct (m0 !! k) as [a |]; [destruct (inGroup a && wanted options a) |];
    intros H; try (specialize (IH H); lia).
  inversion H. lia.
Qed.

Lemma lastBelow_wanted (k w : nat) :
  lastB k = Some w ->
  exists a, m0 !! w = Some a /\ inGroup a = true /\ wanted options a = true.
Proof.
  induction k as [| k IH]; simpl; [discriminate |].
  destruct (m0 !! k) as [a |] eqn:Hk;
    [destruct (inGroup a && wanted options a) eqn:Hw |]; intros H; auto.
  inversion H; subst. exists a. apply andb_true_iff in Hw as [? ?]. auto.
Qed.

Lemma state_0 : imap (state 0) m0 = m0.
Proof.
  apply list_eq. intros j. rewrite list_lookup_imap.
  destruct (m0 !! j) as [c |]; [| reflexivity]. simpl. f_equal.
  unfold stateAfter. simpl. destruct (inGroup c); apply withChecked_same.
Qed.

Lemma state_step (k : nat) (a0 : QAction) :
  m0 !! k = Some a0 ->
  checkFromOptions options (imap (state k) m0) k = imap (state (S k)) m0.
Proof.
  intros Hk.
  assert (Hcur : imap (state k) m0 !! k = Some (state k k a0))
    by (rewrite list_lookup_imap, Hk; reflexivity).
  unfold checkFromOptions. rewrite Hcur.
  apply list_eq. intros j.
  rewrite (setChecked_lookup _ _ _ _ j Hcur), !list_lookup_imap.
  destruct (m0 !! j) as [c |] eqn:Hj; [| reflexivity].
  simpl. f_equal. fold (wanted options a0).
  assert (HlastS : lastB (S k) =
            if inGroup a0 && wanted options a0 then Some k else lastB k)
    by (cbn [lastBelow]; now rewrite Hk).
  pose proof (group_checkable k a0 Hk) as Hgc0.
  pose proof (lastBelow_lt k) as Hlt.
  unfold stateAfter. rewrite HlastS, Nat.ltb_irrefl. clear HlastS.
  destruct (Nat.eqb_spec j k) as [-> | Hne].
  - (* the action at hand *)
    rewrite Hj in Hk. inversion Hk; subst c. clear Hk.
    assert (HkS : (k <? S k)%nat = true) by (apply Nat.ltb_lt; lia).
    rewrite ?HkS, ?Nat.ltb_irrefl, ?Nat.eqb_refl.
    destruct (lastB k) as [w |] eqn:Hlast.
    + specialize (Hlt w eq_refl).
      assert (Hkw : (k =? w)%nat = false) by (apply Nat.eqb_neq; lia).
      rewrite Hkw.
      destruct (inGroup a0); [rewrite (Hgc0 eq_refl) | ];
        destruct (wanted options a0), (checked a0) eqn:Hc; try destruct (checkable a0);
        cbn; rewrite ?Nat.eqb_refl, ?Hkw, ?Hc; try reflexivity; now destruct a0.
    + destruct (inGroup a0); [rewrite (Hgc0 eq_refl) | ];
        destruct (wanted options a0), (checked a0) eqn:Hc; try destruct (checkable a0);
        cbn; rewrite ?Nat.eqb_refl, ?Hc; try reflexivity; now destruct a0.
  - (* another action *)
    assert (HjS : (j <? S k)%nat = (j <? k)%nat).
    { destruct (Nat.ltb_spec j k), (Nat.ltb_spec j (S k)); auto; lia. }
    rewrite HjS.
    assert (Hjk : (j =? k)%nat = false) by now apply Nat.eqb_neq.
    destruct (inGroup c) eqn:Hgc.
    + destruct (inGroup a0) eqn:Hg0.
      * rewrite (Hgc0 eq_refl).
        destruct (lastB k) as [w |] eqn:Hlast.
        -- specialize (Hlt w eq_refl).
           assert (Hkw : (k =? w)%nat = false) by (apply Nat.eqb_neq; lia).
           rewrite Hkw.
           destruct (wanted options a0); cbn; rewrite ?Hjk, ?Hlast; reflexivity.
        -- destruct (j <? k)%nat eqn:Hjlt;
             destruct (wanted options a0), (checked a0) eqn:Hc0; cbn;
             rewrite ?Hjk, ?Hlast; try reflexivity.
           destruct (checked c) eqn:Hcc; [| reflexivity].
           exfalso. apply Hne.
           exact (Hexclusive j k c a0 Hj Hk Hgc Hg0 Hcc Hc0).
      * cbn. rewrite !andb_false_r.
        now destruct (negb (checkable a0) || _).
    + rewrite !andb_false_r.
      destruct (inGroup a0) eqn:Hg0; cbn;
        now destruct (negb (checkable a0) || _).
Qed.

Lemma state_loop (len k : nat) :
  (k + len = length m0)%nat ->
  fold_left (checkFromOptions options) (seq k len) (imap (state k) m0) =
  imap (state (length m0)) m0.
Proof.
  revert k. induction len as [| len IH]; intros k Hlen; simpl.
  - now replace (length m0) with k by lia.
  - destruct (lookup_lt_is_Some_2 m0 k ltac:(lia)) as [a0 Hk].
    rewrite (state_step k a0 Hk). apply IH. lia.
Qed.

Lemma state_final : imap (state (length m0)) m0 = expectedMenu options m0.
Proof.
  unfold expectedMenu. apply list_eq. intros j. rewrite !list_lookup_imap.
  destruct (m0 !! j) as [c |] eqn:Hj; [| reflexivity]. simpl. f_equal.
  pose proof (lookup_lt_Some _ _ _ Hj) as Hlt.
  apply Nat.ltb_lt in Hlt.
  unfold stateAfter, expectedChecked, lastGroupWanted. rewrite Hlt. f_equal.
  destruct (inGroup c) eqn:Hg.
  - rewrite (group_checkable j c Hj Hg).
    destruct (lastB (length m0)) as [w |].
    + destruct (Nat.eqb_spec j w) as [-> | Hne].
      * symmetry. now apply bool_decide_eq_true.
      * symmetry. apply bool_decide_eq_false. congruence.
    + symmetry. now apply bool_decide_eq_false.
  - now destruct (checkable c).
Qed.

Lemma copyOptionsToMenu_expected :
  copyOptionsToMenu options m0 = expectedMenu options m0.
Proof.
  unfold copyOptionsToMenu. rewrite <- state_final.
  rewrite <- state_0 at 2. apply state_loop. reflexivity.
Qed.

End ExclusiveGroup.

(** The closed form looks at the actions only, not at their check marks,
    except for those of the actions that cannot be checked. *)

Lemma lastBelow_unchecked (options : rs.RouteStringOptions) (m m' : QMenu) (k : nat) :
  unchecked <$> m = unchecked <$> m' ->
  lastBelow options m k = lastBelow options m' k.
Proof.
  intros Hst. induction k as [| k IH]; [reflexivity |]. cbn [lastBelow].
  assert (H : (unchecked <$> m) !! k = (unchecked <$> m') !! k) by now rewrite Hst.
  rewrite !list_lookup_fmap in H.
  destruct (m !! k) as [a |], (m' !! k) as [a' |]; try discriminate; [| exact IH].
  simpl in H. inversion H as [[Hn Hd Hc Hg]].
  unfold wanted. now rewrite Hd, Hg, IH.
Qed.

Lemma expectedMenu_unchecked (options : rs.RouteStringOptions) (m : QMenu) :
  unchecked <$> expectedMenu options m = unchecked <$> m.
Proof.
  unfold expectedMenu. apply list_eq. intros j.
  rewrite !list_lookup_fmap, list_lookup_imap. now destruct (m !! j).
Qed.

Lemma unchecked_length (m m' : QMenu) :
  unchecked <$> m = unchecked <$> m' -> length m = length m'.
Proof.
  intros H. now rewrite <- (length_fmap unchecked m), H, length_fmap.
Qed.

Lemma groupCheckable_unchecked (m : QMenu) :
  groupCheckable (unchecked <$> m) = groupCheckable m.
Proof. unfold groupCheckable. apply forallb_fmap. Qed.

Lemma expectedMenu_groupCheckable (options : rs.RouteStringOptions) (m : QMenu) :
  groupCheckable (expectedMenu options m) = groupCheckable m.
Proof.
  now rewrite <- groupCheckable_unchecked, expectedMenu_unchecked,
    groupCheckable_unchecked.
Qed.

Lemma expectedMenu_exclusive (options : rs.RouteStringOptions) (m : QMenu) :
  groupCheckable m = true -> exclusive (expectedMenu options m).
Proof.
  intros Hgc i j a c Hi Hj Hga Hgc' Hca Hcc.
  unfold expectedMenu in Hi, Hj. rewrite list_lookup_imap in Hi, Hj.
  destruct (m !! i) as [a0 |] eqn:Hi0; [| discriminate].
  destruct (m !! j) as [c0 |] eqn:Hj0; [| discriminate].
  simpl in Hi, Hj. inversion Hi; subst a. inversion Hj; subst c.
  cbn in Hga, Hgc', Hca, Hcc. unfold expectedChecked in Hca, Hcc.
  rewrite (group_checkable m Hgc i a0 Hi0 Hga), Hga in Hca.
  rewrite (group_checkable m Hgc j c0 Hj0 Hgc'), Hgc' in Hcc.
  apply bool_decide_eq_true in Hca, Hcc. congruence.
Qed.

Lemma expectedMenu_lookup (options : rs.RouteStringOptions) (m : QMenu) (j : nat) :
  expectedMenu options m !! j =
  (fun act => withChecked act (expectedChecked options m j act)) <$> m !! j.
Proof. unfold expectedMenu. apply list_lookup_imap. Qed.

Lemma expectedMenu_idempotent (options : rs.RouteStringOptions) (m : QMenu) :
  expectedMenu options (expectedMenu options m) = expectedMenu options m.
Proof.
  pose proof (expectedMenu_unchecked options m) as Hst.
  apply list_eq. intros j. rewrite !expectedMenu_lookup.
  destruct (m !! j) as [c |]; [| reflexivity]. simpl. f_equal.
  unfold expectedChecked, lastGroupWanted. cbn [checkable inGroup withChecked checked].
  rewrite (lastBelow_unchecked options _ m _ Hst), (unchecked_length _ _ Hst).
  change (wanted options (withChecked c _)) with (wanted options c).
  unfold withChecked. cbn. now destruct (checkable c).
Qed.

Lemma copyOptionsToMenu_unchecked (options : rs.RouteStringOptions) (m : QMenu) :
  unchecked <$> copyOptionsToMenu options m = unchecked <$> m.
Proof.
  unfold copyOptionsToMenu. generalize (seq 0 (length m)) as l. intros l.
  revert m. induction l as [| i l IH]; intros m; [reflexivity |].
  simpl. rewrite IH. apply checkFromOptions_unchecked.
Qed.

Lemma copyOptionsToMenu_fixed (options : rs.RouteStringOptions) (m : QMenu) :
  (forall act, act ∈ m -> checkable act = true -> checked act = wanted options act) ->
  copyOptionsToMenu options m = m.
Proof.
  intros Hall.
  assert (Hstep : forall i, checkFromOptions options m i = m).
  { intros i. unfold checkFromOptions.
    destruct (m !! i) as [a |] eqn:Hi; [| reflexivity].
    unfold setChecked. rewrite Hi. fold (wanted options a).
    destruct (checkable a) eqn:Hc; [| reflexivity].
    rewrite (Hall a (list_elem_of_lookup_2 _ _ _ Hi) Hc).
    now rewrite eqb_reflx. }
  unfold copyOptionsToMenu. generalize (seq 0 (length m)) as l.
  induction l as [| i l IH]; [reflexivity |]. simpl. now rewrite Hstep.
Qed.

(** ** The copy loop and the flags of single actions *)

Lemma toBool_pow2 (k o : Z) :
  0 <= k -> rs.toBool (rs.and (2 ^ k) o) = Z.testbit o k.
Proof.
  intros Hk. unfold rs.toBool, rs.and.
  destruct (Z.eqb_spec (Z.land (2 ^ k) o) 0) as [Hz | Hnz]; simpl.
  - pose proof (testbit_land_zero _ _ k Hz) as H.
    rewrite Z.pow2_bits_eqb, Z.eqb_refl in H by assumption. now rewrite <- H.
  - symmetry. now apply pow2_land_nonzero.
Qed.

Lemma menuBits_testbit_elem (m : QMenu) (a : QAction) (n : Z) :
  a ∈ m -> Z.testbit (data a) n = true -> Z.testbit (menuBits m) n = true.
Proof.
  induction m as [| b rest IH]; intros Hin Hbit; [now apply elem_of_nil in Hin |].
  simpl. rewrite Z.lor_spec. apply elem_of_cons in Hin as [<- | Hin].
  - now rewrite Hbit.
  - rewrite (IH Hin Hbit). apply orb_true_r.
Qed.

Lemma checkedBits_testbit (m : QMenu) (a : QAction) (n : Z) :
  pairwiseDisjoint m = true -> a ∈ m -> Z.testbit (data a) n = true ->
  Z.testbit (checkedBits m) n = checked a.
Proof.
  induction m as [| b rest IH]; intros Hdis Hin Hbit;
    [now apply elem_of_nil in Hin |].
  simpl in Hdis. apply andb_true_iff in Hdis as [Hb Hrest].
  apply elem_of_cons in Hin as [<- | Hin].
  - pose proof (menuBits_testbit_false rest (data a) n Hb Hbit) as Hm.
    apply checkedBits_below_menuBits in Hm.
    simpl. destruct (checked a); [| exact Hm].
    now rewrite Z.lor_spec, Hbit.
  - assert (Hbn : Z.testbit (data b) n = false).
    { rewrite forallb_forall in Hb.
      specialize (Hb a ltac:(now apply list_elem_of_In)). apply Z.eqb_eq in Hb.
      pose proof (testbit_land_zero _ _ n Hb) as Hz.
      rewrite Hbit, andb_true_r in Hz. exact Hz. }
    simpl. destruct (checked b); [rewrite Z.lor_spec, Hbn |]; now apply IH.
Qed.

Lemma wanted_copyMenuState (m : QMenu) (o : rs.RouteStringOptions) (a : QAction) :
  pairwiseDisjoint m = true -> menuWellFormed m = true ->
  a ∈ m -> checkable a = true ->
  wanted (copyMenuState m o) a = checked a.
Proof.
  intros Hdis Hwf Hin Hc.
  unfold menuWellFormed in Hwf. rewrite forallb_forall in Hwf.
  specialize (Hwf a ltac:(now apply list_elem_of_In)). rewrite Hc in Hwf.
  apply isSingleBit_pow2 in Hwf as (k & Hk & Hd).
  assert (Hbit : Z.testbit (data a) k = true)
    by (rewrite Hd, Z.pow2_bits_eqb, Z.eqb_refl by assumption; reflexivity).
  unfold wanted. rewrite Hd, toBool_pow2, copyMenuState_spec by assumption.
  rewrite Z.lor_spec, Z.land_spec, Z.lnot_spec by assumption.
  rewrite (menuBits_testbit_elem m a k Hin Hbit), andb_false_r.
  now apply checkedBits_testbit.
Qed.

Lemma copyMenuState_bit (m : QMenu) (n : Z) :
  0 <= n ->
  (forall o, Z.testbit (copyMenuState m o) n = Z.testbit o n) \/
  (exists b, forall o, Z.testbit (copyMenuState m o) n = b).
Proof.
  intros Hn. unfold copyMenuState.
  induction m as [| a rest IH]; [now left |].
  simpl. destruct IH as [Hid | [b Hb]]; [| right; exists b; intros o; apply Hb].
  destruct (Z.testbit (data a) n) eqn:Hbit.
  - right. exists (checked a). intros o.
    rewrite Hid, copyAction_testbit, Hbit by assumption.
    destruct (checked a); [apply orb_true_r | apply andb_false_r].
  - left. intros o. rewrite Hid. now apply copyAction_other_bits.
Qed.

Lemma copyMenuState_idempotent (m : QMenu) (o : rs.RouteStringOptions) :
  copyMenuState m (copyMenuState m o) = copyMenuState m o.
Proof.
  apply Z.bits_inj'. intros n Hn.
  destruct (copyMenuState_bit m n Hn) as [Hid | [b Hb]].
  - apply Hid.
  - now rewrite !Hb.
Qed.

(** ** The dialog: options and menu *)

Lemma lookup_of_unchecked (m M : QMenu) (j : nat) (a0 : QAction) :
  unchecked <$> m = M -> M !! j = Some a0 ->
  exists a, m !! j = Some a /\ unchecked a = a0.
Proof.
  intros <- Hj. rewrite list_lookup_fmap in Hj.
  destruct (m !! j) as [a |]; [| discriminate].
  exists a. split; [reflexivity |]. simpl in Hj. congruence.
Qed.

Lemma exclusive_of_unchecked (m : QMenu) : exclusive (unchecked <$> m).
Proof.
  intros i j a c Hi _ _ _ Hca _. rewrite list_lookup_fmap in Hi.
  destruct (m !! i); [| discriminate]. simpl in Hi. inversion Hi; subst a.
  discriminate Hca.
Qed.

Lemma has_wanted `{E : rs.Enumerators} (o : rs.RouteStringOptions) (a : QAction)
    (f : rs.RouteStringOption) :
  data a = rs.value f -> rs.has o f = wanted o a.
Proof.
  intros Hd. unfold rs.has, wanted, rs.and. now rewrite Hd, Z.land_comm.
Qed.

Section MenuRoundTrip.
Variable m : QMenu.
Hypothesis Hdis : pairwiseDisjoint m = true.
Hypothesis Hwf : menuWellFormed m = true.
Hypothesis Hgc : groupCheckable m = true.
Hypothesis Hex : exclusive m.

Lemma roundtrip_action (o : rs.RouteStringOptions) (j : nat) (a : QAction) :
  m !! j = Some a -> checkable a = true ->
  wanted (copyMenuState (copyOptionsToMenu o m) o) a = expectedChecked o m j a.
Proof.
  intros Hj Hc. rewrite (copyOptionsToMenu_expected o m Hgc Hex).
  set (a' := withChecked a (expectedChecked o m j a)).
  assert (Hj' : expectedMenu o m !! j = Some a')
    by (rewrite expectedMenu_lookup, Hj; reflexivity).
  change (wanted ?x a) with (wanted x a').
  rewrite (wanted_copyMenuState (expectedMenu o m) o a').
  - reflexivity.
  - now rewrite <- pairwiseDisjoint_unchecked, expectedMenu_unchecked,
      pairwiseDisjoint_unchecked.
  - now rewrite <- menuWellFormed_unchecked, expectedMenu_unchecked,
      menuWellFormed_unchecked.
  - eapply list_elem_of_lookup_2, Hj'.
  - exact Hc.
Qed.
End MenuRoundTrip.

Section DialogMenuFlags.
Context `{E : rs.Enumerators}.
Hypothesis Horth : rs.orthogonal E = true.

Lemma value_pow2 (f : rs.RouteStringOption) : exists k, 0 <= k /\ rs.value f = 2 ^ k.
Proof. apply isSingleBit_pow2, value_isSingleBit, Horth. Qed.

Lemma value_eqb_other (f g : rs.RouteStringOption) :
  f <> g -> (rs.value g =? rs.value f) = false.
Proof.
  intros Hne. apply Z.eqb_neq. intros Heq.
  pose proof (value_disjoint Horth f g Hne) as Hd. apply Z.eqb_eq in Hd.
  rewrite Heq, Z.land_diag in Hd.
  destruct (value_pow2 f) as (k & Hk & Hv). rewrite Hv in Hd.
  pose proof (Z.pow_pos_nonneg 2 k ltac:(lia) Hk). lia.
Qed.

Lemma value_eqb_zero (f : rs.RouteStringOption) : (0 =? rs.value f) = false.
Proof.
  apply Z.eqb_neq. destruct (value_pow2 f) as (k & Hk & Hv). rewrite Hv.
  pose proof (Z.pow_pos_nonneg 2 k ltac:(lia) Hk). lia.
Qed.

Lemma hasAction_table (h : bool) (f : rs.RouteStringOption) :
  hasAction h f =
  match f with rs.REPORT => false | rs.SID_STAR => h | _ => true end.
Proof.
  unfold hasAction.
  destruct h, f; cbn [buildMenu app existsb newAction separator data];
    rewrite ?Z.eqb_refl, ?value_eqb_zero, ?orb_true_r; try reflexivity;
    rewrite ?value_eqb_other by discriminate; reflexivity.
Qed.

Lemma buildMenu_groupCheckable (h : bool) : groupCheckable (buildMenu h) = true.
Proof. now destruct h. Qed.

Lemma no_action_no_bit (h : bool) (f : rs.RouteStringOption) (k : Z) (M : QMenu) :
  hasAction h f = false -> unchecked <$> M = buildMenu h ->
  0 <= k -> rs.value f = 2 ^ k ->
  Forall (fun act => Z.testbit (data act) k = false) M.
Proof.
  intros Hno HM Hk Hv. apply Forall_forall. intros act Hin.
  assert (Hin' : unchecked act ∈ buildMenu h)
    by (rewrite <- HM; apply list_elem_of_fmap; eauto).
  change (data act) with (data (unchecked act)).
  pose proof (buildMenu_pairwiseDisjoint Horth h) as Hdis.
  pose proof (buildMenu_wellFormed Horth h) as Hwf.
  unfold menuWellFormed in Hwf. rewrite forallb_forall in Hwf.
  specialize (Hwf _ ltac:(apply list_elem_of_In; exact Hin')).
  unfold hasAction in Hno.
  assert (Hne : (data (unchecked act) =? rs.value f) = false).
  { destruct (data (unchecked act) =? rs.value f) eqn:Heq; [| reflexivity].
    rewrite <- Hno. symmetry. apply existsb_exists.
    exists (unchecked act). split; [now apply list_elem_of_In | exact Heq]. }
  apply Z.eqb_neq in Hne.
  destruct (checkable (unchecked act)).
  - apply isSingleBit_pow2 in Hwf as (k' & Hk' & Hd). rewrite Hd in *.
    rewrite Z.pow2_bits_eqb by assumption. apply Z.eqb_neq. congruence.
  - apply Z.eqb_eq in Hwf. rewrite Hwf. apply Z.bits_0.
Qed.

Lemma has_no_action (h : bool) (f : rs.RouteStringOption) (M : QMenu)
    (o : rs.RouteStringOptions) :
  hasAction h f = false -> unchecked <$> M = buildMenu h ->
  rs.has (copyMenuState M o) f = rs.has o f.
Proof.
  intros Hno HM. destruct (value_pow2 f) as (k & Hk & Hv).
  unfold rs.has, rs.and.
  rewrite !(Z.land_comm _ (rs.value f)), Hv.
  change (rs.toBool (Z.land (2 ^ k) ?x)) with (rs.toBool (rs.and (2 ^ k) x)).
  rewrite !toBool_pow2 by assumption.
  apply copyMenuState_other_bits; [assumption |].
  eapply no_action_no_bit; eassumption.
Qed.

Lemma dialog_menu_facts (h : bool) (M : QMenu) :
  unchecked <$> M = buildMenu h ->
  pairwiseDisjoint M = true /\ menuWellFormed M = true /\ groupCheckable M = true.
Proof.
  intros HM. repeat split.
  - rewrite <- pairwiseDisjoint_unchecked, HM. now apply buildMenu_pairwiseDisjoint.
  - rewrite <- menuWellFormed_unchecked, HM. now apply buildMenu_wellFormed.
  - rewrite <- groupCheckable_unchecked, HM. apply buildMenu_groupCheckable.
Qed.

Lemma lastGroupWanted_dialog (h : bool) (M : QMenu) (o : rs.RouteStringOptions) :
  unchecked <$> M = buildMenu h ->
  lastGroupWanted o M = lastGroupWanted o (buildMenu h).
Proof.
  intros HM. unfold lastGroupWanted.
  assert (Hst : unchecked <$> M = unchecked <$> buildMenu h)
    by now rewrite buildMenu_unchecked.
  now rewrite (unchecked_length _ _ Hst), (lastBelow_unchecked o _ _ _ Hst).
Qed.

End DialogMenuFlags.

Section DialogExtras.
Context `{G : AtoolsGeo} `{E : rs.Enumerators} `{P : PunctuationNoise}
        `{DB : !NavDatabase}.

Lemma menu_triggered (d : RouteStringDialog.t) :
  RouteStringDialog.updatingActions d = false ->
  RouteStringDialog.menu (toolButtonOptionTriggered d) =
  copyOptionsToMenu
    (copyMenuState (RouteStringDialog.menu d) (RouteStringDialog.options d))
    (RouteStringDialog.menu d).
Proof. intros Hu. unfold toolButtonOptionTriggered. now rewrite Hu. Qed.

Lemma options_triggered (d : RouteStringDialog.t) :
  RouteStringDialog.updatingActions d = false ->
  RouteStringDialog.options (toolButtonOptionTriggered d) =
  copyMenuState (RouteStringDialog.menu d) (RouteStringDialog.options d).
Proof. intros Hu. unfold toolButtonOptionTriggered. now rewrite Hu. Qed.

Lemma updating_triggered (d : RouteStringDialog.t) :
  RouteStringDialog.updatingActions d = false ->
  RouteStringDialog.updatingActions (toolButtonOptionTriggered d) = false.
Proof. intros Hu. unfold toolButtonOptionTriggered. now rewrite Hu. Qed.

Lemma menu_kept_by_trigger (h : bool) (d : RouteStringDialog.t) :
  rs.orthogonal E = true ->
  unchecked <$> RouteStringDialog.menu d = buildMenu h ->
  RouteStringDialog.updatingActions d = false ->
  RouteStringDialog.menu (toolButtonOptionTriggered d) = RouteStringDialog.menu d.
Proof.
  intros Horth Hm Hu. rewrite (menu_triggered d Hu).
  destruct (dialog_menu_facts Horth h _ Hm) as (Hdis & Hwf & _).
  apply copyOptionsToMenu_fixed. intros act Hin Hc. symmetry.
  now apply wanted_copyMenuState.
Qed.

End DialogExtras.

(** X3: for every options value, [updateButtonState] leaves the menu in
    this state: an action outside [procActionGroup] is checked exactly if
    its flag is set, and of the actions of the group only the last one in
    menu order whose flag is set is checked, none if no such flag is set.
    Actions that are not checkable keep their state. *)
Theorem menu_after_update `{G : AtoolsGeo} (d : RouteStringDialog.t) :
  groupCheckable (RouteStringDialog.menu d) = true ->
  (length (groupChecked (RouteStringDialog.menu d)) <= 1)%nat ->
  RouteStringDialog.menu (updateButtonState d) =
    expectedMenu (RouteStringDialog.options d) (RouteStringDialog.menu d).
Proof.
  intros Hgc Hex. apply copyOptionsToMenu_expected; [exact Hgc |].
  now apply exclusive_groupChecked.
Qed.

(** X4: [updateButtonState] is idempotent: a second call changes nothing
    in the dialog. *)
Theorem updateButtonState_idempotent `{G : AtoolsGeo} (d : RouteStringDialog.t) :
  groupCheckable (RouteStringDialog.menu d) = true ->
  (length (groupChecked (RouteStringDialog.menu d)) <= 1)%nat ->
  updateButtonState (updateButtonState d) = updateButtonState d.
Proof.
  intros Hgc Hex. apply exclusive_groupChecked in Hex.
  unfold updateButtonState. cbn [RouteStringDialog.options RouteStringDialog.updatingActions
       RouteStringDialog.menu RouteStringDialog.plainTextEditRouteString
       RouteStringDialog.textEditRouteStringErrors RouteStringDialog.flightplan
       RouteStringDialog.speedKts RouteStringDialog.altitudeIncluded].
  f_equal.
  rewrite (copyOptionsToMenu_expected _ _ Hgc Hex).
  rewrite copyOptionsToMenu_expected.
  - apply expectedMenu_idempotent.
  - now rewrite expectedMenu_groupCheckable.
  - now apply expectedMenu_exclusive.
Qed.

(** X5: when an action of the menu is triggered, the options afterwards
    mirror the menu: for every checkable action its flag is set exactly
    if the action is checked; and the update of the menu that follows
    leaves every check mark as the user set it. *)
Theorem trigger_mirrors_menu `{G : AtoolsGeo} `{E : rs.Enumerators}
    `{P : PunctuationNoise} `{DB : !NavDatabase}
    (hasSidStarInDatabase : bool) (d : RouteStringDialog.t) :
  rs.orthogonal E = true ->
  unchecked <$> RouteStringDialog.menu d = buildMenu hasSidStarInDatabase ->
  RouteStringDialog.updatingActions d = false ->
  RouteStringDialog.menu (toolButtonOptionTriggered d) = RouteStringDialog.menu d /\
  (forall act, act ∈ RouteStringDialog.menu d -> checkable act = true ->
     wanted (RouteStringDialog.options (toolButtonOptionTriggered d)) act =
       checked act).
Proof.
  intros Horth Hm Hu. split.
  - now apply (menu_kept_by_trigger hasSidStarInDatabase).
  - intros act Hin Hc. rewrite (options_triggered d Hu).
    destruct (dialog_menu_facts Horth _ _ Hm) as (Hdis & Hwf & _).
    now apply wanted_copyMenuState.
Qed.

(** X6: triggering twice is the same as triggering once, as far as the
    options and the menu go. *)
Theorem trigger_twice `{G : AtoolsGeo} `{E : rs.Enumerators}
    `{P : PunctuationNoise} `{DB : !NavDatabase}
    (hasSidStarInDatabase : bool) (d : RouteStringDialog.t) :
  rs.orthogonal E = true ->
  unchecked <$> RouteStringDialog.menu d = buildMenu hasSidStarInDatabase ->
  let d' := toolButtonOptionTriggered d in
  RouteStringDialog.options (toolButtonOptionTriggered d') =
    RouteStringDialog.options d' /\
  RouteStringDialog.menu (toolButtonOptionTriggered d') = RouteStringDialog.menu d'.
Proof.
  intros Horth Hm d'.
  destruct (RouteStringDialog.updatingActions d) eqn:Hu.
  - assert (Hd : d' = d)
      by (unfold d', toolButtonOptionTriggered; now rewrite Hu).
    rewrite Hd. fold d'. rewrite Hd. now split.
  - pose proof (menu_kept_by_trigger hasSidStarInDatabase d Horth Hm Hu) as Hmenu.
    fold d' in Hmenu.
    pose proof (updating_triggered d Hu) as Hu'. fold d' in Hu'.
    assert (Hm' : unchecked <$> RouteStringDialog.menu d' =
                  buildMenu hasSidStarInDatabase) by now rewrite Hmenu.
    split.
    + rewrite (options_triggered d' Hu'). unfold d' at 2 3.
      rewrite (options_triggered d Hu). fold d'. rewrite Hmenu.
      apply copyMenuState_idempotent.
    + now apply (menu_kept_by_trigger hasSidStarInDatabase).
Qed.

(** X7: a flag that no action of the menu carries is never changed by
    [toolButtonOptionTriggered].  [rs::REPORT] is such a flag, and in a
    database without SID and STAR so is [rs::SID_STAR]. *)
Theorem trigger_keeps_flags_without_action `{G : AtoolsGeo} `{E : rs.Enumerators}
    `{P : PunctuationNoise} `{DB : !NavDatabase}
    (hasSidStarInDatabase : bool) (d : RouteStringDialog.t) :
  rs.orthogonal E = true ->
  unchecked <$> RouteStringDialog.menu d = buildMenu hasSidStarInDatabase ->
  (forall f, hasAction hasSidStarInDatabase f = false ->
     rs.has (RouteStringDialog.options (toolButtonOptionTriggered d)) f =
     rs.has (RouteStringDialog.options d) f) /\
  hasAction hasSidStarInDatabase rs.REPORT = false /\
  hasAction false rs.SID_STAR = false.
Proof.
  intros Horth Hm. split; [| now rewrite !(hasAction_table Horth)].
  intros f Hno.
  destruct (RouteStringDialog.updatingActions d) eqn:Hu.
  - unfold toolButtonOptionTriggered. now rewrite Hu.
  - rewrite (options_triggered d Hu).
    now apply (has_no_action Horth hasSidStarInDatabase).
Qed.

(** X8: what [saveState] stores is what [restoreState] brings back: the
    options are the saved ones, the menu shows them, and the text is the
    description handed to the dialog or, if that is empty, the
    description of the current route written with the saved options. *)
Theorem restore_after_save `{G : AtoolsGeo} `{E : rs.Enumerators}
    `{P : PunctuationNoise} `{DB : !NavDatabase} `{C : Constants}
    (routeString : string) (route : Route) (cruiseSpeedKts : Z)
    (options : rs.RouteStringOptions) (s : gmap string QVariant)
    (d : RouteStringDialog.t) :
  groupCheckable (RouteStringDialog.menu d) = true ->
  (length (groupChecked (RouteStringDialog.menu d)) <= 1)%nat ->
  let d' := restoreState routeString route cruiseSpeedKts (saveState options s) d in
  RouteStringDialog.options d' = options /\
  RouteStringDialog.menu d' = expectedMenu options (RouteStringDialog.menu d) /\
  RouteStringDialog.plainTextEditRouteString d' =
    (if String.eqb routeString ""
     then createStringForRoute route cruiseSpeedKts options
     else routeString).
Proof.
  intros Hgc Hex d'.
  assert (Hopt : getOptionsFromSettings (saveState options s) = options).
  { unfold getOptionsFromSettings, saveState, valueInt, setValue.
    now rewrite lookup_insert_eq. }
  unfold d', restoreState, updateButtonState, withPlainText, withOptions.
  cbn [RouteStringDialog.options RouteStringDialog.updatingActions
       RouteStringDialog.menu RouteStringDialog.plainTextEditRouteString
       RouteStringDialog.textEditRouteStringErrors RouteStringDialog.flightplan
       RouteStringDialog.speedKts RouteStringDialog.altitudeIncluded].
  rewrite Hopt. repeat split.
  apply copyOptionsToMenu_expected; [exact Hgc |].
  now apply exclusive_groupChecked.
Qed.

(** X9: [updateButtonState] keeps the group exclusive: if at most one
    action of [procActionGroup] was checked before, at most one is
    checked afterwards, whatever the options are; and the actions of the
    group stay checkable. *)
Theorem update_keeps_group_exclusive `{G : AtoolsGeo} (d : RouteStringDialog.t) :
  groupCheckable (RouteStringDialog.menu d) = true ->
  (length (groupChecked (RouteStringDialog.menu d)) <= 1)%nat ->
  (length (groupChecked (RouteStringDialog.menu (updateButtonState d))) <= 1)%nat /\
  groupCheckable (RouteStringDialog.menu (updateButtonState d)) = true.
Proof.
  intros Hgc Hex. apply exclusive_groupChecked in Hex.
  unfold updateButtonState. cbn [RouteStringDialog.options RouteStringDialog.updatingActions
       RouteStringDialog.menu RouteStringDialog.plainTextEditRouteString
       RouteStringDialog.textEditRouteStringErrors RouteStringDialog.flightplan
       RouteStringDialog.speedKts RouteStringDialog.altitudeIncluded].
  rewrite (copyOptionsToMenu_expected _ _ Hgc Hex). split.
  - apply exclusive_groupChecked. now apply expectedMenu_exclusive.
  - now rewrite expectedMenu_groupCheckable.
Qed.

(** X10: the loop of [updateButtonState] changes nothing in the options
    menu but check marks: whatever the dialog holds, the menu has the same
    actions afterwards, in the same order and with the same names, flags,
    checkability and group. *)
Theorem update_keeps_menu_actions `{G : AtoolsGeo} (d : RouteStringDialog.t) :
  unchecked <$> RouteStringDialog.menu (updateButtonState d) =
    unchecked <$> RouteStringDialog.menu d.
Proof. apply copyOptionsToMenu_unchecked. Qed.

(** What the round trip over the menu makes of the flags, for the menu
    of the dialog with at most one action of the group checked. *)
Lemma roundtrip_flags `{E : rs.Enumerators} (hasSidStarInDatabase : bool)
    (m : QMenu) (o : rs.RouteStringOptions) :
  rs.orthogonal E = true ->
  unchecked <$> m = buildMenu hasSidStarInDatabase ->
  exclusive m ->
  forall f,
    rs.has (copyMenuState (copyOptionsToMenu o m) o) f =
    if bool_decide (f ∈ groupFlags hasSidStarInDatabase)
    then bool_decide (lastGroupFlag hasSidStarInDatabase o = Some f)
    else rs.has o f.
Proof.
  intros Horth Hm Hex f.
  destruct (dialog_menu_facts Horth _ _ Hm) as (Hdis & Hwf & Hgc).
  assert (Hflag : forall j n g,
            buildMenu hasSidStarInDatabase !! j = Some (newAction n f g) ->
            rs.has (copyMenuState (copyOptionsToMenu o m) o) f =
            if g then bool_decide (lastGroupWanted o (buildMenu hasSidStarInDatabase)
                                   = Some j)
            else rs.has o f).
  { intros j n g Hj.
    destruct (lookup_of_unchecked m _ j _ Hm Hj) as (a & Ha & Hua).
    assert (Hd : data a = rs.value f) by exact (f_equal data Hua).
    assert (Hc : checkable a = true) by exact (f_equal checkable Hua).
    assert (Hg : inGroup a = g) by exact (f_equal inGroup Hua).
    rewrite (has_wanted _ a f Hd).
    rewrite (roundtrip_action m Hdis Hwf Hgc Hex o j a Ha Hc).
    unfold expectedChecked. rewrite Hc, Hg.
    rewrite (lastGroupWanted_dialog hasSidStarInDatabase m o Hm).
    destruct g; [reflexivity |]. symmetry. now apply has_wanted. }
  assert (Hnone : hasAction hasSidStarInDatabase f = false ->
            rs.has (copyMenuState (copyOptionsToMenu o m) o) f = rs.has o f).
  { intros Hno. apply (has_no_action Horth hasSidStarInDatabase); [exact Hno |].
    now rewrite copyOptionsToMenu_unchecked. }
  rewrite (hasAction_table Horth) in Hnone.
  unfold lastGroupFlag, lastGroupWanted.
  destruct hasSidStarInDatabase, f;
    try (rewrite (Hnone eq_refl); reflexivity);
    first
      [ rewrite (Hflag 0%nat _ _ eq_refl) | rewrite (Hflag 1%nat _ _ eq_refl)
      | rewrite (Hflag 2%nat _ _ eq_refl) | rewrite (Hflag 3%nat _ _ eq_refl)
      | rewrite (Hflag 4%nat _ _ eq_refl) | rewrite (Hflag 6%nat _ _ eq_refl)
      | rewrite (Hflag 7%nat _ _ eq_refl) | rewrite (Hflag 8%nat _ _ eq_refl)
      | rewrite (Hflag 9%nat _ _ eq_refl) | rewrite (Hflag 10%nat _ _ eq_refl)
      | rewrite (Hflag 11%nat _ _ eq_refl) | rewrite (Hflag 12%nat _ _ eq_refl)
      | rewrite (Hflag 13%nat _ _ eq_refl) | rewrite (Hflag 14%nat _ _ eq_refl)
      | rewrite (Hflag 15%nat _ _ eq_refl) ];
    try reflexivity;
    unfold lastGroupWanted;
    cbn [buildMenu app length lastBelow lookup list_lookup newAction separator
         inGroup andb groupFlags List.filter];
    unfold wanted, rs.has, rs.and, newAction; cbn [data];
    rewrite !(Z.land_comm o);
    repeat match goal with
           | |- context [rs.toBool ?x] => destruct (rs.toBool x)
           end;
    reflexivity.
Qed.

(** X11: what [updateButtonState] followed by [toolButtonOptionTriggered]
    makes of any options value: a flag outside the group of the
    procedure actions is kept, and of the flags of the group only the
    last one in menu order that was set stays set. *)
Theorem roundtrip_keeps_last_group_flag `{G : AtoolsGeo} `{E : rs.Enumerators}
    `{P : PunctuationNoise} `{DB : !NavDatabase}
    (hasSidStarInDatabase : bool) (d : RouteStringDialog.t) :
  rs.orthogonal E = true ->
  unchecked <$> RouteStringDialog.menu d = buildMenu hasSidStarInDatabase ->
  (length (groupChecked (RouteStringDialog.menu d)) <= 1)%nat ->
  forall f,
    rs.has (RouteStringDialog.options
              (toolButtonOptionTriggered (updateButtonState d))) f =
    if bool_decide (f ∈ groupFlags hasSidStarInDatabase)
    then bool_decide
           (lastGroupFlag hasSidStarInDatabase (RouteStringDialog.options d) = Some f)
    else rs.has (RouteStringDialog.options d) f.
Proof.
  intros Horth Hm Hex f. apply exclusive_groupChecked in Hex.
  rewrite options_triggered_after_update.
  now apply roundtrip_flags.
Qed.


(** ** The further statements at work in the sample world *)

Section ExtraWitnesses.
Existing Instance sampleGeo.
Existing Instance sampleEnumerators.
Existing Instance sampleNoise.
Existing Instance sampleDatabase.
Existing Instance sampleConstants.

Lemma menu_after_update_witness :
  let d := sampleCheckedDialog
             (sampleOptions [rs.NO_AIRWAYS; rs.SID_STAR; rs.SID_STAR_GENERIC]) "KJFK" in
  groupCheckable (RouteStringDialog.menu d) = true /\
  (length (groupChecked (RouteStringDialog.menu d)) <= 1)%nat /\
  RouteStringDialog.menu (updateButtonState d) =
    expectedMenu (RouteStringDialog.options d) (RouteStringDialog.menu d).
Proof.
  intros d. split; [reflexivity | split].
  - vm_compute. lia.
  - apply (menu_after_update d); [reflexivity |]. vm_compute. lia.
Defined.

Lemma updateButtonState_idempotent_witness :
  let d := sampleCheckedDialog
             (sampleOptions [rs.NO_AIRWAYS; rs.SID_STAR; rs.SID_STAR_GENERIC]) "KJFK" in
  groupCheckable (RouteStringDialog.menu d) = true /\
  (length (groupChecked (RouteStringDialog.menu d)) <= 1)%nat /\
  updateButtonState (updateButtonState d) = updateButtonState d.
Proof.
  intros d. split; [reflexivity | split].
  - vm_compute. lia.
  - apply (updateButtonState_idempotent d); [reflexivity |]. vm_compute. lia.
Defined.

Lemma trigger_mirrors_menu_witness :
  let d := sampleCheckedDialog (sampleOptions [rs.START_AND_DEST]) "KJFK" in
  rs.orthogonal sampleEnumerators = true /\
  unchecked <$> RouteStringDialog.menu d = buildMenu true /\
  RouteStringDialog.updatingActions d = false /\
  RouteStringDialog.menu (toolButtonOptionTriggered d) = RouteStringDialog.menu d.
Proof.
  intros d. split; [reflexivity | split; [reflexivity | split; [reflexivity |]]].
  destruct (trigger_mirrors_menu (E := sampleEnumerators) true d eq_refl eq_refl eq_refl) as [Hmenu _].
  exact Hmenu.
Defined.

Lemma trigger_twice_witness :
  let d := sampleCheckedDialog (sampleOptions [rs.START_AND_DEST]) "KJFK" in
  rs.orthogonal sampleEnumerators = true /\
  unchecked <$> RouteStringDialog.menu d = buildMenu true /\
  RouteStringDialog.options (toolButtonOptionTriggered (toolButtonOptionTriggered d)) =
    RouteStringDialog.options (toolButtonOptionTriggered d).
Proof.
  intros d. split; [reflexivity | split; [reflexivity |]].
  destruct (trigger_twice (E := sampleEnumerators) true d eq_refl eq_refl) as [Hoptions _].
  exact Hoptions.
Defined.

Lemma trigger_keeps_flags_without_action_witness :
  let d := sampleCheckedDialog (sampleOptions [rs.REPORT]) "KJFK" in
  rs.orthogonal sampleEnumerators = true /\
  unchecked <$> RouteStringDialog.menu d = buildMenu true /\
  hasAction true rs.REPORT = false /\
  rs.has (RouteStringDialog.options (toolButtonOptionTriggered d)) rs.REPORT =
    rs.has (RouteStringDialog.options d) rs.REPORT.
Proof.
  intros d. split; [reflexivity | split; [reflexivity | split; [reflexivity |]]].
  destruct (trigger_keeps_flags_without_action (E := sampleEnumerators) true d
              eq_refl eq_refl) as (Hkeep & _ & _).
  exact (Hkeep rs.REPORT eq_refl).
Defined.

Lemma restore_after_save_witness :
  let d := sampleCheckedDialog 0 "" in
  let o := sampleOptions [rs.DCT; rs.SID_STAR_NONE] in
  groupCheckable (RouteStringDialog.menu d) = true /\
  (length (groupChecked (RouteStringDialog.menu d)) <= 1)%nat /\
  RouteStringDialog.options
    (restoreState "KJFK ALB KBOS" (sampleRoute KJFK sampleLegs KBOS []) 450
       (saveState o ∅) d) = o.
Proof.
  intros d o. split; [reflexivity | split].
  - vm_compute. lia.
  - assert (Hlen : (length (groupChecked (RouteStringDialog.menu d)) <= 1)%nat)
      by (vm_compute; lia).
    destruct (restore_after_save "KJFK ALB KBOS" (sampleRoute KJFK sampleLegs KBOS [])
                450 o ∅ d eq_refl Hlen) as [Hoptions _].
    exact Hoptions.
Defined.

Lemma update_keeps_group_exclusive_witness :
  let d := sampleCheckedDialog
             (sampleOptions [rs.SID_STAR; rs.SID_STAR_GENERIC; rs.SID_STAR_NONE]) "KJFK" in
  groupCheckable (RouteStringDialog.menu d) = true /\
  (length (groupChecked (RouteStringDialog.menu d)) <= 1)%nat /\
  (length (groupChecked (RouteStringDialog.menu (updateButtonState d))) <= 1)%nat.
Proof.
  intros d.
  assert (Hlen : (length (groupChecked (RouteStringDialog.menu d)) <= 1)%nat)
    by (vm_compute; lia).
  split; [reflexivity | split; [exact Hlen |]].
  destruct (update_keeps_group_exclusive d eq_refl Hlen) as [Hafter _].
  exact Hafter.
Defined.

Lemma roundtrip_keeps_last_group_flag_witness :
  let d := sampleDialog (sampleOptions [rs.DCT; rs.SID_STAR; rs.SID_STAR_GENERIC])
             "KJFK DCT ALB" stalePlan in
  rs.orthogonal sampleEnumerators = true /\
  unchecked <$> RouteStringDialog.menu d = buildMenu true /\
  (length (groupChecked (RouteStringDialog.menu d)) <= 1)%nat /\
  rs.has (RouteStringDialog.options
            (toolButtonOptionTriggered (updateButtonState d))) rs.SID_STAR = false /\
  rs.has (RouteStringDialog.options
            (toolButtonOptionTriggered (updateButtonState d))) rs.SID_STAR_GENERIC
    = true.
Proof.
  intros d.
  assert (Hlen : (length (groupChecked (RouteStringDialog.menu d)) <= 1)%nat)
    by (vm_compute; lia).
  split; [reflexivity | split; [reflexivity | split; [exact Hlen |]]].
  pose proof (roundtrip_keeps_last_group_flag (E := sampleEnumerators) true d eq_refl eq_refl Hlen) as Hflag.
  split.
  - exact (Hflag rs.SID_STAR).
  - exact (Hflag rs.SID_STAR_GENERIC).
Defined.

End ExtraWitnesses.

(** ** Options to menu and back *)

(** C9, as the dialog has it: [updateButtonState] followed by
    [toolButtonOptionTriggered] leaves the options as they were, for every
    options value in which at most one flag of the actions of the SID and
    STAR group is set.  The group is exclusive: with at most one of its
    actions checked beforehand and several of its flags set, only the last
    such action in menu order is checked afterwards, and the copy back
    keeps that flag, clears the other flags of the group and keeps every
    flag outside the group.  The copy back never touches a bit that no
    action of the menu carries. *)
Theorem options_menu_roundtrip `{G : AtoolsGeo} `{E : rs.Enumerators}
    `{P : PunctuationNoise} `{DB : !NavDatabase}
    (hasSidStarInDatabase : bool) (d : RouteStringDialog.t) :
  rs.orthogonal E = true ->
  unchecked <$> RouteStringDialog.menu d = buildMenu hasSidStarInDatabase ->
  ((length (groupFlagsSet (RouteStringDialog.menu d) (RouteStringDialog.options d))
    <= 1)%nat ->
   RouteStringDialog.options (toolButtonOptionTriggered (updateButtonState d)) =
     RouteStringDialog.options d) /\
  ((length (groupChecked (RouteStringDialog.menu d)) <= 1)%nat ->
   (forall j act,
      RouteStringDialog.menu (updateButtonState d) !! j = Some act ->
      inGroup act = true ->
      checked act =
        bool_decide (lastGroupWanted (RouteStringDialog.options d)
                                     (RouteStringDialog.menu d) = Some j)) /\
   (forall f,
      rs.has (RouteStringDialog.options
                (toolButtonOptionTriggered (updateButtonState d))) f =
      if bool_decide (f ∈ groupFlags hasSidStarInDatabase)
      then bool_decide
             (lastGroupFlag hasSidStarInDatabase (RouteStringDialog.options d) = Some f)
      else rs.has (RouteStringDialog.options d) f)) /\
  (forall o n, 0 <= n ->
     Forall (fun act => Z.testbit (data act) n = false) (RouteStringDialog.menu d) ->
     Z.testbit (copyMenuState (RouteStringDialog.menu d) o) n = Z.testbit o n).
Proof.
  intros Horth Hmenu.
  destruct (dialog_menu_facts Horth _ _ Hmenu) as (Hdis & Hwf & Hgc).
  split; [| split].
  - intros Hgroup. rewrite options_triggered_after_update.
    now apply copyMenuState_copyOptionsToMenu.
  - intros Hex. apply exclusive_groupChecked in Hex. split.
    + intros j act Hj Hg.
      change (RouteStringDialog.menu (updateButtonState d))
        with (copyOptionsToMenu (RouteStringDialog.options d)
                                (RouteStringDialog.menu d)) in Hj.
      rewrite (copyOptionsToMenu_expected _ _ Hgc Hex), expectedMenu_lookup in Hj.
      destruct (RouteStringDialog.menu d !! j) as [a0 |] eqn:Hj0; [| discriminate].
      simpl in Hj. injection Hj as <-. cbn in Hg |- *.
      unfold expectedChecked.
      now rewrite (group_checkable _ Hgc j a0 Hj0 Hg), Hg.
    + intros f. rewrite options_triggered_after_update.
      now apply roundtrip_flags.
  - intros o n. apply copyMenuState_other_bits.
Qed.

Section MenuRoundTripWitness.
Existing Instance sampleGeo.
Existing Instance sampleEnumerators.
Existing Instance sampleNoise.
Existing Instance sampleDatabase.

Lemma options_menu_roundtrip_witness :
  let d := sampleDialog (sampleOptions [rs.DCT; rs.SID_STAR]) "KJFK DCT ALB" stalePlan in
  let d' := sampleDialog (sampleOptions [rs.DCT; rs.SID_STAR; rs.SID_STAR_NONE])
              "KJFK DCT ALB" stalePlan in
  rs.orthogonal sampleEnumerators = true /\
  unchecked <$> RouteStringDialog.menu d = buildMenu true /\
  (length (groupFlagsSet (RouteStringDialog.menu d) (RouteStringDialog.options d))
   <= 1)%nat /\
  RouteStringDialog.options (toolButtonOptionTriggered (updateButtonState d)) =
    sampleOptions [rs.DCT; rs.SID_STAR] /\
  (length (groupChecked (RouteStringDialog.menu d')) <= 1)%nat /\
  rs.has (RouteStringDialog.options
            (toolButtonOptionTriggered (updateButtonState d'))) rs.SID_STAR = false /\
  rs.has (RouteStringDialog.options
            (toolButtonOptionTriggered (updateButtonState d'))) rs.SID_STAR_NONE = true /\
  rs.has (RouteStringDialog.options
            (toolButtonOptionTriggered (updateButtonState d'))) rs.DCT = true.
Proof.
  intros d d'.
  assert (Hflags : (length (groupFlagsSet (RouteStringDialog.menu d)
                                          (RouteStringDialog.options d)) <= 1)%nat)
    by (vm_compute; lia).
  assert (Hchecked : (length (groupChecked (RouteStringDialog.menu d')) <= 1)%nat)
    by (vm_compute; lia).
  split; [reflexivity | split; [reflexivity | split; [exact Hflags |]]].
  destruct (options_menu_roundtrip (E := sampleEnumerators) true d eq_refl eq_refl)
    as (Hsame & _ & _).
  destruct (options_menu_roundtrip (E := sampleEnumerators) true d' eq_refl eq_refl)
    as (_ & Hseveral & _).
  destruct (Hseveral Hchecked) as [_ Hhas].
  split; [exact (Hsame Hflags) | split; [exact Hchecked |]].
  split; [exact (Hhas rs.SID_STAR) | split].
  - exact (Hhas rs.SID_STAR_NONE).
  - exact (Hhas rs.DCT).
Defined.

(** C9, as it is worded, fails: with the flags of "Write SID and STAR"
    and "Write generic SID and STAR" both set, the exclusive group keeps
    only the second action checked, and the copy back clears the first
    flag. *)
Lemma options_menu_roundtrip_fails :
  let o := rs.or (rs.value rs.SID_STAR) (rs.value rs.SID_STAR_GENERIC) in
  let d := sampleDialog o "KJFK DCT ALB" stalePlan in
  RouteStringDialog.options (toolButtonOptionTriggered (updateButtonState d)) =
    rs.value rs.SID_STAR_GENERIC /\
  RouteStringDialog.options (toolButtonOptionTriggered (updateButtonState d)) <> o.
Proof. vm_compute. split; [reflexivity | discriminate]. Qed.
End MenuRoundTripWitness.
